(** * actormq/raft: the per-node Raft agent of [raft/node.go]

    A shallow embedding of the node actor: its state ([nodeActor]), the
    messages it receives, and every handler reached from [Receive],
    followed by the properties of the handlers.

    Conventions.
    - A [uint64] is a [Z] in [0, 2^64); every [+ 1] and [- 1] of the source
      is written with its wrap-around ([wrap64]).  [int(x)] of a [uint64]
      is [int_of_uint64].
    - Indexing a slice out of range panics.  A handler runs in the monad
      [M]: it yields a result or panics, and in both cases the effects
      (messages sent, timer operations, application-handler calls) performed
      so far are kept, which is what a Go [defer] observes.  The node state
      after a panic is not modelled: the actor runtime discards the
      receiver.
    - [actor.PID] belongs to the actor runtime.  [node.go] observes a PID
      only through [String()] and [pidEquals], so a PID is represented by
      its stringified identity.  The PID of a message, [actormq.PID], has
      a [String()] of its own ([actormq_PID_String]).
    - A [float32] conversion rounds to 24 bits ([float32_of_int]).
    - Go iterates a map in an unspecified order; the model iterates in the
      order of [map_to_list].  No statement below depends on that order. *)

From Stdlib Require Import ZArith Lia Ascii.
From stdpp Require Import base tactics option list strings gmap fin_maps.

Local Open Scope Z_scope.

(** ** Machine integers *)

Definition maxUint64 : Z := 2 ^ 64 - 1.
Definition maxInt : Z := 2 ^ 63 - 1.

Definition wrap64 (z : Z) : Z := z mod 2 ^ 64.

(** [int(x)] for [x : uint64] on a 64-bit platform. *)
Definition int_of_uint64 (z : Z) : Z := if z <? 2 ^ 63 then z else z - 2 ^ 64.

Definition is_uint64 (z : Z) : Prop := 0 <= z <= maxUint64.

(** [float32(x)] for an integer [x >= 0]: the nearest number with 24
    significant bits, the even one of two that are equally near.  The
    integers converted here are below [2^64], well within the range of a
    [float32], so the result is again an integer and is kept as a [Z]. *)
Definition float32_of_int (z : Z) : Z :=
  if z <? 2 ^ 24 then z else
  let e := Z.log2 z - 23 in
  let q := Z.shiftr z e in
  let r := z - Z.shiftl q e in
  let half := 2 ^ (e - 1) in
  let q := if (half <? r) || ((r =? half) && Z.odd q) then q + 1 else q in
  Z.shiftl q e.

(** ** Peer identities *)

Abbreviation PID := string (only parsing).

Definition PID_String (p : PID) : string := p.

(** Modelled from the spec: [pidEquals], a helper of the package that is not
    among the sources.  Peer identity "supports equality and
    stringification": two PIDs are equal when both are present and have the
    same stringification.  Every call in [node.go] passes [act.PID()],
    which is never nil, on one side. *)
Definition pidEquals (a b : option PID) : bool :=
  match a, b with
  | Some x, Some y => bool_decide (PID_String x = PID_String y)
  | None, None => true
  | _, _ => false
  end.

(** ** The message form of a PID ([actormq.pb.go]) *)

(** [actormq.PID] is the protobuf message with the string fields [address]
    and [ID].  [PIDToActorPID] and [ActorPIDToPID], which are not among the
    sources, carry the two fields over to and from the runtime's PID, whose
    [String()] joins them with a slash.  An address (host and port, or
    "local") holds no slash, so the fields of an identity are what stands
    before and after its first slash. *)
Definition slash : Ascii.ascii := "047"%char.
Definition dquote : Ascii.ascii := "034"%char.
Definition backslash : Ascii.ascii := "092"%char.

Fixpoint PID_Address (p : string) : string :=
  match p with
  | EmptyString => EmptyString
  | String c rest => if Ascii.eqb c slash then EmptyString else String c (PID_Address rest)
  end.

Fixpoint PID_ID (p : string) : string :=
  match p with
  | EmptyString => EmptyString
  | String c rest => if Ascii.eqb c slash then rest else PID_ID rest
  end.

(** The text form of the value of a string field, without the enclosing
    double quotes: a double quote and a backslash are preceded by a
    backslash.  (Control characters and bytes outside ASCII, which the
    library writes through further escapes, are kept as they are.) *)
Fixpoint textEscape (value : string) : string :=
  match value with
  | EmptyString => EmptyString
  | String c rest =>
    if Ascii.eqb c dquote || Ascii.eqb c backslash
    then String backslash (String c (textEscape rest))
    else String c (textEscape rest)
  end.

(** A field of a proto3 message is written only when it is not empty. *)
Definition textField (name value : string) : list string :=
  match value with
  | EmptyString => []
  | _ => [name +:+ ":" +:+ String dquote (textEscape value +:+ String dquote EmptyString)]
  end.

(** The [String()] method of [actormq.PID], generated as
    [protoimpl.X.MessageStringOf(x)]: the text form of the message on one
    line, [address:"..." ID:"..."], the fields separated by a space.  (The
    protobuf library does not promise a stable output and may write a
    second space.)  This is not the runtime's [String()]: the properties
    below use of it only that it is empty or contains a double quote. *)
Definition actormq_PID_String (p : PID) : string :=
  String.concat " " (textField "address" (PID_Address p) ++ textField "ID" (PID_ID p)).

(** ** Messages ([actormq.pb.go]) *)

Module LogEntry.
Record t := mk { Command : string; Term : Z }.
End LogEntry.

Module ActiveNodes.
Record t := mk { Nodes : list PID }.
End ActiveNodes.

Module Command.
Record t := mk { Command : string }.
End Command.

Module CommandResult.
Record t := mk { Success : bool; RedirectPID : option PID }.
End CommandResult.

(** [node.go] reads the PID fields [LeaderPID], [PID] and [CandidatePID],
    which the generated [actormq.pb.go] among the sources does not declare.
    They are message PIDs ([actormq.ActorPIDToPID] of [act.PID()] fills
    them) that every message sets; a message PID is represented by the
    identity it converts to, and [actormq_PID_String] gives its own
    [String()]. *)
Module AppendEntries.
Record t := mk {
  Term : Z;
  LeaderPID : PID;
  PrevLogIndex : Z;
  PrevLogTerm : Z;
  Entries : list LogEntry.t;
  LeaderCommit : Z }.
End AppendEntries.

Module AppendEntriesResult.
Record t := mk { PID : PID; Term : Z; Success : bool }.
End AppendEntriesResult.

Module RequestVote.
Record t := mk {
  Term : Z;
  CandidatePID : PID;
  LastLogIndex : Z;
  LastLogTerm : Z }.
End RequestVote.

Module RequestVoteResult.
Record t := mk { Term : Z; VoteGranted : bool }.
End RequestVoteResult.

Inductive message :=
| Initialized
| Started
| MsgRegisterNode
| MsgActiveNodes (m : ActiveNodes.t)
| MsgPing
| MsgPong
| MsgCommand (m : Command.t)
| MsgCommandResult (m : CommandResult.t)
| MsgAppendEntries (m : AppendEntries.t)
| MsgAppendEntriesResult (m : AppendEntriesResult.t)
| MsgRequestVote (m : RequestVote.t)
| MsgRequestVoteResult (m : RequestVoteResult.t)
| checkTimers.

(** ** Effects of a handler *)

Inductive timer := ElectionTimer | HeartbeatTimer.

Inductive effect :=
| Send (to : option PID) (m : message)        (* act.Send(pid, msg) *)
| SendWithDelay (to : PID) (m : message)      (* sendWithDelay(act, pid, msg, d) *)
| TimerNew (t : timer)                        (* time.NewTimer(d) *)
| TimerStop (t : timer)                       (* if !t.Stop() { <-t.C } *)
| TimerReset (t : timer)                      (* t.Reset(d) *)
| HandlerCall (command : string).             (* node.config.Handler(command) *)

(** ** The panic-and-effects monad *)

Inductive outcome (A : Type) :=
| Done (a : A)
| Panic.
Arguments Done {A} a.
Arguments Panic {A}.

Record M (A : Type) := mkM { result : outcome A; effects : list effect }.
Arguments mkM {A} result effects.
Arguments result {A} m.
Arguments effects {A} m.

Definition ret {A} (a : A) : M A := mkM (Done a) [].
Definition panic {A} : M A := mkM Panic [].
Definition emit (e : effect) : M unit := mkM (Done tt) [e].

Definition bind {A B} (m : M A) (k : A → M B) : M B :=
  match result m with
  | Done a => mkM (result (k a)) (effects m ++ effects (k a))
  | Panic => mkM Panic (effects m)
  end.

#[global] Instance M_ret : MRet M := @ret.
#[global] Instance M_bind : MBind M := λ A B k m, bind m k.

(** A deferred function runs when the body returns and when it panics; it
    sees whether the body completed. *)
Definition defer {A} (body : M A) (deferred : outcome A → list effect) : M A :=
  mkM (result body) (effects body ++ deferred (result body)).

(** ** Node state ([raft/node.go], [nodeMetadata], [commandMetadata]) *)

Record nodeMetadata := mkNodeMetadata {
  pid : PID;
  nextIndex : Z;
  matchIndex : Z }.

Record commandMetadata := mkCommandMetadata {
  sender : option PID }.

(** [Handler] records whether [config.Handler] is non-nil; the logger is
    not modelled. *)
Record NodeConfig := mkNodeConfig {
  DiscoveryPID : option PID;
  Handler : bool }.

(** The timers are owned by the runtime and appear as effects; [status] is
    declared in the struct but never read or written by [node.go]. *)
Record nodeActor := mkNodeActor {
  config : NodeConfig;
  leader : option PID;
  currentTerm : Z;
  votedFor : option PID;
  log : list LogEntry.t;
  commitIndex : Z;
  lastApplied : Z;
  votes : Z;
  nodes : gmap string nodeMetadata;
  pendingCommands : gmap Z commandMetadata }.

Definition set_leader (v : option PID) (n : nodeActor) : nodeActor :=
  mkNodeActor (config n) v (currentTerm n) (votedFor n) (log n) (commitIndex n)
              (lastApplied n) (votes n) (nodes n) (pendingCommands n).
Definition set_currentTerm (v : Z) (n : nodeActor) : nodeActor :=
  mkNodeActor (config n) (leader n) v (votedFor n) (log n) (commitIndex n)
              (lastApplied n) (votes n) (nodes n) (pendingCommands n).
Definition set_votedFor (v : option PID) (n : nodeActor) : nodeActor :=
  mkNodeActor (config n) (leader n) (currentTerm n) v (log n) (commitIndex n)
              (lastApplied n) (votes n) (nodes n) (pendingCommands n).
Definition set_log (v : list LogEntry.t) (n : nodeActor) : nodeActor :=
  mkNodeActor (config n) (leader n) (currentTerm n) (votedFor n) v (commitIndex n)
              (lastApplied n) (votes n) (nodes n) (pendingCommands n).
Definition set_commitIndex (v : Z) (n : nodeActor) : nodeActor :=
  mkNodeActor (config n) (leader n) (currentTerm n) (votedFor n) (log n) v
              (lastApplied n) (votes n) (nodes n) (pendingCommands n).
Definition set_lastApplied (v : Z) (n : nodeActor) : nodeActor :=
  mkNodeActor (config n) (leader n) (currentTerm n) (votedFor n) (log n) (commitIndex n)
              v (votes n) (nodes n) (pendingCommands n).
Definition set_votes (v : Z) (n : nodeActor) : nodeActor :=
  mkNodeActor (config n) (leader n) (currentTerm n) (votedFor n) (log n) (commitIndex n)
              (lastApplied n) v (nodes n) (pendingCommands n).
Definition set_nodes (v : gmap string nodeMetadata) (n : nodeActor) : nodeActor :=
  mkNodeActor (config n) (leader n) (currentTerm n) (votedFor n) (log n) (commitIndex n)
              (lastApplied n) (votes n) v (pendingCommands n).
Definition set_pendingCommands (v : gmap Z commandMetadata) (n : nodeActor) : nodeActor :=
  mkNodeActor (config n) (leader n) (currentTerm n) (votedFor n) (log n) (commitIndex n)
              (lastApplied n) (votes n) (nodes n) v.

(** [act.PID()], [act.Sender()], and, for a [checkTimers] tick, the case its
    [select] takes: the timer whose channel is ready, or [None] for
    [default]. *)
Record Context := mkContext {
  ctxPID : PID;
  ctxSender : option PID;
  ctxReady : option timer }.

(** ** Slices *)

Definition len (l : list LogEntry.t) : Z := Z.of_nat (length l).

(** [l[i]] for an index [i : uint64]. *)
Definition index (l : list LogEntry.t) (i : Z) : M LogEntry.t :=
  match l !! Z.to_nat i with
  | Some e => ret e
  | None => panic
  end.

(** ** Helpers of [nodeActor] *)

Definition lastLogIndexAndTerm (node : nodeActor) : Z * Z :=
  let lastLogIndex := len (log node) in
  let lastLogTerm :=
    if lastLogIndex >? 0
    then default 0 (LogEntry.Term <$> log node !! Z.to_nat (lastLogIndex - 1))
    else 0 in
  (lastLogIndex, lastLogTerm).

Definition handleExternalTerm (term : Z) (node : nodeActor) : nodeActor :=
  if term >? currentTerm node
  then set_votedFor None (set_leader None (set_currentTerm term node))
  else node.

(** *** [handleActiveNodes] *)

Definition addNode (act : Context) (lastLogIndex : Z)
    (tbl : gmap string nodeMetadata) (p : PID) : gmap string nodeMetadata :=
  if negb (pidEquals (Some p) (Some (ctxPID act))) then
    match tbl !! PID_String p with
    | None => <[PID_String p := mkNodeMetadata p (wrap64 (lastLogIndex + 1)) 0]> tbl
    | Some _ => tbl
    end
  else tbl.

Definition handleActiveNodes (act : Context) (msg : ActiveNodes.t)
    (node : nodeActor) : nodeActor :=
  let lastLogIndex := (lastLogIndexAndTerm node).1 in
  set_nodes (foldl (addNode act lastLogIndex) ∅ (ActiveNodes.Nodes msg)) node.

(** *** [sendAppendEntries], [sendAppendEntriesAll] *)

(** The two [errors.New] returns send nothing; the callers only log the
    error. *)
Definition sendAppendEntries (act : Context) (node : nodeActor) (p : PID) : M unit :=
  match nodes node !! PID_String p with
  | None => ret tt
  | Some metadata =>
    if nextIndex metadata =? 0 then ret tt else
    let lastLogIndex := (lastLogIndexAndTerm node).1 in
    let entries :=
      if lastLogIndex >=? nextIndex metadata
      then drop (Z.to_nat (wrap64 (nextIndex metadata - 1))) (log node)
      else [] in
    let prevLogIndex := wrap64 (nextIndex metadata - 1) in
    prevLogTerm ←
      (if prevLogIndex >? 0
       then e ← index (log node) (wrap64 (prevLogIndex - 1)); ret (LogEntry.Term e)
       else ret 0);
    emit (Send (Some (pid metadata))
      (MsgAppendEntries
         (AppendEntries.mk (currentTerm node) (ctxPID act) prevLogIndex prevLogTerm
            entries (commitIndex node))))
  end.

Fixpoint sendAppendEntriesEach (act : Context) (node : nodeActor)
    (mds : list nodeMetadata) : M unit :=
  match mds with
  | [] => ret tt
  | metadata :: rest =>
    sendAppendEntries act node (pid metadata);;
    sendAppendEntriesEach act node rest
  end.

Definition sendAppendEntriesAll (act : Context) (node : nodeActor) : M unit :=
  sendAppendEntriesEach act node (snd <$> map_to_list (nodes node)).

(** *** [handleCommand] *)

Definition handleCommand (act : Context) (msg : Command.t) (node : nodeActor)
    : M nodeActor :=
  if pidEquals (leader node) (Some (ctxPID act)) then
    let node :=
      set_log (log node ++ [LogEntry.mk (Command.Command msg) (currentTerm node)]) node in
    let newLogIndex := len (log node) in
    let node :=
      set_pendingCommands
        (<[newLogIndex := mkCommandMetadata (ctxSender act)]> (pendingCommands node)) node in
    sendAppendEntriesAll act node;;
    ret node
  else
    emit (Send (ctxSender act)
            (MsgCommandResult (CommandResult.mk false (leader node))));;
    ret node.

(** *** [handleAppendEntries] *)

(** Condition #2.  [true] when the message is rejected.  The index
    expression is evaluated only when the first disjunct is false and the
    log is not empty. *)
Definition prevLogMismatch (node : nodeActor) (msg : AppendEntries.t) : M bool :=
  if AppendEntries.PrevLogIndex msg >? 0 then
    if len (log node) <? int_of_uint64 (AppendEntries.PrevLogIndex msg) then ret true
    else if len (log node) >? 0 then
      e ← index (log node) (wrap64 (AppendEntries.PrevLogIndex msg - 1));
      ret (negb (LogEntry.Term e =? AppendEntries.PrevLogTerm msg))
    else ret false
  else ret false.

(** Conditions #3 and #4: the loop over [msg.Entries], on the log and
    [newEntryIndex]. *)
Fixpoint appendEntriesLoop (lg : list LogEntry.t) (newEntryIndex : Z)
    (entries : list LogEntry.t) : M (list LogEntry.t * Z) :=
  match entries with
  | [] => ret (lg, newEntryIndex)
  | entry :: rest =>
    let newEntryIndex := wrap64 (newEntryIndex + 1) in
    lg ←
      (if len lg >=? int_of_uint64 newEntryIndex then
         e ← index lg (wrap64 (newEntryIndex - 1));
         if negb (LogEntry.Term e =? LogEntry.Term entry)
         then ret (take (Z.to_nat (wrap64 (newEntryIndex - 1))) lg)
         else ret lg
       else ret lg);
    let lg := if len lg <? int_of_uint64 newEntryIndex then lg ++ [entry] else lg in
    appendEntriesLoop lg newEntryIndex rest
  end.

(** The body up to the deferred reply: the new state and [result.Success]. *)
Definition handleAppendEntriesBody (act : Context) (msg : AppendEntries.t)
    (node : nodeActor) : M (nodeActor * bool) :=
  if AppendEntries.Term msg <? currentTerm node then ret (node, false) else
  let node := set_leader (Some (AppendEntries.LeaderPID msg)) node in
  mismatch ← prevLogMismatch node msg;
  if (mismatch : bool) then ret (node, false) else
  r ← appendEntriesLoop (log node) (AppendEntries.PrevLogIndex msg)
        (AppendEntries.Entries msg);
  let node := set_log r.1 node in
  let newEntryIndex := r.2 in
  let node :=
    if AppendEntries.LeaderCommit msg >? commitIndex node
    then set_commitIndex (Z.min (AppendEntries.LeaderCommit msg) newEntryIndex) node
    else node in
  emit (TimerStop ElectionTimer);;
  emit (TimerReset ElectionTimer);;
  ret (node, true).

(** [result.Success] as the deferred function finds it. *)
Definition successOf {A} (r : outcome (A * bool)) : bool :=
  match r with
  | Done (_, b) => b
  | Panic => false
  end.

(** No statement of the handler assigns [currentTerm], so the deferred
    function reads the value the handler was entered with. *)
Definition handleAppendEntries (act : Context) (msg : AppendEntries.t)
    (node : nodeActor) : M nodeActor :=
  r ← defer (handleAppendEntriesBody act msg node)
        (λ r, [Send (ctxSender act)
                 (MsgAppendEntriesResult
                    (AppendEntriesResult.mk (ctxPID act) (currentTerm node) (successOf r)))]);
  ret r.1.

(** *** [handleAppendEntriesResult] *)

(** The lookup is by [msg.PID.String()], the text form of the message PID,
    whereas [handleActiveNodes] and [sendAppendEntries] use the [String()]
    of the runtime's PID.  [metadata] is a pointer: the assignments update
    the entry found under that key. *)
Definition handleAppendEntriesResult (act : Context) (msg : AppendEntriesResult.t)
    (node : nodeActor) : M nodeActor :=
  match nodes node !! actormq_PID_String (AppendEntriesResult.PID msg) with
  | None => ret node
  | Some metadata =>
    let key := actormq_PID_String (AppendEntriesResult.PID msg) in
    if AppendEntriesResult.Success msg then
      let lastLogIndex := (lastLogIndexAndTerm node).1 in
      let metadata :=
        mkNodeMetadata (pid metadata) (wrap64 (lastLogIndex + 1))
                       (wrap64 (nextIndex metadata - 1)) in
      ret (set_nodes (<[key := metadata]> (nodes node)) node)
    else
      let metadata :=
        if nextIndex metadata >? 1
        then mkNodeMetadata (pid metadata) (wrap64 (nextIndex metadata - 1))
                            (matchIndex metadata)
        else metadata in
      let node := set_nodes (<[key := metadata]> (nodes node)) node in
      sendAppendEntries act node (pid metadata);;
      ret node
  end.

(** *** [handleRequestVote] *)

Definition handleRequestVoteBody (act : Context) (msg : RequestVote.t)
    (node : nodeActor) : M (nodeActor * bool) :=
  if RequestVote.Term msg <? currentTerm node then ret (node, false) else
  let candidatePID := RequestVote.CandidatePID msg in
  if bool_decide (votedFor node = None)
     || bool_decide (PID_String <$> votedFor node = Some (PID_String candidatePID)) then
    upToDate ←
      (if RequestVote.LastLogIndex msg >=? lastApplied node then
         if lastApplied node =? 0 then ret true else
         e ← index (log node) (wrap64 (lastApplied node - 1));
         ret (RequestVote.LastLogTerm msg >=? LogEntry.Term e)
       else ret false);
    if (upToDate : bool)
    then ret (set_votedFor (Some candidatePID) node, true)
    else ret (node, false)
  else ret (node, false).

Definition handleRequestVote (act : Context) (msg : RequestVote.t)
    (node : nodeActor) : M nodeActor :=
  r ← defer (handleRequestVoteBody act msg node)
        (λ r, [Send (ctxSender act)
                 (MsgRequestVoteResult
                    (RequestVoteResult.mk (currentTerm node) (successOf r)))]);
  ret r.1.

(** *** [handleRequestVoteResult] *)

(** [float32(votes)/float32(n) > 0.5].  Both conversions round to 24
    bits.  The quotient [a/b] of two [float32] numbers is rounded as well,
    but that cannot change the comparison: with [b] of significand
    [B < 2^24], a quotient above one half exceeds it by at least
    [1/(2B) > 2^-25], which is more than half the distance from 0.5 to the
    next [float32], so the rounded quotient is above 0.5 exactly when
    [2a > b].  Division by zero gives [+Inf] for [votes > 0] and [NaN] for
    [votes = 0], which compare as [2a > 0] does. *)
Definition votesOverHalf (votes : Z) (n : nat) : bool :=
  float32_of_int (Z.of_nat n) <? 2 * float32_of_int votes.

Definition resetCursor (lastLogIndex : Z) (metadata : nodeMetadata) : nodeMetadata :=
  mkNodeMetadata (pid metadata) (wrap64 (lastLogIndex + 1)) 0.

Definition handleRequestVoteResult (act : Context) (msg : RequestVoteResult.t)
    (node : nodeActor) : M nodeActor :=
  if RequestVoteResult.VoteGranted msg
     && (RequestVoteResult.Term msg =? currentTerm node)
     && negb (pidEquals (leader node) (Some (ctxPID act))) then
    let node := set_votes (wrap64 (votes node + 1)) node in
    if votesOverHalf (votes node) (size (nodes node)) then
      let node := set_leader (Some (ctxPID act)) node in
      let lastLogIndex := (lastLogIndexAndTerm node).1 in
      let node := set_nodes (resetCursor lastLogIndex <$> nodes node) node in
      sendAppendEntriesAll act node;;
      ret node
    else ret node
  else ret node.

(** *** [startElection] *)

Definition minServersForElection : Z := 3.

Definition requestVoteTo (act : Context) (node : nodeActor) (metadata : nodeMetadata)
    : effect :=
  let '(lastLogIndex, lastLogTerm) := lastLogIndexAndTerm node in
  Send (Some (pid metadata))
    (MsgRequestVote
       (RequestVote.mk (currentTerm node) (ctxPID act) lastLogIndex lastLogTerm)).

Definition startElection (act : Context) (node : nodeActor) : M nodeActor :=
  let node := set_currentTerm (wrap64 (currentTerm node + 1)) node in
  let node := set_votes 1 node in
  let node := set_votedFor (Some (ctxPID act)) node in
  if Z.of_nat (size (nodes node)) + 1 <? minServersForElection then ret node else
  mkM (Done node) (requestVoteTo act node <$> (snd <$> map_to_list (nodes node))).

(** *** [updateStateMachine] *)

(** The number of peers whose [matchIndex] is at least [i]. *)
Definition matched (node : nodeActor) (i : Z) : nat :=
  size (filter (λ kv : string * nodeMetadata, i <= matchIndex kv.2) (nodes node)).

(** [float32(matched) > float32(n)/2]: both conversions round to 24 bits;
    halving a [float32] is exact. *)
Definition overHalf (matched n : nat) : bool :=
  float32_of_int (Z.of_nat n) <? 2 * float32_of_int (Z.of_nat matched).

(** The leader's scan [for i := uint64(len(node.log)); i >= node.commitIndex+1; i--].
    At [i = 0] the index [i-1] wraps to [2^64-1], which is out of range. *)
Fixpoint commitScan (node : nodeActor) (i : nat) : M nodeActor :=
  if Z.of_nat i >=? wrap64 (commitIndex node + 1) then
    match i with
    | O => panic
    | S j =>
      e ← index (log node) (Z.of_nat j);
      if (LogEntry.Term e =? currentTerm node)
         && overHalf (matched node (Z.of_nat i)) (size (nodes node))
      then ret (set_commitIndex (Z.of_nat i) node)
      else commitScan node j
    end
  else ret node.

(** One iteration of the apply loop, after [lastApplied] was incremented and
    [entry := node.log[node.lastApplied-1]] was read. *)
Definition applyEntry (entry : LogEntry.t) (node : nodeActor) : M nodeActor :=
  (if Handler (config node) then emit (HandlerCall (LogEntry.Command entry)) else ret tt);;
  match pendingCommands node !! lastApplied node with
  | Some command =>
    emit (Send (sender command) (MsgCommandResult (CommandResult.mk true None)));;
    ret (set_pendingCommands (delete (lastApplied node) (pendingCommands node)) node)
  | None => ret node
  end.

(** [for node.commitIndex > node.lastApplied].  The loop reads the log at
    consecutive positions, so it walks [rest], the log from position
    [lastApplied] on; when [rest] is empty the index is out of range. *)
Fixpoint applyLoop (rest : list LogEntry.t) (node : nodeActor) : M nodeActor :=
  if commitIndex node >? lastApplied node then
    match rest with
    | [] => panic
    | entry :: rest =>
      node ← applyEntry entry (set_lastApplied (wrap64 (lastApplied node + 1)) node);
      applyLoop rest node
    end
  else ret node.

Definition updateStateMachine (act : Context) (node : nodeActor) : M nodeActor :=
  node ←
    (if pidEquals (leader node) (Some (ctxPID act))
     then commitScan node (length (log node))
     else ret node);
  applyLoop (drop (Z.to_nat (lastApplied node)) (log node)) node.

(** *** [Receive] *)

Definition handleCheckTimers (act : Context) (node : nodeActor) : M nodeActor :=
  node ←
    match ctxReady act with
    | Some HeartbeatTimer =>
      emit (TimerReset HeartbeatTimer);;
      if pidEquals (leader node) (Some (ctxPID act))
      then sendAppendEntriesAll act node;; ret node
      else ret node
    | Some ElectionTimer =>
      emit (TimerReset ElectionTimer);;
      if negb (pidEquals (Some (ctxPID act)) (leader node))
      then startElection act node
      else ret node
    | None => ret node
    end;
  emit (SendWithDelay (ctxPID act) checkTimers);;
  ret node.

Definition dispatch (act : Context) (msg : message) (node : nodeActor) : M nodeActor :=
  match msg with
  | Initialized =>
    emit (TimerNew ElectionTimer);;
    emit (TimerNew HeartbeatTimer);;
    ret (set_pendingCommands ∅ (set_nodes ∅ node))
  | Started =>
    emit (Send (DiscoveryPID (config node)) MsgRegisterNode);;
    emit (Send (Some (ctxPID act)) checkTimers);;
    ret node
  | MsgActiveNodes m => ret (handleActiveNodes act m node)
  | MsgPing => emit (Send (ctxSender act) MsgPong);; ret node
  | MsgCommand m => handleCommand act m node
  | MsgAppendEntries m =>
    handleAppendEntries act m (handleExternalTerm (AppendEntries.Term m) node)
  | MsgAppendEntriesResult m =>
    handleAppendEntriesResult act m (handleExternalTerm (AppendEntriesResult.Term m) node)
  | MsgRequestVote m =>
    handleRequestVote act m (handleExternalTerm (RequestVote.Term m) node)
  | MsgRequestVoteResult m =>
    handleRequestVoteResult act m (handleExternalTerm (RequestVoteResult.Term m) node)
  | checkTimers => handleCheckTimers act node
  | MsgRegisterNode | MsgPong | MsgCommandResult _ => ret node
  end.

Definition Receive (act : Context) (msg : message) (node : nodeActor) : M nodeActor :=
  node ← dispatch act msg node;
  updateStateMachine act node.

(** The runtime delivers the messages of the mailbox one at a time; a panic
    ends the run. *)
Definition deliver (r : outcome nodeActor) (step : Context * message)
    : outcome nodeActor :=
  match r with
  | Done node => result (Receive step.1 step.2 node)
  | Panic => Panic
  end.

Definition handleAll (steps : list (Context * message)) (node : nodeActor)
    : outcome nodeActor :=
  foldl deliver (Done node) steps.

(** The receiver [NewNode] produces: the zero value of [nodeActor]. *)
Definition newNode (config : NodeConfig) : nodeActor :=
  mkNodeActor config None 0 None [] 0 0 0 ∅ ∅.

(** ** Predicates used in the statements *)

(** What the leader's scan tests at index [i]. *)
Definition scanAccepts (node : nodeActor) (i : Z) : Prop :=
  (∃ e, log node !! Z.to_nat (i - 1) = Some e ∧ LogEntry.Term e = currentTerm node)
  ∧ overHalf (matched node i) (size (nodes node)) = true.

(** The apply loop changes [lastApplied] and [pendingCommands] only. *)
Definition sameButApplied (a b : nodeActor) : Prop :=
  config a = config b ∧ leader a = leader b ∧ currentTerm a = currentTerm b ∧
  votedFor a = votedFor b ∧ log a = log b ∧ commitIndex a = commitIndex b ∧
  votes a = votes b ∧ nodes a = nodes b.

(** The reply of the apply loop to the client of a pending command. *)
Definition successReply (to : option PID) : effect :=
  Send to (MsgCommandResult (CommandResult.mk true None)).

(** Effects of the advance step: application-handler calls and success
    replies to clients. *)
Definition isApplyEffect (e : effect) : Prop :=
  match e with
  | HandlerCall _ => True
  | Send _ (MsgCommandResult r) => CommandResult.Success r = true
  | _ => False
  end.

(** The message's entries agree in term with the log [lg] at every position
    below [c] they cover, the first entry being at position [n]. *)
Definition agreeBelow (c n : nat) (entries lg : list LogEntry.t) : Prop :=
  ∀ k e, entries !! k = Some e → (n + k < c)%nat →
    ∃ e', lg !! (n + k)%nat = Some e' ∧ LogEntry.Term e' = LogEntry.Term e.

(** The state [handleAppendEntries] leaves when it accepts [msg], the loop
    having produced the log [lg] and [newEntryIndex = nei]. *)
Definition acceptEntries (msg : AppendEntries.t) (lg : list LogEntry.t) (nei : Z)
    (node : nodeActor) : nodeActor :=
  let node := set_log lg (set_leader (Some (AppendEntries.LeaderPID msg)) node) in
  if AppendEntries.LeaderCommit msg >? commitIndex node
  then set_commitIndex (Z.min (AppendEntries.LeaderCommit msg) nei) node
  else node.

(** What an accepted message leaves in the log, as far as a replay is
    concerned. *)
Definition holdsEntries (msg : AppendEntries.t) (lg : list LogEntry.t) : Prop :=
  (∃ n : nat, AppendEntries.PrevLogIndex msg = Z.of_nat n ∧
     (n + length (AppendEntries.Entries msg) ≤ length lg)%nat ∧
     agreeBelow (n + length (AppendEntries.Entries msg)) n (AppendEntries.Entries msg) lg)
  ∨ (AppendEntries.Entries msg = [] ∧ lg = []).

(** The term carried by a peer message. *)
Definition termOf (msg : message) : option Z :=
  match msg with
  | MsgAppendEntries m => Some (AppendEntries.Term m)
  | MsgAppendEntriesResult m => Some (AppendEntriesResult.Term m)
  | MsgRequestVote m => Some (RequestVote.Term m)
  | MsgRequestVoteResult m => Some (RequestVoteResult.Term m)
  | _ => None
  end.

(** The grant condition in the words of the specification, on the state the
    handler is entered with. *)
Definition spec_voteGranted (msg : RequestVote.t) (node : nodeActor) : Prop :=
  RequestVote.Term msg >= currentTerm node ∧
  (votedFor node = None ∨ votedFor node = Some (RequestVote.CandidatePID msg)) ∧
  RequestVote.LastLogIndex msg >= lastApplied node ∧
  (lastApplied node = 0 ∨
   ∃ e, log node !! Z.to_nat (lastApplied node - 1) = Some e ∧
        RequestVote.LastLogTerm msg >= LogEntry.Term e).

(** The effects that send a [RequestVoteResult]. *)
Definition isVoteReply (e : effect) : bool :=
  match e with
  | Send _ (MsgRequestVoteResult _) => true
  | _ => false
  end.

(** With every cursor within the log, sending does not panic. *)
Definition cursorsInLog (node : nodeActor) : Prop :=
  ∀ k md, nodes node !! k = Some md → 1 <= nextIndex md <= len (log node) + 1.

(** The state [handleRequestVoteResult] leaves when the counted vote makes
    the node leader. *)
Definition promote (act : Context) (node : nodeActor) : nodeActor :=
  set_nodes (resetCursor (len (log node)) <$> nodes node)
    (set_leader (Some (ctxPID act)) (set_votes (wrap64 (votes node + 1)) node)).


(** The [uint64] field of a message that the statements below depend on. *)
Definition validMessage (msg : message) : Prop :=
  match msg with
  | MsgAppendEntries m => 0 <= AppendEntries.PrevLogIndex m <= maxUint64
  | _ => True
  end.

(** An [AppendEntries] does not lower [commitIndex]: when its
    [leaderCommit] exceeds [commitIndex], the index of its last entry is
    not below [commitIndex]. *)
Definition commitNotLowered (msg : message) (node : nodeActor) : Prop :=
  match msg with
  | MsgAppendEntries m =>
    AppendEntries.LeaderCommit m <= commitIndex node
    ∨ commitIndex node
      <= AppendEntries.PrevLogIndex m + Z.of_nat (length (AppendEntries.Entries m))
  | _ => True
  end.


(** The claim in the words of the specification: a peer already in the
    table and still listed keeps its cursors. *)
Definition spec_cursorsPreserved (act : Context) (msg : ActiveNodes.t)
    (node : nodeActor) : Prop :=
  ∀ p md, nodes node !! PID_String p = Some md →
    p ∈ ActiveNodes.Nodes msg → p ≠ ctxPID act →
    ∃ md', nodes (handleActiveNodes act msg node) !! PID_String p = Some md' ∧
           nextIndex md' = nextIndex md ∧ matchIndex md' = matchIndex md.

(** The operations on a timer. *)
Definition isTimerEffect (e : effect) : bool :=
  match e with
  | TimerNew _ | TimerStop _ | TimerReset _ => true
  | _ => false
  end.

(** ** Predicates used in the further properties *)

(** The effects that send an [AppendEntriesResult], an [AppendEntries], a
    [RequestVote]. *)
Definition isAppendReply (e : effect) : bool :=
  match e with
  | Send _ (MsgAppendEntriesResult _) => true
  | _ => false
  end.

Definition isAppendEntriesSend (e : effect) : bool :=
  match e with
  | Send _ (MsgAppendEntries _) => true
  | _ => false
  end.

Definition isRequestVoteSend (e : effect) : bool :=
  match e with
  | Send _ (MsgRequestVote _) => true
  | _ => false
  end.

(** The commands passed to [config.Handler], in order. *)
Definition handlerCalls (l : list effect) : list string :=
  omap (λ e, match e with HandlerCall c => Some c | _ => None end) l.

(** Every entry of the peer table is stored under the key of its own
    [pid], as [handleActiveNodes] stores it. *)
Definition tableConsistent (node : nodeActor) : Prop :=
  ∀ k md, nodes node !! k = Some md → PID_String (pid md) = k.

(** The message [sendAppendEntries] builds for a peer whose cursor is
    within the log. *)
Definition appendEntriesFor (act : Context) (node : nodeActor)
    (metadata : nodeMetadata) : AppendEntries.t :=
  AppendEntries.mk (currentTerm node) (ctxPID act) (nextIndex metadata - 1)
    (if nextIndex metadata - 1 >? 0
     then default 0 (LogEntry.Term <$> log node !! Z.to_nat (nextIndex metadata - 2))
     else 0)
    (drop (Z.to_nat (nextIndex metadata - 1)) (log node))
    (commitIndex node).

(** A state on which no handler other than [handleAppendEntries] can read
    outside the log: the peer table is keyed by the peers' own names, the
    cursors are within the log, and so are [lastApplied] and
    [commitIndex]. *)
Definition wellFormed (node : nodeActor) : Prop :=
  tableConsistent node ∧ cursorsInLog node ∧
  0 <= lastApplied node <= len (log node) ∧
  0 <= commitIndex node <= len (log node).

Definition notAppendEntries (msg : message) : Prop :=
  ∀ m, msg ≠ MsgAppendEntries m.

(** ** Scenarios: a three-node cluster A, B, C *)

Module Scenario.
Definition cfg : NodeConfig := mkNodeConfig (Some "discovery"%string) true.
Definition entry (term : Z) : LogEntry.t := LogEntry.mk "x=1" term.

Definition peer (p : PID) (next matched : Z) : nodeMetadata :=
  mkNodeMetadata p next matched.

(** The peer table of A: B and C with the given [matchIndex]. *)
Definition peersOfA (matchB matchC : Z) : gmap string nodeMetadata :=
  <["B"%string := peer "B"%string 2 matchB]>
    (<["C"%string := peer "C"%string 2 matchC]> ∅).

(** A handles a message from B; B handles a message from A. *)
Definition actA : Context := mkContext "A"%string (Some "B"%string) None.
Definition actB : Context := mkContext "B"%string (Some "A"%string) None.

(** A is leader in term 1 with one entry of term 1, not yet committed. *)
Definition leaderA (matchB matchC : Z) : nodeActor :=
  mkNodeActor cfg (Some "A"%string) 1 (Some "A"%string) [entry 1] 0 0 2
              (peersOfA matchB matchC) ∅.

(** B is a follower of A in term 1 with [n] entries of term 1, all
    committed and applied. *)
Definition followerB (n : nat) : nodeActor :=
  mkNodeActor cfg (Some "A"%string) 1 None (replicate n (entry 1))
              (Z.of_nat n) (Z.of_nat n) 0 ∅ ∅.

(** A leader of term 2 overwrites B's log from the start. *)
Definition overwrite : AppendEntries.t :=
  AppendEntries.mk 2 "C"%string 0 0 [entry 2] 0.

(** A heartbeat with [prevLogIndex = 0] and a [leaderCommit] beyond B's. *)
Definition shortHeartbeat : AppendEntries.t :=
  AppendEntries.mk 1 "A"%string 0 0 [] 6.

(** The leader A of term 1 replicates [n] entries, all committed. *)
Definition fill (n : nat) : AppendEntries.t :=
  AppendEntries.mk 1 "A"%string 0 0 (replicate n (entry 1)) (Z.of_nat n).

(** A five-node cluster: A is a candidate in term 2 with its own vote. *)
Definition peersOfA5 : gmap string nodeMetadata :=
  <["B"%string := peer "B"%string 1 0]>
    (<["C"%string := peer "C"%string 1 0]>
       (<["D"%string := peer "D"%string 1 0]>
          (<["E"%string := peer "E"%string 1 0]> ∅))).

Definition candidateA5 : nodeActor :=
  mkNodeActor cfg None 2 (Some "A"%string) [] 0 0 1 peersOfA5 ∅.

(** B's grant for term 2. *)
Definition grant : RequestVoteResult.t := RequestVoteResult.mk 2 true.

(** B after it has started and granted its vote to A in the last term a
    [uint64] can hold. *)
Definition lastTermB : nodeActor :=
  mkNodeActor cfg None maxUint64 (Some "A"%string) [] 0 0 0 ∅ ∅.

(** A is leader in term 1 and a client waits for the entry at index 1. *)
Definition leaderWithPending : nodeActor :=
  mkNodeActor cfg (Some "A"%string) 1 (Some "A"%string) [entry 1] 0 0 2
              (peersOfA 0 0) {[ 1 := mkCommandMetadata (Some "client"%string) ]}.
End Scenario.

(** * Properties *)

(** ** The monad *)

Section Monad.
Context {A B : Type}.
Implicit Types (m : M A) (k : A → M B).

Lemma result_bind_Done m k b :
  result (m ≫= k) = Done b ↔ ∃ a, result m = Done a ∧ result (k a) = Done b.
Proof.
  unfold mbind, M_bind, bind. destruct (result m) as [a|]; simpl.
  - split; [eauto | intros (a' & [= <-] & H); done].
  - split; [done | intros (a' & [=] & _)].
Qed.

Lemma effects_bind_Done m k a :
  result m = Done a → effects (m ≫= k) = effects m ++ effects (k a).
Proof. unfold mbind, M_bind, bind. by intros ->. Qed.

Lemma result_bind_Done_l m k a :
  result m = Done a → result (m ≫= k) = result (k a).
Proof. unfold mbind, M_bind, bind. by intros ->. Qed.

Lemma effects_bind_prefix m k : ∃ o, effects (m ≫= k) = effects m ++ o.
Proof.
  unfold mbind, M_bind, bind. destruct (result m); simpl; eauto.
  exists []. by rewrite app_nil_r.
Qed.
End Monad.

Lemma bind_ret_l {A B} (a : A) (k : A → M B) : ret a ≫= k = k a.
Proof. unfold mbind, M_bind, bind, ret. simpl. by destruct (k a). Qed.

Lemma result_defer {A} (body : M A) d : result (defer body d) = result body.
Proof. done. Qed.

(** ** Machine integers *)

Lemma float32_of_int_small z : z < 2 ^ 24 → float32_of_int z = z.
Proof.
  intros Hz. unfold float32_of_int.
  destruct (z <? 2 ^ 24) eqn:E; [done|]. apply Z.ltb_ge in E. lia.
Qed.

Lemma votesOverHalf_small votes n :
  Z.of_nat n < 2 ^ 24 → votes < 2 ^ 24 →
  votesOverHalf votes n = (Z.of_nat n <? 2 * votes).
Proof. intros Hn Hv. unfold votesOverHalf. by rewrite !float32_of_int_small. Qed.


(** No count is above half when nothing is counted. *)
Lemma overHalf_0 n : overHalf 0 n = false.
Proof.
  unfold overHalf. change (float32_of_int (Z.of_nat 0)) with 0.
  apply Z.ltb_ge. unfold float32_of_int.
  destruct (Z.of_nat n <? 2 ^ 24) eqn:E; [lia|]. apply Z.ltb_ge in E.
  rewrite Z.shiftl_mul_pow2 by (pose proof (Z.log2_le_mono (2 ^ 24) (Z.of_nat n) E) as H;
    rewrite Z.log2_pow2 in H by lia; lia).
  assert (0 <= Z.shiftr (Z.of_nat n) (Z.log2 (Z.of_nat n) - 23))
    by (apply Z.shiftr_nonneg; lia).
  destruct (_ || _); apply Z.mul_nonneg_nonneg; lia.
Qed.

Lemma wrap64_small z : 0 <= z <= maxUint64 → wrap64 z = z.
Proof. unfold wrap64, maxUint64. intros. apply Z.mod_small. lia. Qed.

Lemma wrap64_range z : 0 <= wrap64 z <= maxUint64.
Proof. unfold wrap64, maxUint64. pose proof (Z.mod_pos_bound z (2 ^ 64)). lia. Qed.

Lemma int_of_uint64_small z : z <= maxInt → int_of_uint64 z = z.
Proof. unfold int_of_uint64, maxInt. intros. case_match; lia. Qed.

Lemma int_of_uint64_large z : maxInt < z → z <= maxUint64 → int_of_uint64 z < 0.
Proof. unfold int_of_uint64, maxInt, maxUint64. intros. case_match; lia. Qed.

Lemma maxInt_lt_maxUint64 : maxInt < maxUint64.
Proof. reflexivity. Qed.

(** ** Slices *)

Lemma len_nonneg l : 0 <= len l.
Proof. unfold len. lia. Qed.

Lemma len_nil : len [] = 0.
Proof. done. Qed.

Lemma len_cons e l : len (e :: l) = len l + 1.
Proof. unfold len. rewrite length_cons. lia. Qed.

Lemma len_app l e : len (l ++ [e]) = len l + 1.
Proof. unfold len. rewrite length_app. simpl. lia. Qed.

Lemma index_Done l i e :
  result (index l i) = Done e ↔ l !! Z.to_nat i = Some e.
Proof. unfold index. destruct (l !! Z.to_nat i); simpl; naive_solver. Qed.

Lemma index_in_range l i :
  0 <= i < len l → ∃ e, index l i = ret e ∧ l !! Z.to_nat i = Some e.
Proof.
  intros Hi. unfold index, len in *.
  destruct (lookup_lt_is_Some_2 l (Z.to_nat i)) as [e He]; [lia|].
  exists e. by rewrite He.
Qed.

Lemma index_out_of_range l i : len l <= i → index l i = panic.
Proof.
  intros Hi. unfold index, len in *.
  rewrite lookup_ge_None_2; [done | lia].
Qed.

(** ** Inversion of monadic code *)

Ltac inv_Done :=
  repeat match goal with
  | H : result (_ ≫= _) = Done _ |- _ =>
    let a := fresh "a" in let Ha := fresh "Ha" in
    apply result_bind_Done in H as (a & Ha & H)
  | H : result (ret _) = Done _ |- _ => injection H as H
  | H : result panic = Done _ |- _ => discriminate H
  | H : result (emit _) = Done _ |- _ => clear H
  | H : result (mkM _ _) = Done _ |- _ => simpl in H
  | H : Done _ = Done _ |- _ => injection H as H
  | H : @Panic _ = Done _ |- _ => discriminate H
  end.

(** Boolean comparisons of the code as propositions, for [lia]. *)
Ltac bool_to_Z :=
  repeat match goal with
  | H : (_ >=? _) = true |- _ => apply Z.geb_le in H
  | H : (_ >=? _) = false |- _ => rewrite Z.geb_leb in H; apply Z.leb_gt in H
  | H : (_ >? _) = true |- _ => apply Z.gtb_lt in H
  | H : (_ >? _) = false |- _ => rewrite Z.gtb_ltb in H; apply Z.ltb_ge in H
  | H : (_ <? _) = true |- _ => apply Z.ltb_lt in H
  | H : (_ <? _) = false |- _ => apply Z.ltb_ge in H
  | H : (_ <=? _) = true |- _ => apply Z.leb_le in H
  | H : (_ <=? _) = false |- _ => apply Z.leb_gt in H
  | H : (_ =? _) = true |- _ => apply Z.eqb_eq in H
  | H : (_ =? _) = false |- _ => apply Z.eqb_neq in H
  end.
Ltac zlia := bool_to_Z; first [lia | exfalso; lia].

(** Closed comparisons, by evaluation. *)
Ltac closed_Z := vm_compute; repeat split; first [reflexivity | discriminate].

(** ** [handleExternalTerm] *)

Lemma handleExternalTerm_frame T node :
  let node' := handleExternalTerm T node in
  config node' = config node ∧ log node' = log node ∧
  commitIndex node' = commitIndex node ∧ lastApplied node' = lastApplied node ∧
  votes node' = votes node ∧ nodes node' = nodes node ∧
  pendingCommands node' = pendingCommands node.
Proof. unfold handleExternalTerm. by case_match. Qed.

Lemma handleExternalTerm_advance T node :
  T > currentTerm node →
  let node' := handleExternalTerm T node in
  currentTerm node' = T ∧ leader node' = None ∧ votedFor node' = None.
Proof.
  intros HT. unfold handleExternalTerm.
  destruct (T >? currentTerm node) eqn:E; [done | lia].
Qed.

Lemma handleExternalTerm_keep T node :
  T <= currentTerm node → handleExternalTerm T node = node.
Proof.
  intros HT. unfold handleExternalTerm.
  destruct (T >? currentTerm node) eqn:E; [lia | done].
Qed.

Lemma handleExternalTerm_currentTerm T node :
  currentTerm (handleExternalTerm T node) = Z.max T (currentTerm node).
Proof.
  unfold handleExternalTerm.
  destruct (T >? currentTerm node) eqn:E; simpl; lia.
Qed.

(** ** [updateStateMachine] *)

Lemma commitScan_effects node i : effects (commitScan node i) = [].
Proof.
  induction i as [|j IH]; simpl.
  - by repeat case_match.
  - case_match; [|done].
    unfold mbind, M_bind, bind, index.
    destruct (log node !! Z.to_nat (Z.of_nat j)); simpl; [|done].
    by case_match.
Qed.

Lemma commitScan_spec node (i : nat) :
  (i ≤ length (log node))%nat →
  0 <= commitIndex node < maxUint64 →
  ∃ node', commitScan node i = ret node' ∧
    ((∃ j, commitIndex node < j <= Z.of_nat i ∧ scanAccepts node j ∧
           (∀ j', j < j' <= Z.of_nat i → ¬ scanAccepts node j') ∧
           node' = set_commitIndex j node)
     ∨ ((∀ j', commitIndex node < j' <= Z.of_nat i → ¬ scanAccepts node j') ∧
        node' = node)).
Proof.
  intros Hi Hc.
  assert (Hw : wrap64 (commitIndex node + 1) = commitIndex node + 1)
    by (apply wrap64_small; lia).
  induction i as [|j IH].
  - cbn [commitScan]. rewrite Hw. change (Z.of_nat 0) with 0.
    destruct (0 >=? commitIndex node + 1) eqn:E; [exfalso; zlia|].
    eexists; split; [done|]. right. split; [|done]. intros j' Hj'. zlia.
  - cbn [commitScan]. rewrite Hw.
    destruct (Z.of_nat (S j) >=? commitIndex node + 1) eqn:E.
    + destruct (index_in_range (log node) (Z.of_nat j)) as (e & He & Hl);
        [unfold len; lia|].
      rewrite He, bind_ret_l.
      destruct ((LogEntry.Term e =? currentTerm node)
                && overHalf (matched node (Z.of_nat (S j))) (size (nodes node))) eqn:Hacc.
      * eexists; split; [done|]. left. exists (Z.of_nat (S j)).
        apply andb_true_iff in Hacc as [Ht Hm].
        split; [zlia|]. split.
        { split; [|done]. exists e. split; [|zlia].
          by replace (Z.of_nat (S j) - 1) with (Z.of_nat j) by lia. }
        split; [intros; lia | done].
      * destruct IH as (node' & -> & Hcases); [lia|].
        exists node'. split; [done|].
        assert (Hrej : ¬ scanAccepts node (Z.of_nat (S j))).
        { intros [(e' & He' & Ht) Hm].
          replace (Z.of_nat (S j) - 1) with (Z.of_nat j) in He' by lia.
          rewrite Hl in He'. injection He' as <-.
          apply andb_false_iff in Hacc as [Hf | Hf]; [zlia | congruence]. }
        destruct Hcases as [(k & Hk & Hacck & Hmax & ->) | [Hnone ->]].
        -- left. exists k. split; [lia|]. split; [done|]. split; [|done].
           intros j' Hj'. destruct (decide (j' = Z.of_nat (S j))) as [->|]; [done|].
           apply Hmax. lia.
        -- right. split; [|done].
           intros j' Hj'. destruct (decide (j' = Z.of_nat (S j))) as [->|]; [done|].
           apply Hnone. lia.
    + eexists; split; [done|]. right. split; [|done]. intros j' Hj'. zlia.
Qed.

Lemma sameButApplied_refl a : sameButApplied a a.
Proof. by repeat split. Qed.

Lemma sameButApplied_trans a b c :
  sameButApplied a b → sameButApplied b c → sameButApplied a c.
Proof. unfold sameButApplied. intuition congruence. Qed.

Lemma applyEntry_spec entry node :
  result (applyEntry entry node)
  = Done (set_pendingCommands (delete (lastApplied node) (pendingCommands node)) node)
  ∧ effects (applyEntry entry node)
    = (if Handler (config node) then [HandlerCall (LogEntry.Command entry)] else [])
      ++ match pendingCommands node !! lastApplied node with
         | Some command => [successReply (sender command)]
         | None => []
         end.
Proof.
  unfold applyEntry, successReply, mbind, M_bind, bind.
  destruct (Handler (config node)); simpl;
    destruct (pendingCommands node !! lastApplied node) eqn:E; simpl;
    (split; [|done]); try done.
  all: rewrite delete_id by done; by destruct node.
Qed.

Lemma applyEntry_effects entry node :
  Forall isApplyEffect (effects (applyEntry entry node)).
Proof.
  rewrite (proj2 (applyEntry_spec entry node)).
  apply Forall_app. split.
  - destruct (Handler (config node)); repeat constructor.
  - case_match; repeat constructor.
Qed.

Lemma applyLoop_effects rest node :
  Forall isApplyEffect (effects (applyLoop rest node)).
Proof.
  revert node. induction rest as [|entry rest IH]; intros node; simpl.
  - repeat case_match; constructor.
  - case_match; [|constructor].
    unfold mbind, M_bind, bind.
    rewrite (proj1 (applyEntry_spec _ _)). simpl.
    apply Forall_app. split; [apply applyEntry_effects | apply IH].
Qed.

Lemma applyLoop_spec rest node node' :
  result (applyLoop rest node) = Done node' →
  0 <= lastApplied node →
  lastApplied node + len rest <= maxUint64 →
  sameButApplied node' node ∧
  lastApplied node' = Z.max (lastApplied node) (commitIndex node) ∧
  lastApplied node' - lastApplied node <= len rest ∧
  (∀ k, pendingCommands node' !! k =
        if decide (lastApplied node < k <= lastApplied node')
        then None else pendingCommands node !! k) ∧
  (∀ k command, pendingCommands node !! k = Some command →
     lastApplied node < k <= lastApplied node' →
     successReply (sender command) ∈ effects (applyLoop rest node)).
Proof.
  revert node. induction rest as [|entry rest IH]; intros node; cbn [applyLoop].
  - destruct (commitIndex node >? lastApplied node) eqn:E; [done|].
    intros [= <-] H0 Hr. split; [apply sameButApplied_refl|].
    split; [zlia|]. split; [rewrite len_nil; lia|].
    split; intros k; [case_decide; [lia | done] | intros; lia].
  - destruct (commitIndex node >? lastApplied node) eqn:E.
    + intros H H0 Hr. apply result_bind_Done in H as (mid & Hmid & H).
      pose proof (proj2 (applyEntry_spec entry
        (set_lastApplied (wrap64 (lastApplied node + 1)) node))) as Heff.
      rewrite (proj1 (applyEntry_spec _ _)) in Hmid. injection Hmid as <-.
      rewrite len_cons in Hr. pose proof (len_nonneg rest) as Hrest.
      assert (Hw : wrap64 (lastApplied node + 1) = lastApplied node + 1)
        by (apply wrap64_small; lia).
      cbn [lastApplied set_lastApplied pendingCommands] in Heff.
      rewrite Hw in *.
      apply IH in H as (Hsame & Hla & Hcnt & Hpc & Hrep);
        [| simpl; lia | simpl; lia].
      simpl in Hla, Hcnt, Hpc, Hrep.
      split; [exact Hsame|].
      split; [zlia|]. split; [rewrite len_cons; lia|].
      split.
      * intros k. rewrite Hpc.
        destruct (decide (k = lastApplied node + 1)) as [->|Hne].
        -- rewrite lookup_delete_eq. repeat case_decide; try done; lia.
        -- rewrite lookup_delete_ne by done.
           repeat case_decide; try done; lia.
      * intros k command Hk Hin.
        erewrite effects_bind_Done; [|apply applyEntry_spec].
        apply elem_of_app.
        destruct (decide (k = lastApplied node + 1)) as [->|Hne].
        -- left. rewrite Heff, Hk. apply elem_of_app. right. constructor.
        -- right. apply (Hrep k); [|lia]. by rewrite lookup_delete_ne.
    + intros [= <-] H0 Hr. split; [apply sameButApplied_refl|].
      split; [zlia|]. split; [pose proof (len_nonneg (entry :: rest)); lia|].
      split; intros k; [case_decide; [lia | done] | intros; lia].
Qed.

Lemma len_drop (l : list LogEntry.t) (n : Z) :
  0 <= n → n + len (drop (Z.to_nat n) l) = Z.max n (len l).
Proof. intros Hn. unfold len. rewrite length_drop. lia. Qed.

(** The advance step as a whole, on a state whose counters are
    representable. *)
Lemma updateStateMachine_spec act node node' :
  result (updateStateMachine act node) = Done node' →
  0 <= lastApplied node <= maxUint64 →
  0 <= commitIndex node < maxUint64 →
  len (log node) <= maxUint64 →
  config node' = config node ∧ leader node' = leader node ∧
  currentTerm node' = currentTerm node ∧ votedFor node' = votedFor node ∧
  log node' = log node ∧ votes node' = votes node ∧ nodes node' = nodes node ∧
  (commitIndex node' = commitIndex node
   ∨ (pidEquals (leader node) (Some (ctxPID act)) = true ∧
      commitIndex node < commitIndex node' <= len (log node) ∧
      scanAccepts node (commitIndex node') ∧
      ∀ j, commitIndex node' < j <= len (log node) → ¬ scanAccepts node j)) ∧
  lastApplied node' = Z.max (lastApplied node) (commitIndex node') ∧
  (lastApplied node < lastApplied node' → lastApplied node' <= len (log node)) ∧
  (∀ k, pendingCommands node' !! k =
        if decide (lastApplied node < k <= lastApplied node')
        then None else pendingCommands node !! k) ∧
  (∀ k command, pendingCommands node !! k = Some command →
     lastApplied node < k <= lastApplied node' →
     successReply (sender command) ∈ effects (updateStateMachine act node)).
Proof.
  intros H Hla Hci Hlen. unfold updateStateMachine in H |- *.
  assert (∃ mid,
    (if pidEquals (leader node) (Some (ctxPID act))
     then commitScan node (length (log node)) else ret node) = ret mid ∧
    (mid = node ∨
     (pidEquals (leader node) (Some (ctxPID act)) = true ∧
      ∃ j, commitIndex node < j <= len (log node) ∧ scanAccepts node j ∧
           (∀ j', j < j' <= len (log node) → ¬ scanAccepts node j') ∧
           mid = set_commitIndex j node))) as (mid & Hscan & Hmid).
  { destruct (pidEquals (leader node) (Some (ctxPID act))) eqn:Hl.
    - destruct (commitScan_spec node (length (log node))) as (mid & Hs & Hc);
        [lia | lia |].
      exists mid. split; [done|].
      destruct Hc as [(j & ? & ? & ? & ->) | [_ ->]]; [right | by left].
      split; [done|]. by exists j.
    - exists node. split; [done | by left]. }
  rewrite Hscan in H |- *. rewrite bind_ret_l in H |- *.
  assert (Hfields : config mid = config node ∧ leader mid = leader node ∧
    currentTerm mid = currentTerm node ∧ votedFor mid = votedFor node ∧
    log mid = log node ∧ lastApplied mid = lastApplied node ∧
    votes mid = votes node ∧ nodes mid = nodes node ∧
    pendingCommands mid = pendingCommands node).
  { destruct Hmid as [-> | (_ & j & _ & _ & _ & ->)]; done. }
  destruct Hfields as (Hf1 & Hf2 & Hf3 & Hf4 & Hf5 & Hf6 & Hf7 & Hf8 & Hf9).
  rewrite Hf6, Hf5 in H |- *.
  pose proof (len_drop (log node) (lastApplied node) ltac:(lia)) as Hdrop.
  apply applyLoop_spec in H as (Hsame & Hla' & Hcnt & Hpc & Hrep);
    [| lia | rewrite Hf6; lia].
  destruct Hsame as (S1 & S2 & S3 & S4 & S5 & S6 & S7 & S8).
  rewrite Hf6, Hf9 in *.
  repeat split; try congruence.
  - destruct Hmid as [-> | (Hl & j & Hj & Hacc & Hmaxj & ->)]; [by left|].
    right. rewrite S6. simpl. split; [done|]. split; [lia|]. by split.
  - lia.
  - done.
  - done.
Qed.

Lemma updateStateMachine_effects act node :
  Forall isApplyEffect (effects (updateStateMachine act node)).
Proof.
  unfold updateStateMachine.
  set (scan := if pidEquals _ _ then _ else _).
  assert (Hs : effects scan = []).
  { subst scan. case_match; [apply commitScan_effects | done]. }
  unfold mbind, M_bind, bind. destruct (result scan); simpl; rewrite Hs.
  - apply applyLoop_effects.
  - constructor.
Qed.

(** ** What each handler changes *)

Ltac split_Done H :=
  repeat (first
    [ progress inv_Done
    | match type of H with
      | result (if ?c then _ else _) = Done _ => destruct c eqn:?
      | result (match ?x with _ => _ end) = Done _ => destruct x eqn:?
      end ]).

Lemma handleCommand_spec act msg node node' :
  result (handleCommand act msg node) = Done node' →
  (pidEquals (leader node) (Some (ctxPID act)) = false ∧ node' = node)
  ∨ (pidEquals (leader node) (Some (ctxPID act)) = true ∧
     node' = set_pendingCommands
               (<[len (log node) + 1 := mkCommandMetadata (ctxSender act)]>
                  (pendingCommands node))
               (set_log (log node ++ [LogEntry.mk (Command.Command msg) (currentTerm node)])
                  node)).
Proof.
  unfold handleCommand. intros H.
  destruct (pidEquals (leader node) (Some (ctxPID act))) eqn:E.
  - right. split; [done|]. inv_Done. subst. simpl. by rewrite len_app.
  - left. inv_Done. by subst.
Qed.

Lemma handleAppendEntriesResult_spec act msg node node' :
  result (handleAppendEntriesResult act msg node) = Done node' →
  ∃ tbl, node' = set_nodes tbl node.
Proof.
  unfold handleAppendEntriesResult. intros H.
  destruct (nodes node !! _) as [metadata|] eqn:E.
  - destruct (AppendEntriesResult.Success msg); inv_Done; subst; eauto.
  - inv_Done. rewrite <- H. exists (nodes node). by destruct node.
Qed.

Lemma handleRequestVoteBody_spec act msg node node' granted :
  result (handleRequestVoteBody act msg node) = Done (node', granted) →
  (granted = false ∧ node' = node)
  ∨ (granted = true ∧
     node' = set_votedFor (Some (RequestVote.CandidatePID msg)) node).
Proof.
  unfold handleRequestVoteBody. intros H.
  split_Done H; simplify_eq; auto.
Qed.

Lemma handleRequestVote_spec act msg node node' :
  result (handleRequestVote act msg node) = Done node' →
  node' = node ∨ node' = set_votedFor (Some (RequestVote.CandidatePID msg)) node.
Proof.
  unfold handleRequestVote. intros H.
  apply result_bind_Done in H as ([mid g] & Hb & H).
  rewrite result_defer in Hb. injection H as <-.
  apply handleRequestVoteBody_spec in Hb as [[_ ->] | [_ ->]]; auto.
Qed.

Lemma handleRequestVoteResult_spec act msg node node' :
  result (handleRequestVoteResult act msg node) = Done node' →
  node' = node
  ∨ node' = set_votes (wrap64 (votes node + 1)) node
  ∨ node' = set_nodes (resetCursor (len (log node)) <$> nodes node)
              (set_leader (Some (ctxPID act))
                 (set_votes (wrap64 (votes node + 1)) node)).
Proof.
  unfold handleRequestVoteResult. intros H.
  split_Done H; simplify_eq; auto.
Qed.

Lemma startElection_spec act node :
  result (startElection act node)
  = Done (set_votedFor (Some (ctxPID act))
            (set_votes 1 (set_currentTerm (wrap64 (currentTerm node + 1)) node))).
Proof. unfold startElection. by case_match. Qed.

Lemma handleCheckTimers_spec act node node' :
  result (handleCheckTimers act node) = Done node' →
  node' = node
  ∨ (ctxReady act = Some ElectionTimer ∧
     node' = set_votedFor (Some (ctxPID act))
               (set_votes 1 (set_currentTerm (wrap64 (currentTerm node + 1)) node))).
Proof.
  unfold handleCheckTimers. intros H.
  apply result_bind_Done in H as (mid & Hmid & H). inv_Done. subst mid.
  destruct (ctxReady act) as [[]|] eqn:E.
  - apply result_bind_Done in Hmid as (? & _ & Hmid).
    destruct (negb _); [|inv_Done; auto].
    rewrite startElection_spec in Hmid. injection Hmid as <-. auto.
  - split_Done Hmid; simplify_eq; auto.
  - inv_Done. auto.
Qed.

(** ** [handleAppendEntries]: the loop over the entries *)

(** One iteration at 0-based position [n] (1-based index [n + 1]) of a log
    that reaches position [n]: unless the log is already of maximal length,
    the iteration leaves a log [lg2] that holds an entry of the message's
    term at position [n] and agrees with [lg] below [n]; when [lg] already
    holds such an entry, nothing changes. *)
Lemma appendEntriesLoop_step lg (n : nat) entry rest :
  (n ≤ length lg)%nat → len lg <= maxInt →
  (len lg = maxInt ∧ n = length lg ∧
   result (appendEntriesLoop lg (Z.of_nat n) (entry :: rest)) = Panic)
  ∨ ∃ lg2,
      appendEntriesLoop lg (Z.of_nat n) (entry :: rest)
      = appendEntriesLoop lg2 (Z.of_nat (S n)) rest ∧
      (S n ≤ length lg2)%nat ∧ len lg2 <= maxInt ∧
      take n lg2 = take n lg ∧
      (∃ e', lg2 !! n = Some e' ∧ LogEntry.Term e' = LogEntry.Term entry) ∧
      ((∃ e', lg !! n = Some e' ∧ LogEntry.Term e' = LogEntry.Term entry) → lg2 = lg).
Proof.
  intros Hn Hlen. cbn [appendEntriesLoop].
  pose proof maxInt_lt_maxUint64 as Hmax.
  assert (Hlen' : Z.of_nat (length lg) <= maxInt) by exact Hlen.
  rewrite (wrap64_small (Z.of_nat n + 1)) by lia.
  replace (Z.of_nat n + 1 - 1) with (Z.of_nat n) by lia.
  rewrite (wrap64_small (Z.of_nat n)) by lia.
  replace (Z.of_nat n + 1) with (Z.of_nat (S n)) by lia.
  rewrite Nat2Z.id.
  destruct (decide (Z.of_nat (S n) <= maxInt)) as [Hsmall | Hbig].
  - right. rewrite int_of_uint64_small by done.
    destruct (len lg >=? Z.of_nat (S n)) eqn:Hge.
    + apply Z.geb_le in Hge. unfold len in Hge.
      destruct (index_in_range lg (Z.of_nat n)) as (e & -> & Hl);
        [unfold len; lia|].
      rewrite Nat2Z.id in Hl. rewrite bind_ret_l.
      destruct (LogEntry.Term e =? LogEntry.Term entry) eqn:Ht; cbn [negb].
      * rewrite bind_ret_l.
        destruct (len lg <? Z.of_nat (S n)) eqn:Hlt;
          [apply Z.ltb_lt in Hlt; unfold len in Hlt; lia|].
        exists lg. split; [done|]. split; [lia|]. split; [done|]. split; [done|].
        split; [|done]. exists e. split; [done|]. by apply Z.eqb_eq.
      * rewrite bind_ret_l.
        assert (Hlt : (len (take n lg) <? Z.of_nat (S n)) = true).
        { apply Z.ltb_lt. unfold len. rewrite length_take. lia. }
        rewrite Hlt. exists (take n lg ++ [entry]).
        split; [done|].
        split; [rewrite length_app, length_take; simpl; lia|].
        split; [unfold len; rewrite length_app, length_take; simpl; lia|].
        split.
        { rewrite take_app_le by (rewrite length_take; lia).
          rewrite take_take. f_equal. lia. }
        split.
        { exists entry. split; [|done].
          rewrite lookup_app_r by (rewrite length_take; lia).
          rewrite length_take. by replace (n - n `min` length lg)%nat with 0%nat by lia. }
        intros (e' & He' & Hte'). rewrite Hl in He'. injection He' as <-.
        apply Z.eqb_neq in Ht. done.
    + rewrite Z.geb_leb in Hge. apply Z.leb_gt in Hge. unfold len in Hge.
      rewrite bind_ret_l.
      assert (Hlt : (len lg <? Z.of_nat (S n)) = true)
        by (apply Z.ltb_lt; unfold len; lia).
      rewrite Hlt. exists (lg ++ [entry]).
      assert (Heq : n = length lg) by lia.
      split; [done|].
      split; [rewrite length_app; simpl; lia|].
      split; [unfold len; rewrite length_app; simpl; lia|].
      split; [rewrite take_app_le by lia; done|].
      split.
      { exists entry. split; [|done].
        rewrite lookup_app_r by lia. by replace (n - length lg)%nat with 0%nat by lia. }
      intros (e' & He' & _). apply lookup_lt_Some in He'. lia.
  - left. assert (Heq : n = length lg) by lia.
    split; [unfold len; lia|]. split; [done|].
    rewrite <- Heq in Hlen'.
    assert (Hneg : int_of_uint64 (Z.of_nat (S n)) < 0)
      by (apply int_of_uint64_large; lia).
    assert (Hge : (len lg >=? int_of_uint64 (Z.of_nat (S n))) = true)
      by (apply Z.geb_le; pose proof (len_nonneg lg); lia).
    rewrite Hge, index_out_of_range by (unfold len; lia).
    done.
Qed.

Lemma appendEntriesLoop_spec entries lg (n : nat) lg' nei' :
  result (appendEntriesLoop lg (Z.of_nat n) entries) = Done (lg', nei') →
  (n ≤ length lg)%nat → len lg <= maxInt →
  nei' = Z.of_nat (n + length entries) ∧
  (n + length entries ≤ length lg')%nat ∧ len lg' <= maxInt ∧
  agreeBelow (n + length entries) n entries lg' ∧
  (∀ c, (c ≤ length lg)%nat → agreeBelow c n entries lg →
        (c ≤ length lg')%nat ∧ take c lg' = take c lg).
Proof.
  revert lg n. induction entries as [|entry rest IH]; intros lg n H Hn Hlen.
  - simpl in H. injection H as <- <-.
    rewrite Nat.add_0_r. repeat split; try done.
  - destruct (appendEntriesLoop_step lg n entry rest Hn Hlen)
      as [(_ & _ & HP) | (lg2 & Heq & Hn2 & Hlen2 & Htake & (e2 & He2 & Hte2) & Hsame)];
      [congruence|].
    rewrite Heq in H.
    apply IH in H as (Hnei & Hlen' & Hmax' & Hagree & Hkeep); [|done..].
    assert (Hpre : take (S n) lg' = take (S n) lg2).
    { apply Hkeep; [done|]. intros k e _ ?. lia. }
    rewrite length_cons.
    split; [rewrite Hnei; f_equal; lia|].
    split; [lia|]. split; [done|]. split.
    + intros [|k] e Hk Hlt; simpl in Hk.
      * injection Hk as <-. exists e2. split; [|done].
        rewrite Nat.add_0_r.
        rewrite <- (lookup_take_lt lg' (S n) n) by lia.
        rewrite Hpre. rewrite lookup_take_lt by lia. done.
      * replace (n + S k)%nat with (S n + k)%nat by lia.
        apply Hagree; [done | lia].
    + intros c Hc Hag.
      destruct (decide (n < c)%nat) as [Hlt | Hge].
      * assert (lg2 = lg) as ->.
        { apply Hsame. destruct (Hag 0%nat entry) as (e' & He' & Hte');
            [done | lia |]. rewrite Nat.add_0_r in He'. eauto. }
        apply Hkeep; [done|].
        intros k e Hk Hk'. replace (S n + k)%nat with (n + S k)%nat by lia.
        apply Hag; [done | lia].
      * split; [lia|].
        assert (Hc' : take c lg' = take c (take (S n) lg'))
          by (rewrite take_take; f_equal; lia).
        rewrite Hc', Hpre, take_take.
        replace (c `min` S n)%nat with (c `min` n)%nat by lia.
        rewrite <- take_take, Htake, take_take. f_equal. lia.
Qed.

(** When the log already holds, in term, all the entries of the message,
    the loop changes nothing. *)
Lemma appendEntriesLoop_fixed entries lg (n : nat) :
  len lg <= maxInt →
  agreeBelow (n + length entries) n entries lg →
  appendEntriesLoop lg (Z.of_nat n) entries = ret (lg, Z.of_nat (n + length entries)).
Proof.
  revert n. induction entries as [|entry rest IH]; intros n Hlen Hag.
  - simpl. by rewrite Nat.add_0_r.
  - rewrite length_cons in Hag |- *.
    destruct (Hag 0%nat entry) as (e' & He' & Hte'); [done | lia |].
    rewrite Nat.add_0_r in He'.
    pose proof (lookup_lt_Some _ _ _ He') as Hn.
    destruct (appendEntriesLoop_step lg n entry rest ltac:(lia) Hlen)
      as [(_ & ? & _) | (lg2 & Heq & _ & _ & _ & _ & Hsame)]; [lia|].
    rewrite Heq, Hsame by eauto.
    rewrite IH; [by replace (S n + length rest)%nat with (n + S (length rest))%nat by lia
                | done |].
    intros k e Hk Hk'. replace (S n + k)%nat with (n + S k)%nat by lia.
    apply Hag; [done | lia].
Qed.

(** From a position beyond the end of an empty log the loop panics on the
    first entry. *)
Lemma appendEntriesLoop_beyond nei entry rest :
  maxInt < nei <= maxUint64 →
  result (appendEntriesLoop [] nei (entry :: rest)) = Panic.
Proof.
  intros Hnei. cbn [appendEntriesLoop].
  set (nei1 := wrap64 (nei + 1)).
  assert (Hcase : nei1 = 0 ∨ maxInt < nei1 <= maxUint64).
  { subst nei1. destruct (decide (nei = maxUint64)) as [-> | Hne].
    - left. reflexivity.
    - right. rewrite wrap64_small; unfold maxInt, maxUint64 in *; lia. }
  assert (Hge : (len [] >=? int_of_uint64 nei1) = true).
  { apply Z.geb_le. rewrite len_nil. destruct Hcase as [-> | Hc]; [done|].
    pose proof (int_of_uint64_large nei1). lia. }
  rewrite Hge, index_out_of_range; [done|].
  rewrite len_nil. apply wrap64_range.
Qed.

(** ** [handleAppendEntries] *)

Lemma prevLogMismatch_effects node msg : effects (prevLogMismatch node msg) = [].
Proof.
  unfold prevLogMismatch. repeat case_match; try done.
  unfold mbind, M_bind, bind, index.
  by destruct (log node !! _).
Qed.

(** When Condition #2 lets the message pass, either the log reaches
    [prevLogIndex] and holds [prevLogTerm] there, or the log is empty and
    [int(prevLogIndex)] is negative. *)
Lemma prevLogMismatch_false node msg :
  result (prevLogMismatch node msg) = Done false →
  0 <= AppendEntries.PrevLogIndex msg <= maxUint64 →
  len (log node) <= maxInt →
  (AppendEntries.PrevLogIndex msg <= len (log node) ∧
   (0 < AppendEntries.PrevLogIndex msg →
    ∃ e, log node !! Z.to_nat (AppendEntries.PrevLogIndex msg - 1) = Some e ∧
         LogEntry.Term e = AppendEntries.PrevLogTerm msg))
  ∨ (maxInt < AppendEntries.PrevLogIndex msg ∧ log node = []).
Proof.
  unfold prevLogMismatch. intros H Hp Hlen.
  pose proof maxInt_lt_maxUint64 as Hmax.
  destruct (AppendEntries.PrevLogIndex msg >? 0) eqn:Hpos;
    [| left; split; [pose proof (len_nonneg (log node)); zlia | zlia]].
  destruct (len (log node) <? int_of_uint64 _) eqn:Hlt; [done|].
  destruct (decide (AppendEntries.PrevLogIndex msg <= maxInt)) as [Hs | Hb].
  - rewrite int_of_uint64_small in Hlt by done. left. split; [zlia|]. intros _.
    destruct (len (log node) >? 0) eqn:Hne; [|exfalso; zlia].
    rewrite wrap64_small in H by zlia.
    apply result_bind_Done in H as (e & He & H).
    apply index_Done in He. injection H as H. exists e. split; [done|].
    apply negb_false_iff in H. zlia.
  - right. split; [lia|].
    destruct (len (log node) >? 0) eqn:Hne.
    + rewrite wrap64_small in H by zlia.
      rewrite index_out_of_range in H by (unfold maxInt in *; zlia). done.
    + destruct (log node); [done|]. rewrite len_cons in Hne.
      pose proof (len_nonneg l). zlia.
Qed.

Lemma handleAppendEntriesBody_cases act msg node node' ok :
  result (handleAppendEntriesBody act msg node) = Done (node', ok) →
  (ok = false ∧
   (node' = node ∨ node' = set_leader (Some (AppendEntries.LeaderPID msg)) node))
  ∨ (ok = true ∧ currentTerm node <= AppendEntries.Term msg ∧
     result (prevLogMismatch node msg) = Done false ∧
     ∃ lg nei,
       result (appendEntriesLoop (log node) (AppendEntries.PrevLogIndex msg)
                 (AppendEntries.Entries msg)) = Done (lg, nei) ∧
       node' = acceptEntries msg lg nei node).
Proof.
  unfold handleAppendEntriesBody. intros H.
  destruct (AppendEntries.Term msg <? currentTerm node) eqn:Ht.
  { injection H as <- <-. auto. }
  apply result_bind_Done in H as (mismatch & Hm & H).
  destruct mismatch.
  { injection H as <- <-. auto. }
  apply result_bind_Done in H as ([lg nei] & Hloop & H).
  right. split_Done H; simplify_eq.
  all: split; [done|]; split; [zlia|]; split; [done|].
  all: exists lg, nei; split; [done|].
  all: unfold acceptEntries; cbn [commitIndex set_log set_leader]; simpl in *.
  all: done.
Qed.

Lemma handleAppendEntries_Done act msg node node' :
  result (handleAppendEntries act msg node) = Done node' ↔
  ∃ ok, result (handleAppendEntriesBody act msg node) = Done (node', ok).
Proof.
  unfold handleAppendEntries. rewrite result_bind_Done. split.
  - intros ([mid ok] & Hb & [= <-]). rewrite result_defer in Hb. eauto.
  - intros (ok & Hb). exists (node', ok). by rewrite result_defer.
Qed.

(** What an accepted message does to the log, under the representation
    bounds: the loop runs from [prevLogIndex] within the log, or the message
    is a heartbeat on an empty log. *)
Lemma accepted_loop node msg lg nei :
  result (prevLogMismatch node msg) = Done false →
  result (appendEntriesLoop (log node) (AppendEntries.PrevLogIndex msg)
            (AppendEntries.Entries msg)) = Done (lg, nei) →
  0 <= AppendEntries.PrevLogIndex msg <= maxUint64 →
  len (log node) <= maxInt →
  (∃ n : nat, AppendEntries.PrevLogIndex msg = Z.of_nat n ∧ (n ≤ length (log node))%nat)
  ∨ (AppendEntries.Entries msg = [] ∧ lg = log node ∧ log node = [] ∧
     nei = AppendEntries.PrevLogIndex msg).
Proof.
  intros Hm Hloop Hp Hlen.
  destruct (prevLogMismatch_false _ _ Hm Hp Hlen) as [[Hle _] | [Hbig Hnil]].
  - left. exists (Z.to_nat (AppendEntries.PrevLogIndex msg)).
    unfold len in Hle. split; lia.
  - right. rewrite Hnil in Hloop.
    destruct (AppendEntries.Entries msg) as [|entry rest].
    + simpl in Hloop. injection Hloop as <- <-. by rewrite Hnil.
    + rewrite appendEntriesLoop_beyond in Hloop by lia. done.
Qed.

Lemma appendEntriesLoop_effects entries lg nei :
  effects (appendEntriesLoop lg nei entries) = [].
Proof.
  revert lg nei. induction entries as [|entry rest IH]; intros lg nei; [done|].
  cbn [appendEntriesLoop]. unfold mbind, M_bind, bind, index.
  repeat (case_match; simpl; try done); by rewrite IH.
Qed.

Lemma handleAppendEntriesBody_effects act msg node :
  effects (handleAppendEntriesBody act msg node)
  = if successOf (result (handleAppendEntriesBody act msg node))
    then [TimerStop ElectionTimer; TimerReset ElectionTimer] else [].
Proof.
  unfold handleAppendEntriesBody.
  destruct (AppendEntries.Term msg <? currentTerm node); [done|].
  set (node1 := set_leader _ node).
  pose proof (prevLogMismatch_effects node1 msg) as Hm.
  unfold mbind, M_bind, bind.
  destruct (result (prevLogMismatch node1 msg)) as [[]|]; simpl; rewrite Hm; [done| |done].
  rewrite appendEntriesLoop_effects.
  by destruct (result (appendEntriesLoop _ _ _)) as [[lg nei]|].
Qed.

Lemma prevLogMismatch_total node msg :
  AppendEntries.PrevLogIndex msg <= len (log node) ∨ log node = [] →
  0 <= AppendEntries.PrevLogIndex msg <= maxUint64 →
  len (log node) <= maxInt →
  ∃ b, prevLogMismatch node msg = ret b.
Proof.
  intros Hcase Hp Hlen. unfold prevLogMismatch.
  destruct (AppendEntries.PrevLogIndex msg >? 0) eqn:Hpos; [|eauto].
  destruct (len (log node) <? int_of_uint64 _) eqn:Hlt; [eauto|].
  destruct (len (log node) >? 0) eqn:Hne; [|eauto].
  destruct Hcase as [Hle | Hnil]; [|rewrite Hnil, len_nil in Hne; done].
  rewrite wrap64_small by zlia.
  destruct (index_in_range (log node) (AppendEntries.PrevLogIndex msg - 1))
    as (e & -> & _); [zlia|].
  rewrite bind_ret_l. eauto.
Qed.

(** ** Frame of the advance step, without bounds *)

Lemma commitScan_frame node i node' :
  result (commitScan node i) = Done node' →
  node' = node ∨ ∃ j, node' = set_commitIndex j node.
Proof.
  induction i as [|j IH]; cbn [commitScan]; intros H.
  - split_Done H; simplify_eq; auto.
  - destruct (Z.of_nat (S j) >=? _); [|inv_Done; auto].
    apply result_bind_Done in H as (e & _ & H).
    destruct (_ && _); [inv_Done; eauto | auto].
Qed.

Lemma applyLoop_frame rest node node' :
  result (applyLoop rest node) = Done node' → sameButApplied node' node.
Proof.
  revert node. induction rest as [|entry rest IH]; intros node; cbn [applyLoop];
    intros H.
  - destruct (_ >? _); inv_Done. subst. apply sameButApplied_refl.
  - destruct (_ >? _); [|inv_Done; subst; apply sameButApplied_refl].
    apply result_bind_Done in H as (mid & Hmid & H).
    rewrite (proj1 (applyEntry_spec _ _)) in Hmid. injection Hmid as <-.
    apply IH in H. eapply sameButApplied_trans; [exact H|]. by repeat split.
Qed.

Lemma updateStateMachine_frame act node node' :
  result (updateStateMachine act node) = Done node' →
  config node' = config node ∧ leader node' = leader node ∧
  currentTerm node' = currentTerm node ∧ votedFor node' = votedFor node ∧
  log node' = log node ∧ votes node' = votes node ∧ nodes node' = nodes node.
Proof.
  unfold updateStateMachine. intros H.
  apply result_bind_Done in H as (mid & Hmid & H).
  apply applyLoop_frame in H as (S1 & S2 & S3 & S4 & S5 & S6 & S7 & S8).
  assert (Hc : mid = node ∨ ∃ j, mid = set_commitIndex j node).
  { destruct (pidEquals _ _); [by eapply commitScan_frame | inv_Done; auto]. }
  destruct Hc as [-> | [j ->]]; simpl in *; by repeat split.
Qed.

(** ** Replaying an accepted [AppendEntries] *)

Lemma accepted_holdsEntries act msg node node' :
  result (handleAppendEntriesBody act msg node) = Done (node', true) →
  0 <= AppendEntries.PrevLogIndex msg <= maxUint64 →
  len (log node) <= maxInt →
  holdsEntries msg (log node') ∧ len (log node') <= maxInt.
Proof.
  intros H Hp Hlen.
  apply handleAppendEntriesBody_cases in H as [[? _] | (_ & _ & Hm & lg & nei & Hloop & ->)];
    [done|].
  assert (Hlog : log (acceptEntries msg lg nei node) = lg).
  { unfold acceptEntries. by case_match. }
  rewrite Hlog.
  destruct (accepted_loop _ _ _ _ Hm Hloop Hp Hlen)
    as [(n & Hn & Hle) | (Hnil & -> & Hnil' & _)].
  - rewrite Hn in Hloop.
    apply appendEntriesLoop_spec in Hloop as (_ & Hlen' & Hmax & Hag & _); [|done..].
    split; [|done]. left. by exists n.
  - split; [by right | done].
Qed.

Lemma replay_keeps_log act msg node :
  holdsEntries msg (log node) →
  0 <= AppendEntries.PrevLogIndex msg <= maxUint64 →
  len (log node) <= maxInt →
  ∃ node' ok, result (handleAppendEntriesBody act msg node) = Done (node', ok) ∧
              log node' = log node.
Proof.
  intros Hholds Hp Hlen. unfold handleAppendEntriesBody.
  destruct (AppendEntries.Term msg <? currentTerm node); [by eauto|].
  set (node1 := set_leader (Some (AppendEntries.LeaderPID msg)) node).
  destruct (prevLogMismatch_total node1 msg) as (b & ->); [|done..|].
  { destruct Hholds as [(n & Hn & Hle & _) | [_ Hnil]]; [left | by right].
    subst node1. unfold len. simpl. lia. }
  rewrite bind_ret_l. destruct b; [by eauto|].
  assert (∃ nei, appendEntriesLoop (log node1) (AppendEntries.PrevLogIndex msg)
                   (AppendEntries.Entries msg) = ret (log node, nei)) as (nei & ->).
  { destruct Hholds as [(n & -> & Hle & Hag) | [-> Hnil]].
    - eexists. by apply appendEntriesLoop_fixed.
    - eexists. done. }
  rewrite bind_ret_l. cbn [fst snd].
  eexists _, true. split; [reflexivity|]. by case_match.
Qed.

Lemma handleAppendEntries_effects act msg node :
  let ok := successOf (result (handleAppendEntriesBody act msg node)) in
  effects (handleAppendEntries act msg node)
  = (if ok then [TimerStop ElectionTimer; TimerReset ElectionTimer] else [])
    ++ [Send (ctxSender act)
          (MsgAppendEntriesResult
             (AppendEntriesResult.mk (ctxPID act) (currentTerm node) ok))].
Proof.
  intros ok. unfold handleAppendEntries, mbind, M_bind, bind.
  rewrite result_defer. unfold defer. cbn [effects].
  rewrite handleAppendEntriesBody_effects. fold ok.
  destruct (result (handleAppendEntriesBody act msg node)); simpl;
    by rewrite ?app_nil_r.
Qed.

Lemma Receive_Done act msg node node' :
  result (Receive act msg node) = Done node' ↔
  ∃ mid, result (dispatch act msg node) = Done mid ∧
         result (updateStateMachine act mid) = Done node'.
Proof. unfold Receive. apply result_bind_Done. Qed.

Lemma Receive_effects act msg node mid :
  result (dispatch act msg node) = Done mid →
  effects (Receive act msg node)
  = effects (dispatch act msg node) ++ effects (updateStateMachine act mid).
Proof. intros H. unfold Receive. by apply effects_bind_Done. Qed.

Lemma not_apply_effect_in_advance act node e :
  ¬ isApplyEffect e → e ∉ effects (updateStateMachine act node).
Proof.
  intros Hne Hin.
  pose proof (updateStateMachine_effects act node) as Hall.
  rewrite Forall_forall in Hall. by apply Hne, Hall.
Qed.

(** An [AppendEntries] whose handling sent a reply with [Success = true] was
    accepted by the handler body. *)
Lemma success_reply_accepted act msg node mid p t :
  result (dispatch act (MsgAppendEntries msg) node) = Done mid →
  Send (ctxSender act) (MsgAppendEntriesResult (AppendEntriesResult.mk p t true))
    ∈ effects (Receive act (MsgAppendEntries msg) node) →
  result (handleAppendEntriesBody act msg
            (handleExternalTerm (AppendEntries.Term msg) node)) = Done (mid, true).
Proof.
  intros Hd Hin. rewrite (Receive_effects _ _ _ _ Hd) in Hin.
  apply elem_of_app in Hin as [Hin | Hin];
    [| exfalso; revert Hin; apply not_apply_effect_in_advance; intros []].
  cbn [dispatch] in Hd, Hin.
  apply handleAppendEntries_Done in Hd as (ok & Hb).
  rewrite handleAppendEntries_effects, Hb in Hin. cbn [successOf] in Hin.
  apply elem_of_app in Hin as [Hin | Hin].
  - destruct ok; set_solver.
  - apply list_elem_of_singleton in Hin. by injection Hin as _ _ <-.
Qed.

(** * The claims *)

(** C6. Handling an [AppendEntries] is idempotent on the log.  When a node
    handles a message and replies [Success = true], then handling, in the
    resulting state, any message with the same [prevLogIndex] and [entries]
    (its [prevLogTerm] and the other fields are free) completes the handler
    and leaves the log as it is, also after the advance step. *)
Theorem AppendEntries_replay_keeps_log act1 act2 m1 m2 node node1 :
  result (Receive act1 (MsgAppendEntries m1) node) = Done node1 →
  (∃ p t,
     Send (ctxSender act1) (MsgAppendEntriesResult (AppendEntriesResult.mk p t true))
       ∈ effects (Receive act1 (MsgAppendEntries m1) node)) →
  0 <= AppendEntries.PrevLogIndex m1 <= maxUint64 →
  len (log node) <= maxInt →
  AppendEntries.PrevLogIndex m2 = AppendEntries.PrevLogIndex m1 →
  AppendEntries.Entries m2 = AppendEntries.Entries m1 →
  (∃ mid, result (dispatch act2 (MsgAppendEntries m2) node1) = Done mid ∧
          log mid = log node1)
  ∧ (∀ node2, result (Receive act2 (MsgAppendEntries m2) node1) = Done node2 →
              log node2 = log node1).
Proof.
  intros H (p & t & Hin) Hp Hlen Hprev Hentries.
  apply Receive_Done in H as (mid1 & Hd1 & Hu1).
  pose proof (success_reply_accepted _ _ _ _ _ _ Hd1 Hin) as Hb.
  apply accepted_holdsEntries in Hb as [Hholds Hlen1]; [| done |];
    [| by rewrite (proj1 (proj2 (handleExternalTerm_frame _ _)))].
  apply updateStateMachine_frame in Hu1 as (_ & _ & _ & _ & Hlog1 & _).
  rewrite <- Hlog1 in Hholds, Hlen1.
  assert (Hholds2 : holdsEntries m2
            (log (handleExternalTerm (AppendEntries.Term m2) node1))).
  { rewrite (proj1 (proj2 (handleExternalTerm_frame _ _))).
    unfold holdsEntries. by rewrite Hprev, Hentries. }
  destruct (replay_keeps_log act2 m2 _ Hholds2) as (mid2 & ok & Hb2 & Hlog2).
  { by rewrite Hprev. }
  { by rewrite (proj1 (proj2 (handleExternalTerm_frame _ _))). }
  rewrite (proj1 (proj2 (handleExternalTerm_frame _ _))) in Hlog2.
  assert (Hd2 : result (dispatch act2 (MsgAppendEntries m2) node1) = Done mid2).
  { cbn [dispatch]. apply handleAppendEntries_Done. eauto. }
  split; [by exists mid2|].
  intros node2 H2. apply Receive_Done in H2 as (mid2' & Hd2' & Hu2).
  rewrite Hd2 in Hd2'. injection Hd2' as <-.
  apply updateStateMachine_frame in Hu2 as (_ & _ & _ & _ & Hlog & _).
  congruence.
Qed.

(** B accepts the overwriting message; handling it a second time leaves the
    log [[entry 2]] in place. *)
Lemma AppendEntries_replay_keeps_log_witness :
  ∃ mid,
    result (dispatch Scenario.actB (MsgAppendEntries Scenario.overwrite)
              (set_currentTerm 2 (set_leader (Some "C"%string)
                 (set_log [Scenario.entry 2] (Scenario.followerB 2))))) = Done mid ∧
    log mid = [Scenario.entry 2].
Proof.
  refine (proj1 (AppendEntries_replay_keeps_log Scenario.actB Scenario.actB
    Scenario.overwrite Scenario.overwrite (Scenario.followerB 2) _ _ _ _ _ _ _)).
  - vm_compute. reflexivity.
  - exists "B"%string, 2. vm_compute. apply list_elem_of_In. simpl. auto.
  - closed_Z.
  - closed_Z.
  - reflexivity.
  - reflexivity.
Defined.

(** ** What [dispatch] changes *)

Lemma acceptEntries_fields msg lg nei node :
  let node' := acceptEntries msg lg nei node in
  config node' = config node ∧ currentTerm node' = currentTerm node ∧
  votedFor node' = votedFor node ∧ log node' = lg ∧
  lastApplied node' = lastApplied node ∧ votes node' = votes node ∧
  nodes node' = nodes node ∧ pendingCommands node' = pendingCommands node ∧
  commitIndex node' =
    (if AppendEntries.LeaderCommit msg >? commitIndex node
     then Z.min (AppendEntries.LeaderCommit msg) nei else commitIndex node).
Proof. unfold acceptEntries. simpl. by case_match. Qed.

(** The fields no [AppendEntries] touches. *)
Lemma handleAppendEntries_frame act msg node node' :
  result (handleAppendEntries act msg node) = Done node' →
  config node' = config node ∧ currentTerm node' = currentTerm node ∧
  votedFor node' = votedFor node ∧ lastApplied node' = lastApplied node ∧
  votes node' = votes node ∧ nodes node' = nodes node ∧
  pendingCommands node' = pendingCommands node.
Proof.
  intros H. apply handleAppendEntries_Done in H as (ok & H).
  apply handleAppendEntriesBody_cases in H
    as [(_ & [-> | ->]) | (_ & _ & _ & lg & nei & _ & ->)]; try done.
  destruct (acceptEntries_fields msg lg nei node)
    as (? & ? & ? & ? & ? & ? & ? & ? & ?).
  done.
Qed.


Lemma dispatch_lastApplied act msg node node' :
  result (dispatch act msg node) = Done node' →
  lastApplied node' = lastApplied node ∧ config node' = config node.
Proof.
  intros H.
  pose proof (handleExternalTerm_frame) as Hext.
  destruct msg; cbn [dispatch] in *.
  1-6, 8: by inv_Done; subst.
  - by apply handleCommand_spec in H as [[_ ->] | [_ ->]].
  - apply handleAppendEntries_frame in H as (-> & _ & _ & -> & _).
    split; apply Hext.
  - apply handleAppendEntriesResult_spec in H as [tbl ->].
    split; apply Hext.
  - apply handleRequestVote_spec in H as [-> | ->]; split; apply Hext.
  - apply handleRequestVoteResult_spec in H as [-> | [-> | ->]]; split; apply Hext.
  - by apply handleCheckTimers_spec in H as [-> | [? ->]].
Qed.

(** Every message other than [Command] and [AppendEntries] leaves the log and
    [commitIndex] as they are; [Command] leaves [commitIndex] and extends
    the log. *)
Lemma dispatch_log_commitIndex act msg node node' :
  result (dispatch act msg node) = Done node' →
  (∀ m, msg ≠ MsgAppendEntries m) →
  commitIndex node' = commitIndex node ∧
  (log node' = log node ∨ ∃ e, log node' = log node ++ [e]).
Proof.
  intros H Hne.
  pose proof (handleExternalTerm_frame) as Hext.
  destruct msg; cbn [dispatch] in *.
  1-6, 8: by inv_Done; subst; auto.
  - apply handleCommand_spec in H as [[_ ->] | [_ ->]]; simpl; eauto.
  - by destruct (Hne m).
  - apply handleAppendEntriesResult_spec in H as [tbl ->].
    split; [apply Hext | left; apply Hext].
  - apply handleRequestVote_spec in H as [-> | ->];
      (split; [apply Hext | left; apply Hext]).
  - apply handleRequestVoteResult_spec in H as [-> | [-> | ->]];
      (split; [apply Hext | left; apply Hext]).
  - apply handleCheckTimers_spec in H as [-> | [? ->]]; auto.
Qed.

(** A peer message leaves [pendingCommands] as it is, whatever its term. *)
Lemma dispatch_pendingCommands act msg node node' T :
  result (dispatch act msg node) = Done node' →
  termOf msg = Some T →
  pendingCommands node' = pendingCommands node.
Proof.
  intros H HT.
  pose proof (handleExternalTerm_frame) as Hext.
  destruct msg; cbn [dispatch termOf] in *; try done.
  - apply handleAppendEntries_frame in H as (_ & _ & _ & _ & _ & _ & ->).
    apply Hext.
  - apply handleAppendEntriesResult_spec in H as [tbl ->]. apply Hext.
  - apply handleRequestVote_spec in H as [-> | ->]; apply Hext.
  - apply handleRequestVoteResult_spec in H as [-> | [-> | ->]]; apply Hext.
Qed.



(** C8 as stated fails.  B starts and grants its vote to A, whose
    [RequestVote] carries the term [2^64 - 1]; B's election timer then
    fires and [currentTerm++] takes B's term from [2^64 - 1] to 0. *)
Lemma currentTerm_wraps_counterexample :
  handleAll [(Scenario.actB, Initialized);
             (Scenario.actB, MsgRequestVote (RequestVote.mk maxUint64 "A"%string 0 0))]
            (newNode Scenario.cfg)
  = Done Scenario.lastTermB
  ∧ ¬ (∀ node',
         result (Receive (mkContext "B"%string None (Some ElectionTimer)) checkTimers
                   Scenario.lastTermB) = Done node' →
         currentTerm Scenario.lastTermB <= currentTerm node').
Proof.
  split; [vm_compute; reflexivity|].
  intros H.
  assert (Hrun : result (Receive (mkContext "B"%string None (Some ElectionTimer)) checkTimers
                           Scenario.lastTermB)
                 = Done (set_votedFor (Some "B"%string)
                           (set_votes 1 (set_currentTerm 0 Scenario.lastTermB))))
    by (vm_compute; reflexivity).
  specialize (H _ Hrun). vm_compute in H. by apply H.
Qed.

(** ** [handleRequestVote] *)

Lemma handleRequestVoteBody_effects act msg node :
  effects (handleRequestVoteBody act msg node) = [].
Proof.
  unfold handleRequestVoteBody, mbind, M_bind, bind, index.
  repeat (case_match; simpl; try done).
Qed.

Lemma handleRequestVoteBody_granted act msg node :
  0 <= lastApplied node <= maxUint64 →
  let r := result (handleRequestVoteBody act msg node) in
  (successOf r = true ↔ spec_voteGranted msg node) ∧
  (successOf r = true →
   r = Done (set_votedFor (Some (RequestVote.CandidatePID msg)) node, true)) ∧
  (successOf r = false → r = Done (node, false) ∨ r = Panic).
Proof.
  intros Hla r. subst r. unfold handleRequestVoteBody, spec_voteGranted.
  destruct (RequestVote.Term msg <? currentTerm node) eqn:Ht.
  { simpl. split; [|split; [done | first [done | by left | by right]]]. split; [done | intros (? & _); zlia]. }
  destruct (bool_decide (votedFor node = None)
            || bool_decide (PID_String <$> votedFor node
                            = Some (PID_String (RequestVote.CandidatePID msg)))) eqn:Hv;
    cycle 1.
  { simpl. split; [|split; [done | first [done | by left | by right]]]. split; [done|]. intros (_ & Hvoted & _).
    apply orb_false_iff in Hv as [Hv1 Hv2].
    apply bool_decide_eq_false in Hv1, Hv2.
    destruct Hvoted as [Hn | Hs]; [done|]. exfalso. apply Hv2. by rewrite Hs. }
  assert (Hvoted : votedFor node = None
                   ∨ votedFor node = Some (RequestVote.CandidatePID msg)).
  { apply orb_true_iff in Hv as [Hv | Hv]; apply bool_decide_eq_true in Hv; [by left|].
    right. destruct (votedFor node); [|done].
    injection Hv as Hv. unfold PID_String in Hv. by subst. }
  destruct (RequestVote.LastLogIndex msg >=? lastApplied node) eqn:Hidx; cycle 1.
  { rewrite bind_ret_l. simpl. split; [|split; [done | first [done | by left | by right]]].
    split; [done | intros (_ & _ & ? & _); zlia]. }
  destruct (lastApplied node =? 0) eqn:Hz.
  { rewrite bind_ret_l. simpl. split; [|split; [done | first [done | by left | by right]]].
    split; [intros _ | done]. repeat split; [zlia | done | zlia | left; zlia]. }
  rewrite wrap64_small by zlia. unfold index.
  destruct (log node !! Z.to_nat (lastApplied node - 1)) as [e|] eqn:He.
  - rewrite !bind_ret_l.
    destruct (RequestVote.LastLogTerm msg >=? LogEntry.Term e) eqn:Hterm; simpl.
    + split; [|split; [done | first [done | by left | by right]]]. split; [intros _ | done].
      repeat split; [zlia | done | zlia |]. right. exists e. split; [done | zlia].
    + split; [|split; [done | first [done | by left | by right]]]. split; [done|].
      intros (_ & _ & _ & [Hzero | (e' & [= <-] & Hge)]); zlia.
  - simpl. split; [|split; [done | first [done | by left | by right]]]. split; [done|].
    intros (_ & _ & _ & [Hzero | (e' & [=] & _)]). zlia.
Qed.

Lemma handleRequestVote_defer act msg node :
  let r := result (handleRequestVoteBody act msg node) in
  handleRequestVote act msg node
  = mkM (match r with Done x => Done x.1 | Panic => Panic end)
        [Send (ctxSender act)
           (MsgRequestVoteResult
              (RequestVoteResult.mk (currentTerm node) (successOf r)))].
Proof.
  intros r. unfold handleRequestVote, defer, mbind, M_bind, bind. cbn [result effects].
  rewrite handleRequestVoteBody_effects. fold r.
  destruct r as [[node' g]|]; by simpl.
Qed.

Lemma filter_isVoteReply_apply l :
  Forall isApplyEffect l → List.filter isVoteReply l = [].
Proof.
  induction 1 as [|e l He _ IH]; [done|]. simpl. rewrite IH.
  destruct e as [to m| | | | |]; try done. by destruct m.
Qed.

(** C9. RequestVote receiver.  With [node1] the state after the pre-dispatch
    term advance, the vote is granted exactly when [msg.term >= currentTerm],
    [votedFor] is unset or the candidate, [msg.lastLogIndex >= lastApplied]
    and ([lastApplied = 0] or [msg.lastLogTerm >= log[lastApplied-1].term]);
    on grant the handler returns [node1] with [votedFor] set to the
    candidate, otherwise it leaves [node1] alone (or panics on the index);
    and in every case the handling sends exactly one [RequestVoteResult],
    to the sender, carrying [node1]'s [currentTerm] and the decision. *)
Theorem RequestVote_receiver act msg node :
  0 <= lastApplied node <= maxUint64 →
  let node1 := handleExternalTerm (RequestVote.Term msg) node in
  ∃ granted : bool,
    (granted = true ↔ spec_voteGranted msg node1) ∧
    (granted = true →
     result (dispatch act (MsgRequestVote msg) node)
     = Done (set_votedFor (Some (RequestVote.CandidatePID msg)) node1)) ∧
    (granted = false →
     result (dispatch act (MsgRequestVote msg) node) = Done node1
     ∨ result (dispatch act (MsgRequestVote msg) node) = Panic) ∧
    effects (dispatch act (MsgRequestVote msg) node)
    = [Send (ctxSender act)
         (MsgRequestVoteResult (RequestVoteResult.mk (currentTerm node1) granted))] ∧
    List.filter isVoteReply (effects (Receive act (MsgRequestVote msg) node))
    = [Send (ctxSender act)
         (MsgRequestVoteResult (RequestVoteResult.mk (currentTerm node1) granted))].
Proof.
  intros Hla node1.
  assert (Hla1 : 0 <= lastApplied node1 <= maxUint64).
  { subst node1. by rewrite (proj1 (proj2 (proj2 (proj2 (handleExternalTerm_frame _ _))))). }
  destruct (handleRequestVoteBody_granted act msg node1 Hla1) as (Hiff & Hyes & Hno).
  pose proof (handleRequestVote_defer act msg node1) as Hdefer. cbn zeta in Hdefer.
  set (r := result (handleRequestVoteBody act msg node1)) in *.
  exists (successOf r). cbn [dispatch]. fold node1.
  assert (Heff : effects (handleRequestVote act msg node1)
                 = [Send (ctxSender act)
                      (MsgRequestVoteResult
                         (RequestVoteResult.mk (currentTerm node1) (successOf r)))])
    by (by rewrite Hdefer).
  split; [done|]. split; [|split; [|split; [done|]]].
  - intros Hg. rewrite Hdefer. cbn [result]. by rewrite (Hyes Hg).
  - intros Hg. rewrite Hdefer. cbn [result].
    destruct (Hno Hg) as [-> | ->]; auto.
  - unfold Receive, mbind, M_bind, bind. cbn [dispatch]. fold node1.
    destruct (result (handleRequestVote act msg node1)) as [mid|]; cbn [effects].
    + rewrite List.filter_app, Heff.
      rewrite (filter_isVoteReply_apply _ (updateStateMachine_effects act mid)).
      done.
    + by rewrite Heff.
Qed.

(** B, with five applied entries of term 1, grants its vote to C, whose
    last entry is entry 5 of term 1, in term 2. *)
Lemma RequestVote_receiver_witness :
  ∃ granted : bool,
    (granted = true ↔
     spec_voteGranted (RequestVote.mk 2 "C"%string 5 1)
       (handleExternalTerm 2 (Scenario.followerB 5))) ∧
    List.filter isVoteReply
      (effects (Receive Scenario.actB (MsgRequestVote (RequestVote.mk 2 "C"%string 5 1))
                  (Scenario.followerB 5)))
    = [Send (Some "A"%string)
         (MsgRequestVoteResult (RequestVoteResult.mk 2 granted))].
Proof.
  destruct (RequestVote_receiver Scenario.actB (RequestVote.mk 2 "C"%string 5 1)
              (Scenario.followerB 5)) as (granted & Hiff & _ & _ & _ & Hone).
  - closed_Z.
  - exists granted. split; [exact Hiff | exact Hone].
Defined.

(** ** [sendAppendEntries] *)

(** Only [act.PID()] is read from the context. *)
Lemma sendAppendEntries_sender act node p s r :
  sendAppendEntries (mkContext (ctxPID act) s r) node p = sendAppendEntries act node p.
Proof. done. Qed.

Lemma sendAppendEntriesEach_sender act node mds s r :
  sendAppendEntriesEach (mkContext (ctxPID act) s r) node mds
  = sendAppendEntriesEach act node mds.
Proof.
  induction mds as [|md mds IH]; [done|].
  cbn [sendAppendEntriesEach]. by rewrite IH, sendAppendEntries_sender.
Qed.

Lemma sendAppendEntries_Done act node p :
  cursorsInLog node → len (log node) <= maxInt →
  result (sendAppendEntries act node p) = Done tt.
Proof.
  intros Hc Hlen. unfold sendAppendEntries.
  pose proof maxInt_lt_maxUint64 as Hmax.
  destruct (nodes node !! PID_String p) as [md|] eqn:E; [|done].
  apply Hc in E.
  destruct (nextIndex md =? 0) eqn:Hz; [done|].
  rewrite wrap64_small by lia.
  destruct (nextIndex md - 1 >? 0) eqn:Hpos.
  - rewrite wrap64_small by zlia.
    destruct (index_in_range (log node) (nextIndex md - 1 - 1)) as (e & -> & _);
      [zlia|].
    by rewrite !bind_ret_l.
  - by rewrite bind_ret_l.
Qed.

Lemma sendAppendEntriesEach_Done act node mds :
  cursorsInLog node → len (log node) <= maxInt →
  result (sendAppendEntriesEach act node mds) = Done tt.
Proof.
  intros Hc Hlen. induction mds as [|md mds IH]; [done|].
  cbn [sendAppendEntriesEach].
  erewrite result_bind_Done_l; [exact IH|].
  by apply sendAppendEntries_Done.
Qed.

(** ** [handleRequestVoteResult] *)

Lemma promote_cursorsInLog act node :
  len (log node) <= maxInt → cursorsInLog (promote act node).
Proof.
  intros Hlen k md Hk. unfold promote in Hk. simpl in Hk.
  rewrite lookup_fmap in Hk.
  destruct (nodes node !! k) as [md0|]; [|done]. injection Hk as <-.
  simpl. pose proof maxInt_lt_maxUint64. pose proof (len_nonneg (log node)).
  rewrite wrap64_small; lia.
Qed.

Lemma handleRequestVoteResult_counted act msg node :
  RequestVoteResult.VoteGranted msg = true →
  RequestVoteResult.Term msg = currentTerm node →
  pidEquals (leader node) (Some (ctxPID act)) = false →
  len (log node) <= maxInt →
  result (handleRequestVoteResult act msg node)
  = Done (if votesOverHalf (wrap64 (votes node + 1)) (size (nodes node))
          then promote act node
          else set_votes (wrap64 (votes node + 1)) node).
Proof.
  intros Hg Ht Hl Hlen. unfold handleRequestVoteResult.
  rewrite Hg, Ht, Z.eqb_refl, Hl. cbn [andb negb votes set_votes nodes].
  destruct (votesOverHalf _ _); [|done].
  erewrite result_bind_Done_l; [done|].
  apply (sendAppendEntriesEach_Done act (promote act node)); [|done].
  by apply promote_cursorsInLog.
Qed.

Lemma handleRequestVoteResult_sender act msg node s r :
  handleRequestVoteResult (mkContext (ctxPID act) s r) msg node
  = handleRequestVoteResult act msg node.
Proof.
  unfold handleRequestVoteResult, sendAppendEntriesAll. cbn [ctxPID].
  repeat case_match; try done.
  by rewrite sendAppendEntriesEach_sender.
Qed.

(** C10. Vote tallying does not deduplicate voters.  A node that is not
    leader and handles a granted [RequestVoteResult] of its current term
    increments [votes] by one: the handler completes, promotes the node
    exactly when twice the new count exceeds the number of peers (counts
    below [2^24], where the [float32] quotient is exact), and the result
    does not depend on who sent the message.  In a five-node cluster
    two deliveries of B's grant make the candidate A leader, with grants
    from B alone. *)
Theorem vote_tally_counts_every_grant :
  (∀ act msg node,
     RequestVoteResult.VoteGranted msg = true →
     RequestVoteResult.Term msg = currentTerm node →
     pidEquals (leader node) (Some (ctxPID act)) = false →
     0 <= votes node < maxUint64 →
     len (log node) <= maxInt →
     (∃ mid,
        result (dispatch act (MsgRequestVoteResult msg) node) = Done mid ∧
        votes mid = votes node + 1 ∧
        (Z.of_nat (size (nodes node)) < 2 ^ 24 → votes node + 1 < 2 ^ 24 →
         (leader mid = Some (ctxPID act)
          ↔ Z.of_nat (size (nodes node)) < 2 * (votes node + 1)))) ∧
     (∀ node', result (Receive act (MsgRequestVoteResult msg) node) = Done node' →
               votes node' = votes node + 1) ∧
     (∀ s r, dispatch (mkContext (ctxPID act) s r) (MsgRequestVoteResult msg) node
             = dispatch act (MsgRequestVoteResult msg) node))
  ∧ (∃ node1 node2,
       result (Receive Scenario.actA (MsgRequestVoteResult Scenario.grant)
                 Scenario.candidateA5) = Done node1 ∧
       leader node1 = None ∧ votes node1 = 2 ∧
       result (Receive Scenario.actA (MsgRequestVoteResult Scenario.grant) node1)
       = Done node2 ∧
       leader node2 = Some "A"%string ∧ votes node2 = 3 ∧
       size (nodes node2) = 4%nat).
Proof.
  split.
  - intros act msg node Hg Ht Hl Hv Hlen.
    assert (Hkeep : handleExternalTerm (RequestVoteResult.Term msg) node = node)
      by (apply handleExternalTerm_keep; lia).
    assert (Hd : ∃ mid,
      result (dispatch act (MsgRequestVoteResult msg) node) = Done mid ∧
      votes mid = votes node + 1 ∧
      (Z.of_nat (size (nodes node)) < 2 ^ 24 → votes node + 1 < 2 ^ 24 →
       (leader mid = Some (ctxPID act)
        ↔ Z.of_nat (size (nodes node)) < 2 * (votes node + 1)))).
    { cbn [dispatch]. rewrite Hkeep.
      rewrite handleRequestVoteResult_counted by done.
      rewrite (wrap64_small (votes node + 1)) by lia.
      eexists. split; [done|].
      destruct (votesOverHalf (votes node + 1) (size (nodes node))) eqn:E.
      - unfold promote. simpl. rewrite wrap64_small by lia.
        split; [done|]. intros Hn Hv'. rewrite votesOverHalf_small in E by lia.
        split; [intros _; zlia | done].
      - simpl. split; [done|]. intros Hn Hv'. rewrite votesOverHalf_small in E by lia.
        split; [|intros; zlia].
        intros Hleader. rewrite Hleader in Hl. simpl in Hl.
        by rewrite bool_decide_eq_false in Hl. }
    split; [exact Hd|]. split.
    + intros node' H. apply Receive_Done in H as (mid & Hmid & Hu).
      destruct Hd as (mid' & Hmid' & Hvotes & _).
      rewrite Hmid in Hmid'. injection Hmid' as <-.
      apply updateStateMachine_frame in Hu as (_ & _ & _ & _ & _ & -> & _).
      done.
    + intros s r. cbn [dispatch]. apply handleRequestVoteResult_sender.
  - exists (set_votes 2 Scenario.candidateA5),
           (promote Scenario.actA (set_votes 2 Scenario.candidateA5)).
    repeat split; vm_compute; reflexivity.
Qed.

(** A, not yet leader, counts B's grant. *)
Lemma vote_tally_counts_every_grant_witness :
  ∃ mid,
    result (dispatch Scenario.actA (MsgRequestVoteResult Scenario.grant)
              Scenario.candidateA5) = Done mid ∧
    votes mid = votes Scenario.candidateA5 + 1.
Proof.
  destruct (proj1 (proj1 vote_tally_counts_every_grant
    Scenario.actA Scenario.grant Scenario.candidateA5 eq_refl eq_refl eq_refl
    ltac:(closed_Z) ltac:(closed_Z))) as (mid & Hmid & Hvotes & _).
  by exists mid.
Defined.

(** ** Leader-side commit advancement *)








(** ** [commitIndex], [lastApplied] and the log across a message *)

Lemma updateStateMachine_empty_log act node node' :
  result (updateStateMachine act node) = Done node' →
  log node = [] → 0 <= commitIndex node <= maxUint64 →
  node' = node ∧ commitIndex node <= lastApplied node.
Proof.
  unfold updateStateMachine. intros H Hnil Hci. rewrite Hnil in H.
  apply result_bind_Done in H as (mid & Hmid & H).
  assert (mid = node) as ->.
  { destruct (pidEquals _ _); [|by inv_Done].
    cbn [length commitScan] in Hmid.
    destruct (Z.of_nat 0 >=? _); by inv_Done. }
  rewrite Hnil, drop_nil in H. cbn [applyLoop] in H.
  destruct (commitIndex node >? lastApplied node) eqn:E; [done|].
  inv_Done. split; [done | zlia].
Qed.

Lemma handleAppendEntries_commit act m node mid :
  result (handleAppendEntries act m node) = Done mid →
  0 <= commitIndex node < maxUint64 →
  len (log node) <= maxInt →
  validMessage (MsgAppendEntries m) →
  commitNotLowered (MsgAppendEntries m) node →
  commitIndex node <= commitIndex mid <= maxUint64 ∧
  (commitIndex mid < maxUint64 ∨ log mid = []) ∧
  len (log mid) <= maxInt.
Proof.
  intros H Hci Hlen Hp Hnl. simpl in Hp, Hnl.
  pose proof maxInt_lt_maxUint64 as Hmax.
  apply handleAppendEntries_Done in H as (ok & H).
  apply handleAppendEntriesBody_cases in H
    as [(_ & [-> | ->]) | (_ & _ & Hm & lg & nei & Hloop & ->)];
    [simpl; lia | simpl; lia |].
  destruct (acceptEntries_fields m lg nei node)
    as (_ & _ & _ & -> & _ & _ & _ & _ & ->).
  destruct (accepted_loop _ _ _ _ Hm Hloop Hp Hlen)
    as [(n & Hn & Hle) | (Hnil & -> & Hnil' & ->)].
  - rewrite Hn in Hloop.
    apply appendEntriesLoop_spec in Hloop as (-> & Hlen' & Hmax' & _ & _); [|done..].
    destruct (AppendEntries.LeaderCommit m >? commitIndex node) eqn:E;
      (split; [unfold len in Hmax'; zlia|]);
      (split; [left; unfold len in Hmax'; zlia | done]).
  - rewrite Hnil in Hnl. simpl in Hnl.
    destruct (AppendEntries.LeaderCommit m >? commitIndex node) eqn:E;
      (split; [zlia|]); (split; [by right | by rewrite Hnil']).
Qed.


Lemma dispatch_commit act msg node mid :
  result (dispatch act msg node) = Done mid →
  0 <= commitIndex node < maxUint64 →
  len (log node) <= maxInt →
  validMessage msg → commitNotLowered msg node →
  commitIndex node <= commitIndex mid <= maxUint64 ∧
  (commitIndex mid < maxUint64 ∨ log mid = []) ∧
  len (log mid) <= maxUint64.
Proof.
  intros H Hci Hlen Hv Hnl.
  pose proof maxInt_lt_maxUint64 as Hmax.
  assert (Hother : (∀ m, msg ≠ MsgAppendEntries m) →
    commitIndex node <= commitIndex mid <= maxUint64 ∧
    (commitIndex mid < maxUint64 ∨ log mid = []) ∧ len (log mid) <= maxUint64).
  { intros Hne.
    destruct (dispatch_log_commitIndex _ _ _ _ H Hne) as [-> [-> | [e ->]]];
      (split; [lia|]); (split; [left; lia|]); [lia|].
    rewrite len_app. unfold maxInt, maxUint64 in *. lia. }
  destruct msg; try (apply Hother; intros ?; discriminate).
  cbn [dispatch] in H.
  destruct (handleExternalTerm_frame (AppendEntries.Term m) node)
    as (_ & Hlog & Hc & _).
  destruct (handleAppendEntries_commit _ _ _ _ H) as (H1 & H2 & H3).
  - by rewrite Hc.
  - by rewrite Hlog.
  - done.
  - simpl in Hnl |- *. by rewrite Hc.
  - rewrite Hc in H1. split; [done|]. split; [done | lia].
Qed.


Lemma updateStateMachine_commitIndex act node node' :
  result (updateStateMachine act node) = Done node' →
  0 <= commitIndex node < maxUint64 →
  commitIndex node <= commitIndex node'.
Proof.
  unfold updateStateMachine. intros H Hci.
  apply result_bind_Done in H as (mid & Hmid & H).
  apply applyLoop_frame in H as (_ & _ & _ & _ & _ & -> & _).
  destruct (pidEquals _ _); [|inv_Done; subst; lia].
  destruct (commitScan_spec node (length (log node))) as (mid' & Hs & Hc); [lia | done |].
  rewrite Hs in Hmid. injection Hmid as ->.
  destruct Hc as [(j & Hj & _ & _ & ->) | [_ ->]]; simpl; lia.
Qed.

(** C5, as the code has it.  Handling a message does not lower
    [commitIndex], provided that an [AppendEntries] whose [leaderCommit]
    exceeds [commitIndex] has its last entry at or beyond [commitIndex]
    ([commitNotLowered]); every other message, and the leader's own scan,
    never lower it.  The state's [commitIndex] is below the last [uint64]
    and its log has a representable length. *)
Theorem commitIndex_monotone_unless_clamped act msg node node' :
  0 <= commitIndex node < maxUint64 →
  len (log node) <= maxInt →
  validMessage msg →
  commitNotLowered msg node →
  result (Receive act msg node) = Done node' →
  commitIndex node <= commitIndex node'.
Proof.
  intros Hci Hlen Hv Hnl H.
  apply Receive_Done in H as (mid & Hd & Hu).
  destruct (dispatch_commit _ _ _ _ Hd Hci Hlen Hv Hnl) as (Hmid & Hcase & _).
  destruct (decide (commitIndex mid < maxUint64)) as [Hlt | Hge].
  - apply updateStateMachine_commitIndex in Hu; lia.
  - destruct Hcase as [? | Hnil]; [done|].
    apply updateStateMachine_empty_log in Hu as [-> _]; [lia | done | lia].
Qed.

(** B accepts the overwriting message, whose [leaderCommit] is 0:
    [commitIndex] stays at 2. *)
Lemma commitIndex_monotone_unless_clamped_witness :
  commitIndex (Scenario.followerB 2)
  <= commitIndex (set_currentTerm 2 (set_leader (Some "C"%string)
                    (set_log [Scenario.entry 2] (Scenario.followerB 2)))).
Proof.
  apply (commitIndex_monotone_unless_clamped Scenario.actB
           (MsgAppendEntries Scenario.overwrite)).
  - closed_Z.
  - closed_Z.
  - closed_Z.
  - left. closed_Z.
  - vm_compute. reflexivity.
Defined.

(** C5 as stated fails.  B starts, receives five entries of term 1 from the
    leader A, all committed, and then a heartbeat with [prevLogIndex = 0],
    no entries and [leaderCommit = 6]: the heartbeat is accepted and sets
    [commitIndex = min(6, 0) = 0]. *)
Lemma commitIndex_monotone_counterexample :
  handleAll [(Scenario.actB, Initialized);
             (Scenario.actB, MsgAppendEntries (Scenario.fill 5))]
            (newNode Scenario.cfg)
  = Done (Scenario.followerB 5)
  ∧ ¬ (∀ node',
         result (Receive Scenario.actB (MsgAppendEntries Scenario.shortHeartbeat)
                   (Scenario.followerB 5)) = Done node' →
         commitIndex (Scenario.followerB 5) <= commitIndex node').
Proof.
  split; [vm_compute; reflexivity|].
  intros H.
  assert (Hrun : result (Receive Scenario.actB (MsgAppendEntries Scenario.shortHeartbeat)
                           (Scenario.followerB 5))
                 = Done (set_commitIndex 0 (Scenario.followerB 5)))
    by (vm_compute; reflexivity).
  specialize (H _ Hrun). simpl in H. lia.
Qed.




(** ** [handleActiveNodes] *)

Lemma pidEquals_Some p q : pidEquals (Some p) (Some q) = bool_decide (p = q).
Proof. done. Qed.

Lemma foldl_addNode act lastLogIndex l tbl k :
  foldl (addNode act lastLogIndex) tbl l !! k
  = match tbl !! k with
    | Some md => Some md
    | None =>
      if decide (k ∈ l ∧ k ≠ ctxPID act)
      then Some (mkNodeMetadata k (wrap64 (lastLogIndex + 1)) 0)
      else None
    end.
Proof.
  revert tbl. induction l as [|p l IH]; intros tbl.
  - cbn [foldl]. destruct (tbl !! k); [done|].
    rewrite decide_False; [done|]. intros [H _]. by apply elem_of_nil in H.
  - cbn [foldl]. rewrite IH. unfold addNode, PID_String.
    rewrite pidEquals_Some.
    destruct (decide (p = ctxPID act)) as [-> | Hself].
    + rewrite bool_decide_eq_true_2 by done. cbn [negb].
      destruct (tbl !! k); [done|]. apply decide_ext. rewrite elem_of_cons. intuition congruence.
    + rewrite bool_decide_eq_false_2 by done. cbn [negb].
      destruct (tbl !! p) as [mdp|] eqn:Hp.
      * destruct (tbl !! k) eqn:Hk; [done|].
        assert (k ≠ p) by congruence.
        apply decide_ext. rewrite elem_of_cons. intuition congruence.
      * destruct (decide (k = p)) as [-> | Hne].
        -- rewrite lookup_insert_eq, Hp.
           rewrite decide_True; [done|]. rewrite elem_of_cons. auto.
        -- rewrite lookup_insert_ne by done.
           destruct (tbl !! k); [done|]. apply decide_ext. rewrite elem_of_cons. intuition congruence.
Qed.

(** C3, as the code has it.  Handling an [ActiveNodes] update rebuilds the
    peer table from nothing: every listed peer other than the node itself,
    whether it was in the table before or not, gets
    [nextIndex = lastLogIndex + 1] and [matchIndex = 0]; a peer that is not
    listed, and the node itself, are absent; nothing else in the state
    changes. *)
Theorem ActiveNodes_rebuilds_peer_table act msg node :
  (∀ p, nodes (handleActiveNodes act msg node) !! PID_String p
        = if decide (p ∈ ActiveNodes.Nodes msg ∧ p ≠ ctxPID act)
          then Some (mkNodeMetadata p (wrap64 (len (log node) + 1)) 0)
          else None)
  ∧ handleActiveNodes act msg node
    = set_nodes (nodes (handleActiveNodes act msg node)) node
  ∧ dispatch act (MsgActiveNodes msg) node = ret (handleActiveNodes act msg node).
Proof.
  split; [|done]. intros p.
  unfold handleActiveNodes. cbn [nodes set_nodes].
  rewrite foldl_addNode. by rewrite lookup_empty.
Qed.

(** C3 as stated fails.  The leader A has B at [matchIndex = 1]; an update
    listing A, B and C resets B's [matchIndex] to 0. *)
Lemma ActiveNodes_cursors_counterexample :
  ¬ spec_cursorsPreserved Scenario.actA (ActiveNodes.mk ["A"; "B"; "C"]%string)
      (Scenario.leaderA 1 1).
Proof.
  intros H.
  destruct (H "B"%string (Scenario.peer "B"%string 2 1)) as (md' & Hmd' & _ & Hmatch).
  - vm_compute. reflexivity.
  - apply list_elem_of_In. simpl. auto.
  - discriminate.
  - assert (Hnew : nodes (handleActiveNodes Scenario.actA
                            (ActiveNodes.mk ["A"; "B"; "C"]%string)
                            (Scenario.leaderA 1 1)) !! PID_String "B"%string
                   = Some (Scenario.peer "B"%string 2 0))
      by (vm_compute; reflexivity).
    rewrite Hnew in Hmd'. injection Hmd' as <-. discriminate Hmatch.
Qed.

(** ** [pendingCommands] *)

Lemma updateStateMachine_pending act node node' :
  result (updateStateMachine act node) = Done node' →
  0 <= lastApplied node <= maxUint64 →
  len (log node) <= maxUint64 →
  lastApplied node <= lastApplied node' ∧
  (∀ k, pendingCommands node' !! k =
        if decide (lastApplied node < k <= lastApplied node')
        then None else pendingCommands node !! k) ∧
  (∀ k command, pendingCommands node !! k = Some command →
     lastApplied node < k <= lastApplied node' →
     successReply (sender command) ∈ effects (updateStateMachine act node)).
Proof.
  intros H Hla Hlen. unfold updateStateMachine in H |- *.
  apply result_bind_Done in H as (mid & Hmid & H).
  rewrite (effects_bind_Done _ _ _ Hmid).
  assert (Hc : mid = node ∨ ∃ j, mid = set_commitIndex j node).
  { destruct (pidEquals _ _); [by eapply commitScan_frame | inv_Done; auto]. }
  assert (Hf : lastApplied mid = lastApplied node ∧ log mid = log node ∧
               pendingCommands mid = pendingCommands node)
    by (destruct Hc as [-> | [j ->]]; done).
  destruct Hf as (Hf1 & Hf2 & Hf3).
  pose proof (len_drop (log node) (lastApplied node) ltac:(lia)) as Hdrop.
  apply applyLoop_spec in H as (_ & Hla' & _ & Hpc & Hrep);
    [| lia | rewrite Hf1, Hf2; lia].
  rewrite Hf1, Hf3 in *. split; [lia|]. split; [done|].
  intros k command Hk Hin. apply elem_of_app. right. by apply (Hrep k).
Qed.

Lemma dispatch_log_bound act msg node mid :
  result (dispatch act msg node) = Done mid →
  len (log node) <= maxInt → validMessage msg →
  len (log mid) <= maxUint64.
Proof.
  intros H Hlen Hv. pose proof maxInt_lt_maxUint64 as Hmax.
  assert (Hother : (∀ m, msg ≠ MsgAppendEntries m) → len (log mid) <= maxUint64).
  { intros Hne.
    destruct (dispatch_log_commitIndex _ _ _ _ H Hne) as [_ [-> | [e ->]]]; [lia|].
    rewrite len_app. unfold maxInt, maxUint64 in *. lia. }
  destruct msg; try (apply Hother; intros ?; discriminate).
  cbn [dispatch] in H. simpl in Hv.
  destruct (handleExternalTerm_frame (AppendEntries.Term m) node) as (_ & Hlog & _).
  apply handleAppendEntries_Done in H as (ok & H).
  destruct ok.
  - apply accepted_holdsEntries in H as [_ H]; [lia | done | by rewrite Hlog].
  - apply handleAppendEntriesBody_cases in H as [(_ & [-> | ->]) | (? & _)];
      [simpl; rewrite ?Hlog; lia .. | done].
Qed.

(** Only [actor.Initialized] and a [Command] taken by the leader assign
    [pendingCommands] before the advance step. *)
Lemma dispatch_pendingCommands_cases act msg node mid :
  result (dispatch act msg node) = Done mid →
  pendingCommands mid = pendingCommands node
  ∨ (msg = Initialized ∧ pendingCommands mid = ∅)
  ∨ (∃ m, msg = MsgCommand m ∧
          pidEquals (leader node) (Some (ctxPID act)) = true ∧
          pendingCommands mid
          = <[len (log node) + 1 := mkCommandMetadata (ctxSender act)]>
              (pendingCommands node)).
Proof.
  intros H.
  destruct (termOf msg) as [T|] eqn:HT;
    [left; by eapply dispatch_pendingCommands|].
  destruct msg as [ | | | m | | | m | m | m | m | m | m | ];
    cbn [dispatch termOf] in *; try done.
  - inv_Done. subst. right. by left.
  - inv_Done. subst. by left.
  - inv_Done. subst. by left.
  - inv_Done. subst. by left.
  - inv_Done. subst. by left.
  - inv_Done. subst. by left.
  - apply handleCommand_spec in H as [[_ ->] | [Hl ->]]; [by left|].
    right. right. by exists m.
  - inv_Done. subst. by left.
  - left. by apply handleCheckTimers_spec in H as [-> | [? ->]].
Qed.

(** C4, as the code has it.  [handleExternalTerm] does not touch
    [pendingCommands]; and when a message has been handled, an entry of
    [pendingCommands] is still there unless its index was applied by the
    advance step of that message, in which case its client was sent
    [CommandResult{success = true}]; or the message was
    [actor.Initialized], which makes the map anew; or the leader took a
    [Command] and recorded its client under the same index
    [len(log) + 1], in place of the entry.  A leader demoted by a
    higher-term message keeps every pending entry that was not applied. *)
Theorem pending_commands_removed_on_apply_only :
  (∀ T node, pendingCommands (handleExternalTerm T node) = pendingCommands node)
  ∧ (∀ act msg node node',
       validMessage msg →
       0 <= lastApplied node <= maxUint64 →
       len (log node) <= maxInt →
       result (Receive act msg node) = Done node' →
       lastApplied node <= lastApplied node' ∧
       ∀ k command, pendingCommands node !! k = Some command →
         (¬ (lastApplied node < k <= lastApplied node') ∧
          pendingCommands node' !! k = Some command)
         ∨ (lastApplied node < k <= lastApplied node' ∧
            pendingCommands node' !! k = None ∧
            successReply (sender command) ∈ effects (Receive act msg node))
         ∨ (msg = Initialized ∧ pendingCommands node' = ∅)
         ∨ (∃ m, msg = MsgCommand m ∧
                 pidEquals (leader node) (Some (ctxPID act)) = true ∧
                 k = len (log node) + 1 ∧
                 (pendingCommands node' !! k = Some (mkCommandMetadata (ctxSender act))
                  ∨ (lastApplied node < k <= lastApplied node' ∧
                     pendingCommands node' !! k = None ∧
                     successReply (ctxSender act) ∈ effects (Receive act msg node)))))
  ∧ (∀ act msg T node node',
       termOf msg = Some T →
       validMessage msg →
       0 <= lastApplied node <= maxUint64 →
       len (log node) <= maxInt →
       result (Receive act msg node) = Done node' →
       ∀ k command, pendingCommands node !! k = Some command →
         ¬ (lastApplied node < k <= lastApplied node') →
         pendingCommands node' !! k = Some command).
Proof.
  assert (Hmain : ∀ act msg node node',
    validMessage msg →
    0 <= lastApplied node <= maxUint64 →
    len (log node) <= maxInt →
    result (Receive act msg node) = Done node' →
    ∃ mid, result (dispatch act msg node) = Done mid ∧
      lastApplied node <= lastApplied node' ∧
      (∀ k, pendingCommands node' !! k =
            if decide (lastApplied node < k <= lastApplied node')
            then None else pendingCommands mid !! k) ∧
      (∀ k command, pendingCommands mid !! k = Some command →
         lastApplied node < k <= lastApplied node' →
         successReply (sender command) ∈ effects (Receive act msg node))).
  { intros act msg node node' Hv Hla Hlen H.
    apply Receive_Done in H as (mid & Hd & Hu). exists mid. split; [done|].
    destruct (dispatch_lastApplied _ _ _ _ Hd) as [Hla' _].
    pose proof (dispatch_log_bound _ _ _ _ Hd Hlen Hv) as Hlen'.
    rewrite (Receive_effects _ _ _ _ Hd).
    apply updateStateMachine_pending in Hu as (Hle & Hlook & Hrep); [|lia..].
    rewrite Hla' in *. split; [done|]. split; [done|].
    intros k command Hk Hin. apply elem_of_app. right. by apply (Hrep k). }
  split; [intros T node; apply handleExternalTerm_frame|]. split.
  - intros act msg node node' Hv Hla Hlen H.
    destruct (Hmain _ _ _ _ Hv Hla Hlen H) as (mid & Hd & Hle & Hlook & Hrep).
    split; [done|]. intros k command Hk.
    destruct (dispatch_pendingCommands_cases _ _ _ _ Hd)
      as [Hpc | [[Hmsg Hpc] | (m & Hmsg & Hl & Hpc)]].
    + rewrite Hpc in *. rewrite Hlook.
      case_decide as Hin; [right; left | by left].
      split; [done|]. split; [done|]. by apply (Hrep k).
    + right. right. left. split; [done|]. apply map_eq. intros k'.
      rewrite Hlook, Hpc, lookup_empty. by case_decide.
    + destruct (decide (k = len (log node) + 1)) as [Hk' | Hk'].
      * right. right. right. exists m. split; [done|]. split; [done|]. split; [done|].
        assert (Hnew : pendingCommands mid !! k = Some (mkCommandMetadata (ctxSender act)))
          by (rewrite Hpc, Hk'; apply lookup_insert_eq).
        rewrite Hlook. case_decide as Hin; [right | by left].
        split; [done|]. split; [done|]. by apply (Hrep k _ Hnew).
      * assert (Hold : pendingCommands mid !! k = Some command)
          by (rewrite Hpc, lookup_insert_ne; done).
        rewrite Hlook. case_decide as Hin; [right; left | by left].
        split; [done|]. split; [done|]. by apply (Hrep k).
  - intros act msg T node node' HT Hv Hla Hlen H k command Hk Hnot.
    destruct (Hmain _ _ _ _ Hv Hla Hlen H) as (mid & Hd & Hle & Hlook & Hrep).
    rewrite Hlook, decide_False by done.
    by rewrite (dispatch_pendingCommands _ _ _ _ _ Hd HT).
Qed.

(** The leader A, with a client waiting for index 1, is demoted by C's
    [RequestVote] of term 5: the pending entry stays. *)
Lemma pending_commands_removed_on_apply_only_witness :
  pendingCommands (set_votedFor (Some "C"%string)
                     (set_leader None (set_currentTerm 5 Scenario.leaderWithPending)))
    !! 1
  = Some (mkCommandMetadata (Some "client"%string)).
Proof.
  refine (proj2 (proj2 pending_commands_removed_on_apply_only) Scenario.actA
           (MsgRequestVote (RequestVote.mk 5 "C"%string 1 1)) 5
           Scenario.leaderWithPending _ _ _ _ _ _ 1 _ _ _).
  - reflexivity.
  - exact I.
  - closed_Z.
  - closed_Z.
  - vm_compute. reflexivity.
  - vm_compute. reflexivity.
  - vm_compute. intros [H1 H2]. by apply H2.
Defined.

(** C4 as stated fails.  After C's [RequestVote] of term 5 has demoted the
    leader A, the entry of [pendingCommands] for index 1 is still there. *)
Lemma pending_commands_after_demotion_counterexample :
  ¬ (∀ node',
       result (Receive Scenario.actA (MsgRequestVote (RequestVote.mk 5 "C"%string 1 1))
                 Scenario.leaderWithPending) = Done node' →
       pidEquals (leader node') (Some "A"%string) = false →
       pendingCommands node' !! 1 = None).
Proof.
  intros H.
  assert (Hrun : result (Receive Scenario.actA
                           (MsgRequestVote (RequestVote.mk 5 "C"%string 1 1))
                           Scenario.leaderWithPending)
                 = Done (set_votedFor (Some "C"%string)
                           (set_leader None (set_currentTerm 5 Scenario.leaderWithPending))))
    by (vm_compute; reflexivity).
  specialize (H _ Hrun eq_refl). vm_compute in H. discriminate H.
Qed.

(** ** The election timer *)

Lemma Receive_effects_cases act msg node :
  effects (Receive act msg node)
  = effects (dispatch act msg node)
    ++ match result (dispatch act msg node) with
       | Done mid => effects (updateStateMachine act mid)
       | Panic => []
       end.
Proof.
  unfold Receive, mbind, M_bind, bind.
  destruct (result (dispatch act msg node)); simpl; by rewrite ?app_nil_r.
Qed.

Lemma apply_effect_not_timer e : isApplyEffect e → isTimerEffect e = false.
Proof. by destruct e. Qed.

(** C7, as the code has it.  The handling of a [RequestVote], granted or
    not, performs no timer operation.  The election timer is re-armed when
    an [AppendEntries] is accepted (the reply carries [Success = true]) and
    when a [checkTimers] tick finds it fired. *)
Theorem election_timer_reset_points :
  (∀ act msg node e,
     e ∈ effects (Receive act (MsgRequestVote msg) node) → isTimerEffect e = false)
  ∧ (∀ act msg node p t,
       Send (ctxSender act) (MsgAppendEntriesResult (AppendEntriesResult.mk p t true))
         ∈ effects (Receive act (MsgAppendEntries msg) node) →
       TimerReset ElectionTimer ∈ effects (Receive act (MsgAppendEntries msg) node))
  ∧ (∀ act node,
       ctxReady act = Some ElectionTimer →
       TimerReset ElectionTimer ∈ effects (Receive act checkTimers node)).
Proof.
  split; [|split].
  - intros act msg node e. rewrite Receive_effects_cases.
    cbn [dispatch]. rewrite handleRequestVote_defer. cbn [effects result].
    intros [He | He]%elem_of_app.
    + apply list_elem_of_singleton in He. by subst e.
    + apply apply_effect_not_timer.
      destruct (result (handleRequestVoteBody _ _ _)) as [[mid g]|];
        [|by apply elem_of_nil in He].
      pose proof (updateStateMachine_effects act mid) as Hall.
      rewrite Forall_forall in Hall. by apply Hall.
  - intros act msg node p t. rewrite Receive_effects_cases.
    cbn [dispatch]. rewrite handleAppendEntries_effects. cbn zeta.
    set (ok := successOf _).
    intros [Hin | Hin]%elem_of_app.
    + apply elem_of_app. left.
      apply elem_of_app in Hin as [Hin | Hin].
      * destruct ok; [|by apply elem_of_nil in Hin].
        apply elem_of_app. left. apply list_elem_of_In. simpl. auto.
      * apply list_elem_of_singleton in Hin. injection Hin as _ _ <-.
        apply elem_of_app. left. apply list_elem_of_In. simpl. auto.
    + exfalso. destruct (result (handleAppendEntries _ _ _)) as [mid|];
        [|by apply elem_of_nil in Hin].
      revert Hin. apply not_apply_effect_in_advance. intros [].
  - intros act node Hready. rewrite Receive_effects_cases.
    apply elem_of_app. left. cbn [dispatch]. unfold handleCheckTimers. rewrite Hready.
    match goal with
    | |- _ ∈ effects (?m ≫= ?k) =>
      destruct (effects_bind_prefix m k) as [o ->]
    end.
    apply elem_of_app. left.
    match goal with
    | |- _ ∈ effects (?m ≫= ?k) =>
      destruct (effects_bind_prefix m k) as [o' ->]
    end.
    apply elem_of_app. left. apply list_elem_of_singleton. done.
Qed.

(** B accepts the overwriting message and re-arms its election timer. *)
Lemma election_timer_reset_points_witness :
  TimerReset ElectionTimer
    ∈ effects (Receive Scenario.actB (MsgAppendEntries Scenario.overwrite)
                 (Scenario.followerB 2)).
Proof.
  apply (proj1 (proj2 election_timer_reset_points) Scenario.actB Scenario.overwrite
           (Scenario.followerB 2) "B"%string 2).
  vm_compute. apply list_elem_of_In. simpl. auto.
Defined.

(** C7 as stated fails.  B grants its vote to C, and the handling of that
    [RequestVote] does not re-arm the election timer. *)
Lemma election_timer_on_grant_counterexample :
  ¬ (Send (Some "A"%string) (MsgRequestVoteResult (RequestVoteResult.mk 2 true))
       ∈ effects (Receive Scenario.actB (MsgRequestVote (RequestVote.mk 2 "C"%string 5 1))
                    (Scenario.followerB 5)) →
     TimerReset ElectionTimer
       ∈ effects (Receive Scenario.actB (MsgRequestVote (RequestVote.mk 2 "C"%string 5 1))
                    (Scenario.followerB 5))).
Proof.
  intros H.
  assert (Heff : effects (Receive Scenario.actB
                            (MsgRequestVote (RequestVote.mk 2 "C"%string 5 1))
                            (Scenario.followerB 5))
                 = [Send (Some "A"%string)
                      (MsgRequestVoteResult (RequestVoteResult.mk 2 true))])
    by (vm_compute; reflexivity).
  rewrite Heff in H.
  specialize (H ltac:(by apply list_elem_of_singleton)).
  apply list_elem_of_singleton in H. discriminate H.
Qed.

(** * Further properties of the handlers *)

(** ** [sendAppendEntries] *)

Lemma sendAppendEntries_in_log act node p md :
  nodes node !! PID_String p = Some md →
  1 <= nextIndex md <= len (log node) + 1 →
  len (log node) <= maxInt →
  sendAppendEntries act node p
  = emit (Send (Some (pid md)) (MsgAppendEntries (appendEntriesFor act node md))).
Proof.
  intros Hp Hn Hlen. unfold sendAppendEntries, appendEntriesFor. rewrite Hp.
  pose proof maxInt_lt_maxUint64 as Hmax.
  destruct (nextIndex md =? 0) eqn:Hz; [zlia|].
  rewrite wrap64_small by lia. cbn [fst lastLogIndexAndTerm].
  assert (Hentries :
    (if len (log node) >=? nextIndex md
     then drop (Z.to_nat (nextIndex md - 1)) (log node) else [])
    = drop (Z.to_nat (nextIndex md - 1)) (log node)).
  { destruct (len (log node) >=? nextIndex md) eqn:E; [done|].
    rewrite drop_ge; [done|]. unfold len in *. zlia. }
  rewrite Hentries.
  destruct (nextIndex md - 1 >? 0) eqn:Hpos.
  - rewrite wrap64_small by zlia.
    replace (nextIndex md - 1 - 1) with (nextIndex md - 2) by lia.
    destruct (index_in_range (log node) (nextIndex md - 2)) as (e & -> & He); [zlia|].
    rewrite He, !bind_ret_l. done.
  - by rewrite bind_ret_l.
Qed.

(** X1. The [AppendEntries] built for a peer whose [nextIndex] lies in
    [1 .. lastLogIndex + 1]: exactly one message goes to that peer; its
    [prevLogIndex] is [nextIndex - 1], its [prevLogTerm] is the term of the
    log at that index (0 for index 0), its entries are the log from
    [nextIndex] on, so that [prevLogIndex + len(entries) = lastLogIndex],
    and it carries the sender's term, identity and [commitIndex]. *)
Theorem sendAppendEntries_message act node p md :
  nodes node !! PID_String p = Some md →
  1 <= nextIndex md <= len (log node) + 1 →
  len (log node) <= maxInt →
  ∃ msg,
    sendAppendEntries act node p = emit (Send (Some (pid md)) (MsgAppendEntries msg)) ∧
    AppendEntries.Term msg = currentTerm node ∧
    AppendEntries.LeaderPID msg = ctxPID act ∧
    AppendEntries.LeaderCommit msg = commitIndex node ∧
    AppendEntries.PrevLogIndex msg = nextIndex md - 1 ∧
    AppendEntries.PrevLogIndex msg + len (AppendEntries.Entries msg) = len (log node) ∧
    log node = take (Z.to_nat (nextIndex md - 1)) (log node) ++ AppendEntries.Entries msg ∧
    (AppendEntries.PrevLogIndex msg = 0 → AppendEntries.PrevLogTerm msg = 0) ∧
    (0 < AppendEntries.PrevLogIndex msg →
     ∃ e, log node !! Z.to_nat (AppendEntries.PrevLogIndex msg - 1) = Some e ∧
          AppendEntries.PrevLogTerm msg = LogEntry.Term e).
Proof.
  intros Hp Hn Hlen. exists (appendEntriesFor act node md).
  split; [by apply sendAppendEntries_in_log|].
  unfold appendEntriesFor. cbn.
  repeat split.
  - unfold len in *. rewrite length_drop. lia.
  - by rewrite take_drop.
  - intros Hz. destruct (nextIndex md - 1 >? 0) eqn:E; [zlia | done].
  - intros Hpos. destruct (nextIndex md - 1 >? 0) eqn:E; [|zlia].
    replace (nextIndex md - 1 - 1) with (nextIndex md - 2) by lia.
    destruct (lookup_lt_is_Some_2 (log node) (Z.to_nat (nextIndex md - 2))) as [e He];
      [unfold len in *; lia|].
    exists e. by rewrite He.
Qed.

(** X2. The failures of [sendAppendEntries]: for a peer that is not in the
    table, and for a cursor [nextIndex = 0], nothing is sent and the
    function returns; for a cursor beyond [lastLogIndex + 1] (which a
    truncation of the log can leave behind) the read of
    [log[prevLogIndex-1]] is out of range and the function panics, having
    sent nothing. *)
Theorem sendAppendEntries_failures act node p :
  (nodes node !! PID_String p = None → sendAppendEntries act node p = ret tt)
  ∧ (∀ md, nodes node !! PID_String p = Some md → nextIndex md = 0 →
           sendAppendEntries act node p = ret tt)
  ∧ (∀ md, nodes node !! PID_String p = Some md →
           len (log node) + 1 < nextIndex md <= maxUint64 →
           sendAppendEntries act node p = panic).
Proof.
  unfold sendAppendEntries. split; [|split].
  - by intros ->.
  - intros md -> ->. done.
  - intros md -> Hn. pose proof (len_nonneg (log node)) as Hl.
    destruct (nextIndex md =? 0) eqn:Hz; [zlia|].
    rewrite wrap64_small by lia.
    destruct (nextIndex md - 1 >? 0) eqn:Hpos; [|zlia].
    rewrite wrap64_small by zlia.
    rewrite index_out_of_range by lia. done.
Qed.

(** The leader A sends B the entry at index 1 after an empty prefix. *)
Lemma sendAppendEntries_message_witness :
  ∃ msg,
    sendAppendEntries Scenario.actA (Scenario.leaderA 0 0) "B"%string
    = emit (Send (Some "B"%string) (MsgAppendEntries msg)) ∧
    AppendEntries.PrevLogIndex msg + len (AppendEntries.Entries msg)
    = len (log (Scenario.leaderA 0 0)).
Proof.
  destruct (sendAppendEntries_message Scenario.actA (Scenario.leaderA 0 0) "B"%string
              (Scenario.peer "B"%string 2 0))
    as (msg & Hsend & _ & _ & _ & _ & Hlen & _).
  - vm_compute. reflexivity.
  - closed_Z.
  - closed_Z.
  - exists msg. split; [exact Hsend | exact Hlen].
Defined.

(** A, its log emptied while B's cursor is still 2, panics on sending. *)
Lemma sendAppendEntries_failures_witness :
  sendAppendEntries Scenario.actA (set_log [] (Scenario.leaderA 0 0)) "B"%string = panic.
Proof.
  apply (proj2 (proj2 (sendAppendEntries_failures Scenario.actA
           (set_log [] (Scenario.leaderA 0 0)) "B"%string))
           (Scenario.peer "B"%string 2 0)).
  - vm_compute. reflexivity.
  - closed_Z.
Defined.

(** ** Replication: a leader's message handled by a follower *)

(** An iteration at the end of the log appends the entry. *)
Lemma appendEntriesLoop_append lg entry rest :
  len lg < maxInt →
  appendEntriesLoop lg (len lg) (entry :: rest)
  = appendEntriesLoop (lg ++ [entry]) (len lg + 1) rest.
Proof.
  intros Hlen. cbn [appendEntriesLoop].
  pose proof maxInt_lt_maxUint64 as Hmax. pose proof (len_nonneg lg) as Hl.
  rewrite (wrap64_small (len lg + 1)) by lia.
  rewrite int_of_uint64_small by lia.
  destruct (len lg >=? len lg + 1) eqn:E; [zlia|].
  rewrite bind_ret_l.
  destruct (len lg <? len lg + 1) eqn:E'; [done | zlia].
Qed.

(** On a prefix of the leader's log that reaches [prevLogIndex], the loop
    over the rest of the leader's log yields the leader's log. *)
Lemma appendEntriesLoop_prefix (ll : list LogEntry.t) (k n m : nat) :
  k = (length ll - n)%nat → (n ≤ m)%nat → (m ≤ length ll)%nat → len ll <= maxInt →
  appendEntriesLoop (take m ll) (Z.of_nat n) (drop n ll)
  = ret (ll, Z.of_nat (length ll)).
Proof.
  revert n m. induction k as [|k IH]; intros n m Hk Hnm Hm Hlen.
  - assert (n = length ll) as -> by lia. assert (m = length ll) as -> by lia.
    by rewrite drop_all, firstn_all.
  - destruct (lookup_lt_is_Some_2 ll n) as [e He]; [lia|].
    rewrite (drop_S _ _ _ He).
    destruct (decide (n = m)) as [<- | Hne].
    + assert (Hl : len (take n ll) = Z.of_nat n)
        by (unfold len; rewrite length_take; lia).
      rewrite <- Hl at 1. rewrite appendEntriesLoop_append by (unfold len in *; lia).
      rewrite Hl, <- (take_S_r _ _ _ He).
      replace (Z.of_nat n + 1) with (Z.of_nat (S n)) by lia.
      apply IH; lia.
    + destruct (appendEntriesLoop_step (take m ll) n e (drop (S n) ll))
        as [(Hmax & Heq & _) | (lg2 & Heq & _ & _ & _ & _ & Hsame)].
      * rewrite length_take. lia.
      * unfold len in *. rewrite length_take. lia.
      * rewrite length_take in Heq. lia.
      * rewrite Heq, Hsame.
        -- apply IH; lia.
        -- exists e. split; [|done]. rewrite lookup_take_lt by lia. done.
Qed.

(** X3. Replication round trip.  A leader sends [AppendEntries] to a peer
    whose cursor is within its log; a follower that is not in a later term
    and whose log is a prefix of the leader's log, at least [prevLogIndex]
    long, accepts the message: the handler completes, the follower's log
    is the leader's log, the follower is in the leader's term and takes the
    sender as leader. *)
Theorem replication_round_trip actL leaderNode p md actF follower (m : nat) :
  nodes leaderNode !! PID_String p = Some md →
  1 <= nextIndex md <= len (log leaderNode) + 1 →
  len (log leaderNode) <= maxInt →
  log follower = take m (log leaderNode) →
  nextIndex md - 1 <= Z.of_nat m <= len (log leaderNode) →
  currentTerm follower <= currentTerm leaderNode →
  ∃ msg mid,
    sendAppendEntries actL leaderNode p
    = emit (Send (Some (pid md)) (MsgAppendEntries msg)) ∧
    result (dispatch actF (MsgAppendEntries msg) follower) = Done mid ∧
    log mid = log leaderNode ∧
    currentTerm mid = currentTerm leaderNode ∧
    leader mid = Some (ctxPID actL) ∧
    Send (ctxSender actF)
      (MsgAppendEntriesResult
         (AppendEntriesResult.mk (ctxPID actF) (currentTerm leaderNode) true))
      ∈ effects (dispatch actF (MsgAppendEntries msg) follower).
Proof.
  intros Hp Hn Hlen Hlog Hm Hterm.
  exists (appendEntriesFor actL leaderNode md).
  set (msg := appendEntriesFor actL leaderNode md).
  set (f1 := handleExternalTerm (AppendEntries.Term msg) follower).
  destruct (handleExternalTerm_frame (AppendEntries.Term msg) follower)
    as (_ & Hlog1 & Hci1 & _).
  fold f1 in Hlog1, Hci1.
  assert (Hct1 : currentTerm f1 = currentTerm leaderNode).
  { subst f1. rewrite handleExternalTerm_currentTerm. subst msg. simpl. lia. }
  set (n := Z.to_nat (nextIndex md - 1)).
  assert (Hprev : AppendEntries.PrevLogIndex msg = Z.of_nat n) by (subst msg n; simpl; lia).
  assert (Hmis : prevLogMismatch (set_leader (Some (ctxPID actL)) f1) msg = ret false).
  { unfold prevLogMismatch. cbn [log set_leader]. rewrite Hlog1, Hlog.
    assert (Hlen' : len (take m (log leaderNode)) = Z.of_nat m)
      by (unfold len in *; rewrite length_take; lia).
    rewrite Hlen'.
    destruct (AppendEntries.PrevLogIndex msg >? 0) eqn:Hpos; [|done].
    rewrite int_of_uint64_small by (subst msg; simpl; lia).
    destruct (Z.of_nat m <? AppendEntries.PrevLogIndex msg) eqn:E;
      [subst msg; simpl in *; zlia|].
    destruct (Z.of_nat m >? 0) eqn:E'; [|subst msg; simpl in *; zlia].
    subst msg. cbn [appendEntriesFor AppendEntries.PrevLogIndex AppendEntries.PrevLogTerm] in *.
    rewrite Hpos. rewrite wrap64_small by (pose proof maxInt_lt_maxUint64; zlia).
    replace (nextIndex md - 1 - 1) with (nextIndex md - 2) by lia.
    destruct (lookup_lt_is_Some_2 (log leaderNode) (Z.to_nat (nextIndex md - 2)))
      as [e He]; [unfold len in *; zlia|].
    unfold index. rewrite lookup_take_lt by zlia. rewrite He, bind_ret_l.
    cbn. by rewrite Z.eqb_refl. }
  assert (Hloop : appendEntriesLoop (log f1) (AppendEntries.PrevLogIndex msg)
                    (AppendEntries.Entries msg)
                  = ret (log leaderNode, len (log leaderNode))).
  { rewrite Hlog1, Hlog, Hprev. subst msg. cbn [appendEntriesFor AppendEntries.Entries].
    fold n. eapply appendEntriesLoop_prefix; [done | | |done]; unfold len in *; lia. }
  assert (Hbody : ∃ mid, handleAppendEntriesBody actF msg f1
                         = mkM (Done (mid, true))
                               [TimerStop ElectionTimer; TimerReset ElectionTimer] ∧
                         log mid = log leaderNode ∧ currentTerm mid = currentTerm leaderNode ∧
                         leader mid = Some (ctxPID actL)).
  { unfold handleAppendEntriesBody.
    assert (Ht : (AppendEntries.Term msg <? currentTerm f1) = false)
      by (rewrite Hct1; subst msg; simpl; apply Z.ltb_ge; lia).
    rewrite Ht.
    change (AppendEntries.LeaderPID msg) with (ctxPID actL).
    rewrite Hmis, bind_ret_l. cbn [log set_leader] in *. rewrite Hloop, bind_ret_l.
    eexists. split; [reflexivity|]. cbn [fst snd].
    by destruct (AppendEntries.LeaderCommit msg >? _). }
  destruct Hbody as (mid & Hbody & Hl & Hc & Hld).
  exists mid. split; [by apply sendAppendEntries_in_log|].
  cbn [dispatch]. fold f1.
  split; [apply handleAppendEntries_Done; exists true; by rewrite Hbody|].
  split; [done|]. split; [done|]. split; [done|].
  rewrite handleAppendEntries_effects, Hbody. cbn [result successOf].
  rewrite Hct1. apply elem_of_app. right. by apply list_elem_of_singleton.
Qed.

(** B holds the first of A's three entries and receives the other two. *)
Lemma replication_round_trip_witness :
  ∃ msg mid,
    sendAppendEntries Scenario.actA
      (set_log (replicate 3 (Scenario.entry 1)) (Scenario.leaderA 0 0)) "B"%string
    = emit (Send (Some "B"%string) (MsgAppendEntries msg)) ∧
    result (dispatch Scenario.actB (MsgAppendEntries msg) (Scenario.followerB 1)) = Done mid ∧
    log mid = replicate 3 (Scenario.entry 1).
Proof.
  destruct (replication_round_trip Scenario.actA
              (set_log (replicate 3 (Scenario.entry 1)) (Scenario.leaderA 0 0))
              "B"%string (Scenario.peer "B"%string 2 0) Scenario.actB
              (Scenario.followerB 1) 1)
    as (msg & mid & Hsend & Hd & Hlog & _).
  - vm_compute. reflexivity.
  - closed_Z.
  - closed_Z.
  - reflexivity.
  - closed_Z.
  - closed_Z.
  - exists msg, mid. split; [exact Hsend|]. split; [exact Hd | exact Hlog].
Defined.

(** ** [handleAppendEntries]: replies and rejections *)

Lemma filter_isAppendReply_apply l :
  Forall isApplyEffect l → List.filter isAppendReply l = [].
Proof.
  induction 1 as [|e l He _ IH]; [done|]. simpl. rewrite IH.
  destruct e as [to m| | | | |]; try done. by destruct m.
Qed.

(** X4. Every [AppendEntries] is answered exactly once.  Whatever the
    message and the state, also when the handler panics, the handling sends
    one [AppendEntriesResult], to the sender, with the receiver's identity
    and its term after the pre-dispatch advance; [Success] is set exactly
    when the handler body completed and accepted the message. *)
Theorem AppendEntries_one_reply act msg node :
  let node1 := handleExternalTerm (AppendEntries.Term msg) node in
  ∃ ok : bool,
    List.filter isAppendReply (effects (Receive act (MsgAppendEntries msg) node))
    = [Send (ctxSender act)
         (MsgAppendEntriesResult
            (AppendEntriesResult.mk (ctxPID act) (currentTerm node1) ok))] ∧
    (ok = true ↔ ∃ mid, result (handleAppendEntriesBody act msg node1) = Done (mid, true)).
Proof.
  intros node1.
  exists (successOf (result (handleAppendEntriesBody act msg node1))).
  split.
  - rewrite Receive_effects_cases. cbn [dispatch]. fold node1.
    rewrite handleAppendEntries_effects. cbn zeta.
    rewrite !List.filter_app.
    assert (Hadv : List.filter isAppendReply
              match result (handleAppendEntries act msg node1) with
              | Done mid => effects (updateStateMachine act mid)
              | Panic => []
              end = []).
    { destruct (result (handleAppendEntries act msg node1)); [|done].
      apply filter_isAppendReply_apply, updateStateMachine_effects. }
    rewrite Hadv. by destruct (successOf _).
  - destruct (result (handleAppendEntriesBody act msg node1)) as [[mid ok]|]; simpl.
    + split; [intros ->; eauto | by intros (mid' & [= _ ->])].
    + split; [done | by intros (mid' & [=])].
Qed.

(** X5. A stale [AppendEntries] changes nothing.  When the message's term
    is below [currentTerm], the handler returns the state as it is (the
    sender is not adopted as leader, no timer is touched) and replies
    [Success = false] with the node's term. *)
Theorem AppendEntries_stale_term act msg node :
  AppendEntries.Term msg < currentTerm node →
  dispatch act (MsgAppendEntries msg) node
  = mkM (Done node)
        [Send (ctxSender act)
           (MsgAppendEntriesResult
              (AppendEntriesResult.mk (ctxPID act) (currentTerm node) false))].
Proof.
  intros Ht. cbn [dispatch]. rewrite handleExternalTerm_keep by lia.
  unfold handleAppendEntries, handleAppendEntriesBody.
  destruct (AppendEntries.Term msg <? currentTerm node) eqn:E; [done | zlia].
Qed.

(** B, in term 1, receives a message of term 0. *)
Lemma AppendEntries_stale_term_witness :
  dispatch Scenario.actB (MsgAppendEntries (AppendEntries.mk 0 "C"%string 0 0 [] 9))
    (Scenario.followerB 2)
  = mkM (Done (Scenario.followerB 2))
        [Send (Some "A"%string)
           (MsgAppendEntriesResult (AppendEntriesResult.mk "B"%string 1 false))].
Proof.
  apply (AppendEntries_stale_term Scenario.actB
           (AppendEntries.mk 0 "C"%string 0 0 [] 9) (Scenario.followerB 2)).
  closed_Z.
Defined.

(** X6. The consistency check (Condition #2) for a [prevLogIndex] that fits
    an [int]: it never panics, and it rejects the message exactly when
    [prevLogIndex > 0] and the log is shorter than [prevLogIndex] or holds
    another term than [prevLogTerm] at that index. *)
Theorem prevLogMismatch_in_range node msg :
  0 <= AppendEntries.PrevLogIndex msg <= maxInt →
  len (log node) <= maxInt →
  ∃ b : bool,
    prevLogMismatch node msg = ret b ∧
    (b = true ↔
     0 < AppendEntries.PrevLogIndex msg ∧
     (len (log node) < AppendEntries.PrevLogIndex msg
      ∨ ∃ e, log node !! Z.to_nat (AppendEntries.PrevLogIndex msg - 1) = Some e ∧
             LogEntry.Term e ≠ AppendEntries.PrevLogTerm msg)).
Proof.
  intros Hp Hlen. unfold prevLogMismatch.
  pose proof maxInt_lt_maxUint64 as Hmax.
  destruct (AppendEntries.PrevLogIndex msg >? 0) eqn:Hpos; cycle 1.
  { exists false. split; [done|]. split; [done | intros [? _]; zlia]. }
  rewrite int_of_uint64_small by lia.
  destruct (len (log node) <? AppendEntries.PrevLogIndex msg) eqn:Hlt.
  { exists true. split; [done|]. split; [|done]. intros _. split; [zlia | left; zlia]. }
  destruct (len (log node) >? 0) eqn:Hne; [|zlia].
  rewrite wrap64_small by zlia.
  destruct (index_in_range (log node) (AppendEntries.PrevLogIndex msg - 1))
    as (e & -> & He); [zlia|].
  rewrite bind_ret_l. eexists. split; [done|].
  destruct (LogEntry.Term e =? AppendEntries.PrevLogTerm msg) eqn:Ht; cbn [negb].
  - split; [done|]. intros (_ & [Hshort | (e' & He' & Hne')]); [zlia|].
    rewrite He in He'. injection He' as <-. zlia.
  - split; [|done]. intros _. split; [zlia|]. right. exists e. split; [done | zlia].
Qed.

(** B, with two entries of term 1, checks [prevLogIndex = 2], [prevLogTerm = 3]. *)
Lemma prevLogMismatch_in_range_witness :
  ∃ b : bool,
    prevLogMismatch (Scenario.followerB 2) (AppendEntries.mk 3 "C"%string 2 3 [] 0) = ret b.
Proof.
  destruct (prevLogMismatch_in_range (Scenario.followerB 2)
              (AppendEntries.mk 3 "C"%string 2 3 [] 0)) as (b & Hb & _).
  - closed_Z.
  - closed_Z.
  - exists b. exact Hb.
Defined.

(** X7. A [prevLogIndex] of [2^63] or more defeats the consistency check:
    [int(prevLogIndex)] is negative, so the length test passes.  A node
    with an empty log then accepts a message without entries, whatever its
    [prevLogIndex] and [prevLogTerm], and takes
    [min(leaderCommit, prevLogIndex)] as [commitIndex] when [leaderCommit]
    is larger than its own; with entries, or on a log that is not empty,
    the handler panics on an index out of range. *)
Theorem AppendEntries_prevLogIndex_beyond_int act msg node :
  maxInt < AppendEntries.PrevLogIndex msg <= maxUint64 →
  currentTerm node <= AppendEntries.Term msg →
  len (log node) <= maxInt →
  (log node = [] → AppendEntries.Entries msg = [] →
   result (handleAppendEntriesBody act msg node)
   = Done (acceptEntries msg [] (AppendEntries.PrevLogIndex msg) node, true))
  ∧ (log node ≠ [] ∨ AppendEntries.Entries msg ≠ [] →
     result (handleAppendEntriesBody act msg node) = Panic).
Proof.
  intros Hp Ht Hlen. pose proof maxInt_lt_maxUint64 as Hmax.
  pose proof (len_nonneg (log node)) as Hl.
  unfold handleAppendEntriesBody.
  destruct (AppendEntries.Term msg <? currentTerm node) eqn:E; [zlia|].
  unfold prevLogMismatch. cbn [log set_leader].
  destruct (AppendEntries.PrevLogIndex msg >? 0) eqn:Hpos; [|unfold maxInt in *; zlia].
  pose proof (int_of_uint64_large (AppendEntries.PrevLogIndex msg) ltac:(lia) ltac:(lia)).
  destruct (len (log node) <? int_of_uint64 _) eqn:Hlt; [zlia|].
  split.
  - intros Hnil Hent. rewrite Hnil, Hent, len_nil.
    change (0 >? 0) with false. cbv iota. rewrite bind_ret_l.
    cbn [appendEntriesLoop]. rewrite bind_ret_l. cbn [fst snd].
    unfold acceptEntries. cbn [commitIndex set_log set_leader].
    by destruct (AppendEntries.LeaderCommit msg >? commitIndex node).
  - intros Hcase.
    destruct (len (log node) >? 0) eqn:Hne.
    + rewrite wrap64_small by zlia.
      rewrite index_out_of_range by (unfold maxInt in *; zlia). done.
    + assert (Hnil : log node = []).
      { destruct (log node); [done|]. rewrite len_cons in Hne.
        pose proof (len_nonneg l). zlia. }
      destruct Hcase as [? | Hent]; [done|]. rewrite bind_ret_l.
      destruct (AppendEntries.Entries msg) as [|entry rest]; [done|].
      cbn [log set_leader]. rewrite Hnil.
      unfold mbind, M_bind, bind.
      by rewrite appendEntriesLoop_beyond by lia.
Qed.

(** A fresh node takes [commitIndex = 7] from a message with
    [prevLogIndex = 2^63] and no entries. *)
Lemma AppendEntries_prevLogIndex_beyond_int_witness :
  result (handleAppendEntriesBody Scenario.actB
            (AppendEntries.mk 1 "A"%string (2 ^ 63) 5 [] 7) (newNode Scenario.cfg))
  = Done (set_commitIndex 7 (set_leader (Some "A"%string) (newNode Scenario.cfg)), true).
Proof.
  apply (proj1 (AppendEntries_prevLogIndex_beyond_int Scenario.actB
           (AppendEntries.mk 1 "A"%string (2 ^ 63) 5 [] 7) (newNode Scenario.cfg)
           ltac:(closed_Z) ltac:(closed_Z) ltac:(closed_Z))).
  - reflexivity.
  - reflexivity.
Defined.

(** ** What a message can do to the log *)

(** X8. The log below a message.  Handling a message other than
    [AppendEntries] only extends the log: the old log is a prefix of the
    new one.  Handling an [AppendEntries], accepted or not, leaves the
    entries at indices up to its [prevLogIndex] as they are. *)
Theorem log_kept_below_message act msg node node' :
  validMessage msg →
  len (log node) <= maxInt →
  result (Receive act msg node) = Done node' →
  match msg with
  | MsgAppendEntries m =>
    take (Z.to_nat (AppendEntries.PrevLogIndex m)) (log node')
    = take (Z.to_nat (AppendEntries.PrevLogIndex m)) (log node)
  | _ => log node `prefix_of` log node'
  end.
Proof.
  intros Hv Hlen H. apply Receive_Done in H as (mid & Hd & Hu).
  apply updateStateMachine_frame in Hu as (_ & _ & _ & _ & -> & _).
  assert (Hother : (∀ m, msg ≠ MsgAppendEntries m) → log node `prefix_of` log mid).
  { intros Hne.
    destruct (dispatch_log_commitIndex _ _ _ _ Hd Hne) as [_ [-> | [e ->]]];
      [done | by apply prefix_app_r]. }
  destruct msg; try (apply Hother; intros ?; discriminate).
  cbn [dispatch] in Hd. simpl in Hv.
  destruct (handleExternalTerm_frame (AppendEntries.Term m) node) as (_ & Hlog & _).
  apply handleAppendEntries_Done in Hd as (ok & Hb).
  apply handleAppendEntriesBody_cases in Hb
    as [(_ & [-> | ->]) | (_ & _ & Hm & lg & nei & Hloop & ->)];
    [cbn [log set_leader]; by rewrite Hlog .. |].
  destruct (acceptEntries_fields m lg nei (handleExternalTerm (AppendEntries.Term m) node))
    as (_ & _ & _ & -> & _).
  destruct (accepted_loop _ _ _ _ Hm Hloop Hv ltac:(by rewrite Hlog))
    as [(n & Hn & Hle) | (_ & -> & _)]; [|by rewrite Hlog].
  rewrite Hn in Hloop |- *. rewrite Nat2Z.id.
  apply appendEntriesLoop_spec in Hloop as (_ & _ & _ & _ & Hkeep);
    [| done | by rewrite Hlog].
  rewrite <- Hlog. apply Hkeep; [done|]. intros k e _ ?. lia.
Qed.

(** B's first entry survives a message that rewrites its log from index 2. *)
Lemma log_kept_below_message_witness :
  take (Z.to_nat 1)
    (log (set_currentTerm 2 (set_leader (Some "C"%string)
            (set_log [Scenario.entry 1; Scenario.entry 2] (Scenario.followerB 2)))))
  = take (Z.to_nat 1) (log (Scenario.followerB 2)).
Proof.
  apply (log_kept_below_message Scenario.actB
           (MsgAppendEntries (AppendEntries.mk 2 "C"%string 1 1 [Scenario.entry 2] 0))
           (Scenario.followerB 2)).
  - closed_Z.
  - closed_Z.
  - vm_compute. reflexivity.
Defined.

(** ** The advance step *)

Lemma handlerCalls_app l1 l2 : handlerCalls (l1 ++ l2) = handlerCalls l1 ++ handlerCalls l2.
Proof. unfold handlerCalls. apply omap_app. Qed.

Lemma applyEntry_calls entry node :
  handlerCalls (effects (applyEntry entry node))
  = if Handler (config node) then [LogEntry.Command entry] else [].
Proof.
  rewrite (proj2 (applyEntry_spec entry node)), handlerCalls_app.
  destruct (Handler (config node)); by destruct (pendingCommands node !! _).
Qed.

Lemma applyLoop_calls rest node node' :
  result (applyLoop rest node) = Done node' →
  0 <= lastApplied node →
  lastApplied node + len rest <= maxUint64 →
  handlerCalls (effects (applyLoop rest node))
  = if Handler (config node)
    then LogEntry.Command <$> take (Z.to_nat (lastApplied node' - lastApplied node)) rest
    else [].
Proof.
  revert node. induction rest as [|entry rest IH]; intros node H H0 Hr.
  - cbn [applyLoop] in *. rewrite take_nil.
    destruct (commitIndex node >? lastApplied node); [done|].
    by destruct (Handler (config node)).
  - pose proof (applyLoop_spec _ _ _ H H0 Hr) as (_ & Hla & _).
    cbn [applyLoop] in *.
    destruct (commitIndex node >? lastApplied node) eqn:E; cycle 1.
    { injection H as <-. rewrite Z.sub_diag. by destruct (Handler (config node)). }
    apply result_bind_Done in H as (mid & Hmid & H).
    rewrite (effects_bind_Done _ _ _ Hmid), handlerCalls_app, applyEntry_calls.
    rewrite (proj1 (applyEntry_spec _ _)) in Hmid. injection Hmid as <-.
    rewrite len_cons in Hr. pose proof (len_nonneg rest) as Hrest.
    assert (Hw : wrap64 (lastApplied node + 1) = lastApplied node + 1)
      by (apply wrap64_small; lia).
    rewrite Hw in *.
    rewrite (IH _ H); [| simpl; lia | simpl; lia].
    cbn [config set_lastApplied set_pendingCommands lastApplied].
    replace (Z.to_nat (lastApplied node' - lastApplied node))
      with (S (Z.to_nat (lastApplied node' - (lastApplied node + 1)))) by zlia.
    by destruct (Handler (config node)).
Qed.

(** X9. Apply happens in log order.  When the advance step completes, it
    has called the application handler (when one is configured) with the
    commands of the log entries at indices [lastApplied + 1] up to the new
    [lastApplied], in that order and once each, and the new [lastApplied]
    is not below [commitIndex]. *)
Theorem apply_in_log_order act node node' :
  0 <= lastApplied node <= maxUint64 →
  len (log node) <= maxUint64 →
  result (updateStateMachine act node) = Done node' →
  lastApplied node <= lastApplied node' ∧
  commitIndex node' <= lastApplied node' ∧
  handlerCalls (effects (updateStateMachine act node))
  = if Handler (config node)
    then LogEntry.Command
           <$> take (Z.to_nat (lastApplied node' - lastApplied node))
                 (drop (Z.to_nat (lastApplied node)) (log node))
    else [].
Proof.
  intros Hla Hlen H. unfold updateStateMachine in H |- *.
  apply result_bind_Done in H as (mid & Hmid & H).
  rewrite (effects_bind_Done _ _ _ Hmid).
  assert (Hc : mid = node ∨ ∃ j, mid = set_commitIndex j node).
  { destruct (pidEquals _ _); [by eapply commitScan_frame | inv_Done; auto]. }
  assert (Heff : effects (if pidEquals (leader node) (Some (ctxPID act))
                          then commitScan node (length (log node)) else ret node) = []).
  { case_match; [apply commitScan_effects | done]. }
  rewrite Heff. cbn [app].
  assert (Hf : lastApplied mid = lastApplied node ∧ log mid = log node ∧
               config mid = config node)
    by (destruct Hc as [-> | [j ->]]; done).
  destruct Hf as (Hf1 & Hf2 & Hf3).
  pose proof (len_drop (log node) (lastApplied node) ltac:(lia)) as Hdrop.
  rewrite Hf1, Hf2 in *.
  pose proof (applyLoop_spec _ _ _ H ltac:(lia) ltac:(rewrite Hf1; lia))
    as (Hsame & Hla' & _).
  destruct Hsame as (_ & _ & _ & _ & _ & Hci & _).
  rewrite (applyLoop_calls _ _ _ H); [| lia | rewrite Hf1; lia].
  rewrite Hf1, Hf3. split; [lia|]. split; [lia | done].
Qed.

(** B, with three entries and [lastApplied = 1], has [commitIndex] raised
    to 3: entries 2 and 3 are applied. *)
Lemma apply_in_log_order_witness :
  handlerCalls (effects (updateStateMachine Scenario.actB
                           (set_lastApplied 1 (Scenario.followerB 3))))
  = LogEntry.Command
      <$> take (Z.to_nat (3 - 1)) (drop (Z.to_nat 1) (log (Scenario.followerB 3))).
Proof.
  refine (proj2 (proj2 (apply_in_log_order Scenario.actB
            (set_lastApplied 1 (Scenario.followerB 3))
            (set_lastApplied 3 (Scenario.followerB 3)) _ _ _))).
  - closed_Z.
  - closed_Z.
  - vm_compute. reflexivity.
Defined.

Lemma applyLoop_total rest node :
  0 <= lastApplied node →
  commitIndex node <= lastApplied node + len rest →
  commitIndex node <= maxUint64 →
  ∃ node', result (applyLoop rest node) = Done node'.
Proof.
  revert node. induction rest as [|entry rest IH]; intros node H0 Hc Hmax;
    cbn [applyLoop].
  - rewrite len_nil in Hc.
    destruct (commitIndex node >? lastApplied node) eqn:E; [zlia | eauto].
  - destruct (commitIndex node >? lastApplied node) eqn:E; [|eauto].
    rewrite len_cons in Hc.
    erewrite result_bind_Done_l; [|apply applyEntry_spec].
    apply IH; cbn [lastApplied commitIndex set_pendingCommands set_lastApplied];
      rewrite ?wrap64_small; zlia.
Qed.

Lemma applyLoop_panics rest node :
  0 <= lastApplied node →
  lastApplied node + len rest < commitIndex node →
  lastApplied node + len rest <= maxUint64 →
  result (applyLoop rest node) = Panic.
Proof.
  revert node. induction rest as [|entry rest IH]; intros node H0 Hc Hmax;
    cbn [applyLoop].
  - rewrite len_nil in Hc.
    destruct (commitIndex node >? lastApplied node) eqn:E; [done | zlia].
  - rewrite len_cons in Hc, Hmax. pose proof (len_nonneg rest) as Hrest.
    destruct (commitIndex node >? lastApplied node) eqn:E; [|zlia].
    erewrite result_bind_Done_l; [|apply applyEntry_spec].
    apply IH; cbn [lastApplied commitIndex set_pendingCommands set_lastApplied];
      rewrite ?wrap64_small; lia.
Qed.

(** X10. When the advance step panics.  On a state whose counters are
    representable, the advance step panics exactly when [commitIndex] is
    above both [lastApplied] and the length of the log: the apply loop then
    reads an entry the log does not have.  Otherwise it completes. *)
Theorem advance_panics_iff act node :
  0 <= lastApplied node <= maxUint64 →
  0 <= commitIndex node < maxUint64 →
  len (log node) <= maxInt →
  (result (updateStateMachine act node) = Panic
   ↔ lastApplied node < commitIndex node ∧ len (log node) < commitIndex node)
  ∧ (¬ (lastApplied node < commitIndex node ∧ len (log node) < commitIndex node) →
     ∃ node', result (updateStateMachine act node) = Done node').
Proof.
  intros Hla Hci Hlen. pose proof maxInt_lt_maxUint64 as Hmax.
  pose proof (len_drop (log node) (lastApplied node) ltac:(lia)) as Hdrop.
  assert (Hscan : ∃ mid,
    (if pidEquals (leader node) (Some (ctxPID act))
     then commitScan node (length (log node)) else ret node) = ret mid ∧
    lastApplied mid = lastApplied node ∧ log mid = log node ∧
    (mid = node ∨ commitIndex node < commitIndex mid <= len (log node))).
  { destruct (pidEquals _ _).
    - destruct (commitScan_spec node (length (log node))) as (mid & Hs & Hc);
        [lia | lia |].
      exists mid. split; [done|].
      destruct Hc as [(j & Hj & _ & _ & ->) | [_ ->]]; simpl; auto.
    - exists node. auto. }
  destruct Hscan as (mid & Hscan & Hf1 & Hf2 & Hmid).
  unfold updateStateMachine. rewrite Hscan, bind_ret_l, Hf1, Hf2.
  destruct (decide (lastApplied node < commitIndex node ∧ len (log node) < commitIndex node))
    as [[H1 H2] | Hno].
  - assert (mid = node) as -> by (destruct Hmid as [-> | ?]; [done | lia]).
    assert (HP : result (applyLoop (drop (Z.to_nat (lastApplied node)) (log node)) node)
                 = Panic) by (apply applyLoop_panics; lia).
    split; [by split | intros []; by split].
  - destruct (applyLoop_total (drop (Z.to_nat (lastApplied mid)) (log mid)) mid)
      as [node' Hdone].
    + lia.
    + rewrite Hf1, Hf2. destruct Hmid as [-> | ?]; lia.
    + destruct Hmid as [-> | ?]; lia.
    + rewrite Hf1, Hf2 in Hdone. split; [|eauto].
      split; [intros HP; congruence | intros ?; done].
Qed.

(** B after the overwriting message (one entry in the log, [commitIndex = 2],
    [lastApplied = 2]) does not panic; with [lastApplied = 1] it does. *)
Lemma advance_panics_iff_witness :
  result (updateStateMachine Scenario.actB
            (set_lastApplied 1 (set_log [Scenario.entry 2] (Scenario.followerB 2))))
  = Panic.
Proof.
  apply (proj1 (advance_panics_iff Scenario.actB
           (set_lastApplied 1 (set_log [Scenario.entry 2] (Scenario.followerB 2)))
           ltac:(closed_Z) ltac:(closed_Z) ltac:(closed_Z))).
  closed_Z.
Defined.

Lemma scanAccepts_same a b i :
  log a = log b → currentTerm a = currentTerm b → nodes a = nodes b →
  scanAccepts a i ↔ scanAccepts b i.
Proof. unfold scanAccepts, matched. by intros -> -> ->. Qed.

(** X11. The advance step is idempotent.  Run again on the state it has
    produced, it changes nothing and has no effect: the leader's scan finds
    no further index to commit and nothing is left to apply. *)
Theorem advance_idempotent act node node' :
  0 <= lastApplied node <= maxUint64 →
  0 <= commitIndex node < maxUint64 →
  len (log node) <= maxInt →
  result (updateStateMachine act node) = Done node' →
  updateStateMachine act node' = ret node'.
Proof.
  intros Hla Hci Hlen H. pose proof maxInt_lt_maxUint64 as Hmax.
  assert (Hnone : pidEquals (leader node) (Some (ctxPID act)) = true →
                  ∀ j, commitIndex node' < j <= len (log node) → ¬ scanAccepts node j).
  { intros Hl. unfold updateStateMachine in H. rewrite Hl in H.
    destruct (commitScan_spec node (length (log node))) as (mid & Hs & Hc); [lia | lia |].
    rewrite Hs, bind_ret_l in H.
    apply applyLoop_frame in H as (_ & _ & _ & _ & _ & -> & _).
    destruct Hc as [(j & _ & _ & Hmaxj & ->) | [Hn ->]]; done. }
  apply updateStateMachine_spec in H
    as (_ & Hld & Hct & _ & Hlog & _ & Hnd & Hc & Hla' & Hin & _); [|lia..].
  assert (Hci' : 0 <= commitIndex node' < maxUint64)
    by (destruct Hc as [-> | (_ & ? & _)]; lia).
  unfold updateStateMachine. rewrite Hld.
  assert (Hscan : (if pidEquals (leader node) (Some (ctxPID act))
                   then commitScan node' (length (log node')) else ret node') = ret node').
  { destruct (pidEquals (leader node) (Some (ctxPID act))) eqn:Hl; [|done].
    destruct (commitScan_spec node' (length (log node'))) as (mid & -> & Hcase);
      [lia | lia |].
    destruct Hcase as [(j & Hj & Hacc & _) | [_ ->]]; [|done].
    exfalso. apply (Hnone eq_refl j); [unfold len; rewrite <- Hlog; lia|].
    by apply (scanAccepts_same node' node). }
  rewrite Hscan, bind_ret_l.
  destruct (drop (Z.to_nat (lastApplied node')) (log node')); cbn [applyLoop];
    (destruct (commitIndex node' >? lastApplied node') eqn:E; [zlia | done]).
Qed.

(** The leader A, with both peers at index 1, commits and applies index 1;
    a second advance step finds nothing to do. *)
Lemma advance_idempotent_witness :
  updateStateMachine Scenario.actA
    (set_lastApplied 1 (set_commitIndex 1 (Scenario.leaderA 1 1)))
  = ret (set_lastApplied 1 (set_commitIndex 1 (Scenario.leaderA 1 1))).
Proof.
  apply (advance_idempotent Scenario.actA (Scenario.leaderA 1 1)).
  - closed_Z.
  - closed_Z.
  - closed_Z.
  - vm_compute. reflexivity.
Defined.

(** ** Votes *)

Lemma handleRequestVoteBody_granted_term act msg node node' :
  result (handleRequestVoteBody act msg node) = Done (node', true) →
  currentTerm node <= RequestVote.Term msg ∧
  node' = set_votedFor (Some (RequestVote.CandidatePID msg)) node.
Proof.
  intros H. split.
  - unfold handleRequestVoteBody in H.
    destruct (RequestVote.Term msg <? currentTerm node) eqn:E; [by inv_Done | zlia].
  - by apply handleRequestVoteBody_spec in H as [[? _] | [_ ->]].
Qed.

(** X12. One vote per term.  Once a node has granted its vote to a
    candidate, a [RequestVote] of the same or an earlier term from another
    candidate is refused: the state stays as it is and the reply carries
    [VoteGranted = false] and the node's term. *)
Theorem one_vote_per_term act1 act2 m1 m2 node node1 :
  result (Receive act1 (MsgRequestVote m1) node) = Done node1 →
  (∃ t, Send (ctxSender act1)
          (MsgRequestVoteResult (RequestVoteResult.mk t true))
          ∈ effects (Receive act1 (MsgRequestVote m1) node)) →
  RequestVote.Term m2 <= RequestVote.Term m1 →
  RequestVote.CandidatePID m2 ≠ RequestVote.CandidatePID m1 →
  votedFor node1 = Some (RequestVote.CandidatePID m1) ∧
  currentTerm node1 = RequestVote.Term m1 ∧
  dispatch act2 (MsgRequestVote m2) node1
  = mkM (Done node1)
        [Send (ctxSender act2)
           (MsgRequestVoteResult (RequestVoteResult.mk (RequestVote.Term m1) false))].
Proof.
  intros H (t & Hin) Hterm Hcand.
  apply Receive_Done in H as (mid & Hd & Hu).
  rewrite (Receive_effects _ _ _ _ Hd) in Hin.
  apply elem_of_app in Hin as [Hin | Hin];
    [| exfalso; revert Hin; apply not_apply_effect_in_advance; intros []].
  cbn [dispatch] in Hd, Hin. rewrite handleRequestVote_defer in Hd, Hin.
  cbn [result effects] in Hd, Hin.
  apply list_elem_of_singleton in Hin. injection Hin as _ Hok.
  set (n0 := handleExternalTerm (RequestVote.Term m1) node) in *.
  destruct (result (handleRequestVoteBody act1 m1 n0)) as [[n' g]|] eqn:Hb; [|done].
  cbn [successOf] in Hok. subst g. injection Hd as <-.
  apply handleRequestVoteBody_granted_term in Hb as [Hle ->].
  apply updateStateMachine_frame in Hu as (_ & _ & Hct & Hvf & _).
  cbn [currentTerm votedFor set_votedFor] in Hct, Hvf.
  assert (Hct0 : currentTerm n0 = RequestVote.Term m1).
  { subst n0. rewrite handleExternalTerm_currentTerm in Hle |- *. lia. }
  rewrite Hct0 in Hct.
  split; [done|]. split; [done|].
  cbn [dispatch]. rewrite handleExternalTerm_keep by lia.
  rewrite handleRequestVote_defer. unfold handleRequestVoteBody.
  rewrite Hct, Hvf.
  destruct (RequestVote.Term m2 <? RequestVote.Term m1); [done|].
  rewrite (bool_decide_eq_false_2 (Some _ = None)) by done.
  rewrite bool_decide_eq_false_2; [done|].
  unfold PID_String. simpl. intros [= ?]. by apply Hcand.
Qed.

(** B has granted its vote to C in term 2; A's request for term 2 is
    refused. *)
Lemma one_vote_per_term_witness :
  dispatch Scenario.actB (MsgRequestVote (RequestVote.mk 2 "A"%string 9 9))
    (set_votedFor (Some "C"%string)
       (set_leader None (set_currentTerm 2 (Scenario.followerB 5))))
  = mkM (Done (set_votedFor (Some "C"%string)
                 (set_leader None (set_currentTerm 2 (Scenario.followerB 5)))))
        [Send (Some "A"%string)
           (MsgRequestVoteResult (RequestVoteResult.mk 2 false))].
Proof.
  refine (proj2 (proj2 (one_vote_per_term Scenario.actB Scenario.actB
            (RequestVote.mk 2 "C"%string 5 1) (RequestVote.mk 2 "A"%string 9 9)
            (Scenario.followerB 5) _ _ _ _ _))).
  - vm_compute. reflexivity.
  - exists 2. vm_compute. apply list_elem_of_In. simpl. auto.
  - closed_Z.
  - discriminate.
Defined.

(** X13. A grant from a later term is counted.  A granted
    [RequestVoteResult] whose term is above [currentTerm] first advances
    the node's term (clearing [leader] and [votedFor]) and then, its term
    now being the current one, increments [votes], which the term advance
    does not reset; the node becomes leader of that term when twice the
    count exceeds the number of peers, without having started an election
    in it. *)
Theorem later_term_grant_counted act msg node :
  currentTerm node < RequestVoteResult.Term msg →
  RequestVoteResult.VoteGranted msg = true →
  0 <= votes node < maxUint64 →
  len (log node) <= maxInt →
  ∃ mid,
    result (dispatch act (MsgRequestVoteResult msg) node) = Done mid ∧
    currentTerm mid = RequestVoteResult.Term msg ∧
    votes mid = votes node + 1 ∧
    votedFor mid = None ∧
    (Z.of_nat (size (nodes node)) < 2 ^ 24 → votes node + 1 < 2 ^ 24 →
     leader mid = if Z.of_nat (size (nodes node)) <? 2 * (votes node + 1)
                  then Some (ctxPID act) else None).
Proof.
  intros Ht Hg Hv Hlen. cbn [dispatch].
  set (n0 := handleExternalTerm (RequestVoteResult.Term msg) node).
  destruct (handleExternalTerm_advance (RequestVoteResult.Term msg) node ltac:(lia))
    as (Hct & Hld & Hvf).
  destruct (handleExternalTerm_frame (RequestVoteResult.Term msg) node)
    as (_ & Hlog & _ & _ & Hvotes & Hnodes & _).
  fold n0 in Hct, Hld, Hvf, Hlog, Hvotes, Hnodes.
  rewrite (handleRequestVoteResult_counted act msg n0); [| done | done | | by rewrite Hlog].
  2: { by rewrite Hld. }
  rewrite Hvotes, Hnodes, (wrap64_small (votes node + 1)) by lia.
  eexists. split; [reflexivity|].
  unfold promote.
  destruct (votesOverHalf (votes node + 1) (size (nodes node))) eqn:E; simpl;
    rewrite ?Hvotes, ?(wrap64_small (votes node + 1)) by lia;
    (repeat split; try done; intros Hn Hv'; rewrite votesOverHalf_small in E by lia;
     by rewrite E).
Qed.

(** A in term 2 with one vote, in a cluster of three, takes a grant of
    term 7 and leads term 7. *)
Lemma later_term_grant_counted_witness :
  ∃ mid,
    result (dispatch Scenario.actA (MsgRequestVoteResult (RequestVoteResult.mk 7 true))
              (set_nodes (Scenario.peersOfA 0 0) Scenario.candidateA5)) = Done mid ∧
    currentTerm mid = 7 ∧ votes mid = 2.
Proof.
  destruct (later_term_grant_counted Scenario.actA (RequestVoteResult.mk 7 true)
              (set_nodes (Scenario.peersOfA 0 0) Scenario.candidateA5))
    as (mid & Hd & Hct & Hv & _).
  - closed_Z.
  - reflexivity.
  - closed_Z.
  - closed_Z.
  - exists mid. split; [exact Hd|]. split; [exact Hct | exact Hv].
Defined.

(** ** Election ticks *)

Lemma pidEquals_sym a b : pidEquals a b = pidEquals b a.
Proof.
  destruct a, b; simpl; try done.
  apply bool_decide_ext. split; congruence.
Qed.

Lemma updateStateMachine_idle act node :
  pidEquals (leader node) (Some (ctxPID act)) = false →
  commitIndex node <= lastApplied node →
  updateStateMachine act node = ret node.
Proof.
  intros Hl Hc. unfold updateStateMachine. rewrite Hl, bind_ret_l.
  destruct (drop _ _); cbn [applyLoop];
    (destruct (commitIndex node >? lastApplied node) eqn:E; [zlia | done]).
Qed.

Lemma election_tick act node :
  ctxReady act = Some ElectionTimer →
  pidEquals (leader node) (Some (ctxPID act)) = false →
  commitIndex node <= lastApplied node →
  result (Receive act checkTimers node)
  = Done (set_votedFor (Some (ctxPID act))
            (set_votes 1 (set_currentTerm (wrap64 (currentTerm node + 1)) node))).
Proof.
  intros Hr Hl Hc. apply Receive_Done. eexists. split.
  - cbn [dispatch]. unfold handleCheckTimers. rewrite Hr, pidEquals_sym, Hl. cbn [negb].
    apply result_bind_Done. eexists. split; [|done].
    apply result_bind_Done. exists tt. split; [done|]. apply startElection_spec.
  - rewrite updateStateMachine_idle; done.
Qed.

(** X16. Election ticks raise the term without bound.  On a node that is
    not leader and has nothing to apply, each [checkTimers] tick that finds
    the election timer fired starts an election: after [n] such ticks the
    term has grown by [n], the node has voted for itself with [votes = 1],
    and it is still not leader; the log, [commitIndex] and [lastApplied]
    are as before.  This holds whatever the number of peers, also below the
    three servers an election needs. *)
Theorem election_ticks_raise_term act (n : nat) node :
  ctxReady act = Some ElectionTimer →
  pidEquals (leader node) (Some (ctxPID act)) = false →
  commitIndex node <= lastApplied node →
  0 <= currentTerm node →
  currentTerm node + Z.of_nat n <= maxUint64 →
  ∃ node',
    handleAll (replicate n (act, checkTimers)) node = Done node' ∧
    currentTerm node' = currentTerm node + Z.of_nat n ∧
    leader node' = leader node ∧
    log node' = log node ∧ commitIndex node' = commitIndex node ∧
    lastApplied node' = lastApplied node ∧ nodes node' = nodes node ∧
    ((0 < n)%nat → votedFor node' = Some (ctxPID act) ∧ votes node' = 1).
Proof.
  intros Hr. revert node. induction n as [|n IH]; intros node Hl Hc H0 Hmax.
  - exists node. rewrite Z.add_0_r. repeat split; try done; lia.
  - unfold handleAll. cbn [replicate foldl deliver fst snd].
    rewrite election_tick by done.
    set (node1 := set_votedFor _ _).
    destruct (IH node1) as (node' & Hrun & Hct & Hld & Hlog & Hci & Hla & Hnd & Hv);
      subst node1; cbn [leader commitIndex lastApplied currentTerm set_votedFor set_votes
                        set_currentTerm] in *; try done.
    + rewrite wrap64_small; lia.
    + rewrite wrap64_small; lia.
    + exists node'. split; [exact Hrun|].
      rewrite wrap64_small in Hct by lia.
      split; [lia|]. repeat (split; [done|]).
      intros _. destruct n as [|n]; [|apply Hv; lia].
      unfold handleAll in Hrun. simpl in Hrun. by injection Hrun as <-.
Qed.

(** B alone (no peers) lets its election timer fire three times. *)
Lemma election_ticks_raise_term_witness :
  ∃ node',
    handleAll (replicate 3 (mkContext "B"%string None (Some ElectionTimer), checkTimers))
      (Scenario.followerB 0) = Done node' ∧
    currentTerm node' = currentTerm (Scenario.followerB 0) + Z.of_nat 3.
Proof.
  destruct (election_ticks_raise_term (mkContext "B"%string None (Some ElectionTimer)) 3
              (Scenario.followerB 0)) as (node' & Hrun & Hct & _).
  - reflexivity.
  - reflexivity.
  - closed_Z.
  - closed_Z.
  - closed_Z.
  - exists node'. split; [exact Hrun | exact Hct].
Defined.

Lemma filter_isRequestVoteSend_apply l :
  Forall isApplyEffect l → List.filter isRequestVoteSend l = [].
Proof.
  induction 1 as [|e l He _ IH]; [done|]. simpl. rewrite IH.
  destruct e as [to m| | | | |]; try done. by destruct m.
Qed.

Lemma filter_isRequestVoteSend_requests act node mds :
  List.filter isRequestVoteSend (requestVoteTo act node <$> mds)
  = requestVoteTo act node <$> mds.
Proof.
  induction mds as [|md mds IH]; [done|].
  cbn [fmap list_fmap List.filter]. unfold requestVoteTo at 1.
  destruct (lastLogIndexAndTerm node). cbn [isRequestVoteSend].
  f_equal. exact IH.
Qed.

(** X17. Who is asked for a vote.  An election tick on a node that is not
    leader sends no [RequestVote] at all when the node knows fewer than two
    peers (fewer than three servers), and otherwise one [RequestVote] per
    peer of the table, each carrying the new term, the node as candidate
    and the node's [lastLogIndex] and [lastLogTerm]. *)
Theorem election_tick_requests act node :
  ctxReady act = Some ElectionTimer →
  pidEquals (leader node) (Some (ctxPID act)) = false →
  List.filter isRequestVoteSend (effects (Receive act checkTimers node))
  = if Z.of_nat (size (nodes node)) + 1 <? 3 then []
    else (λ md : nodeMetadata,
            Send (Some (pid md))
              (MsgRequestVote
                 (RequestVote.mk (wrap64 (currentTerm node + 1)) (ctxPID act)
                    (lastLogIndexAndTerm node).1 (lastLogIndexAndTerm node).2)))
         <$> (snd <$> map_to_list (nodes node)).
Proof.
  intros Hr Hl. rewrite Receive_effects_cases, List.filter_app.
  assert (Hadv : List.filter isRequestVoteSend
            match result (dispatch act checkTimers node) with
            | Done mid => effects (updateStateMachine act mid)
            | Panic => []
            end = []).
  { destruct (result (dispatch act checkTimers node)); [|done].
    apply filter_isRequestVoteSend_apply, updateStateMachine_effects. }
  rewrite Hadv, app_nil_r. cbn [dispatch]. unfold handleCheckTimers.
  rewrite Hr, pidEquals_sym, Hl. cbn [negb].
  unfold startElection, minServersForElection. cbn [nodes set_votedFor set_votes set_currentTerm].
  destruct (Z.of_nat (size (nodes node)) + 1 <? 3); [done|].
  unfold mbind, M_bind, bind. cbn [result effects emit ret app].
  cbn [List.filter isRequestVoteSend].
  rewrite List.filter_app. cbn [List.filter isRequestVoteSend app].
  rewrite app_nil_r, filter_isRequestVoteSend_requests.
  apply list_fmap_ext. intros i md _. unfold requestVoteTo.
  by destruct (lastLogIndexAndTerm _) eqn:E.
Qed.

(** A, a candidate among five, asks its four peers. *)
Lemma election_tick_requests_witness :
  length (List.filter isRequestVoteSend
            (effects (Receive (mkContext "A"%string None (Some ElectionTimer)) checkTimers
                        Scenario.candidateA5))) = 4%nat.
Proof.
  rewrite (election_tick_requests (mkContext "A"%string None (Some ElectionTimer))
             Scenario.candidateA5 eq_refl eq_refl).
  vm_compute. reflexivity.
Defined.

(** ** [handleActiveNodes]: the table as a function of the listed set *)

Lemma foldl_addNode_size act lastLogIndex l tbl :
  (size (foldl (addNode act lastLogIndex) tbl l) ≤ size tbl + length l)%nat.
Proof.
  revert tbl. induction l as [|p l IH]; intros tbl; cbn [foldl length]; [lia|].
  etrans; [apply IH|]. unfold addNode.
  destruct (negb _); [|lia].
  destruct (tbl !! PID_String p) eqn:E; [lia|].
  rewrite map_size_insert_None by done. lia.
Qed.

(** X18. The peer table after an [ActiveNodes] update depends only on the
    set of listed nodes and on the length of the log: two updates listing
    the same nodes, in any order and with any repetitions, leave the same
    state; and the table has at most as many entries as the update lists
    nodes. *)
Theorem ActiveNodes_depends_on_set act msg1 msg2 node :
  (∀ p, p ∈ ActiveNodes.Nodes msg1 ↔ p ∈ ActiveNodes.Nodes msg2) →
  handleActiveNodes act msg1 node = handleActiveNodes act msg2 node
  ∧ (size (nodes (handleActiveNodes act msg1 node)) ≤ length (ActiveNodes.Nodes msg1))%nat.
Proof.
  intros Hsame. split.
  - unfold handleActiveNodes. f_equal. apply map_eq. intros k.
    rewrite !foldl_addNode, !lookup_empty.
    apply decide_ext. by rewrite Hsame.
  - unfold handleActiveNodes. cbn [nodes set_nodes].
    etrans; [apply foldl_addNode_size|]. by rewrite map_size_empty.
Qed.

(** The update lists C, B, A, B; the table is that of A, B, C. *)
Lemma ActiveNodes_depends_on_set_witness :
  handleActiveNodes Scenario.actA (ActiveNodes.mk ["C"; "B"; "A"; "B"]%string)
    (Scenario.leaderA 1 1)
  = handleActiveNodes Scenario.actA (ActiveNodes.mk ["A"; "B"; "C"]%string)
      (Scenario.leaderA 1 1).
Proof.
  apply (ActiveNodes_depends_on_set Scenario.actA
           (ActiveNodes.mk ["C"; "B"; "A"; "B"]%string)
           (ActiveNodes.mk ["A"; "B"; "C"]%string) (Scenario.leaderA 1 1)).
  intros p. cbn [ActiveNodes.Nodes]. rewrite !list_elem_of_In. simpl. tauto.
Defined.

(** ** Broadcasts of the leader *)

Lemma leaderA_table matchB matchC k md :
  nodes (Scenario.leaderA matchB matchC) !! k = Some md →
  PID_String (pid md) = k ∧ nextIndex md = 2.
Proof.
  cbn [nodes Scenario.leaderA]. unfold Scenario.peersOfA. intros H.
  apply lookup_insert_Some in H as [[<- <-] | [_ H]]; [done|].
  apply lookup_insert_Some in H as [[<- <-] | [_ H]]; [done|].
  by rewrite lookup_empty in H.
Qed.

Lemma sendAppendEntriesEach_in_log act node mds :
  (∀ md, md ∈ mds → nodes node !! PID_String (pid md) = Some md) →
  cursorsInLog node → len (log node) <= maxInt →
  sendAppendEntriesEach act node mds
  = mkM (Done tt)
        ((λ md, Send (Some (pid md)) (MsgAppendEntries (appendEntriesFor act node md)))
         <$> mds).
Proof.
  intros Hin Hc Hlen. induction mds as [|md mds IH]; [done|].
  cbn [sendAppendEntriesEach].
  rewrite (sendAppendEntries_in_log act node (pid md) md);
    [| apply Hin; by left | eapply Hc, Hin; by left | done].
  rewrite IH by (intros md' Hmd'; apply Hin; by right).
  done.
Qed.

Lemma sendAppendEntriesAll_in_log act node :
  tableConsistent node → cursorsInLog node → len (log node) <= maxInt →
  sendAppendEntriesAll act node
  = mkM (Done tt)
        ((λ md, Send (Some (pid md)) (MsgAppendEntries (appendEntriesFor act node md)))
         <$> (snd <$> map_to_list (nodes node))).
Proof.
  intros Ht Hc Hlen. unfold sendAppendEntriesAll.
  apply sendAppendEntriesEach_in_log; [|done..].
  intros md Hmd. apply list_elem_of_fmap in Hmd as ([k md'] & -> & Hk).
  apply elem_of_map_to_list in Hk. cbn [snd]. by rewrite (Ht _ _ Hk).
Qed.

(** X19. A client command.  A node that is not leader leaves its state
    alone and answers [CommandResult{success = false}] with the leader it
    knows.  A leader whose cursors are within its log appends one entry
    with the command and its current term, records the client under the
    new last index, and sends every peer one [AppendEntries] built on the
    extended log, whose last entry is the new one. *)
Theorem Command_handling act msg node :
  (pidEquals (leader node) (Some (ctxPID act)) = false →
   dispatch act (MsgCommand msg) node
   = mkM (Done node)
         [Send (ctxSender act) (MsgCommandResult (CommandResult.mk false (leader node)))])
  ∧ (pidEquals (leader node) (Some (ctxPID act)) = true →
     tableConsistent node → cursorsInLog node → len (log node) < maxInt →
     let entry := LogEntry.mk (Command.Command msg) (currentTerm node) in
     let node' :=
       set_pendingCommands
         (<[len (log node) + 1 := mkCommandMetadata (ctxSender act)]> (pendingCommands node))
         (set_log (log node ++ [entry]) node) in
     dispatch act (MsgCommand msg) node
     = mkM (Done node')
           ((λ md, Send (Some (pid md)) (MsgAppendEntries (appendEntriesFor act node' md)))
            <$> (snd <$> map_to_list (nodes node)))
     ∧ ∀ k md, nodes node !! k = Some md →
         last (AppendEntries.Entries (appendEntriesFor act node' md)) = Some entry).
Proof.
  split.
  - intros Hl. cbn [dispatch]. unfold handleCommand. by rewrite Hl.
  - intros Hl Ht Hc Hlen. cbn zeta. cbn [dispatch]. unfold handleCommand. rewrite Hl.
    cbn [log set_log pendingCommands]. rewrite len_app.
    set (node' := set_pendingCommands _ _).
    assert (Hc' : cursorsInLog node').
    { intros k md Hk. specialize (Hc k md Hk). subst node'. cbn [log set_pendingCommands set_log].
      rewrite len_app. lia. }
    split.
    + rewrite sendAppendEntriesAll_in_log; [| done | done |].
      * unfold mbind, M_bind, bind. cbn [result effects ret].
        by rewrite app_nil_r.
      * subst node'. cbn [log set_pendingCommands set_log]. rewrite len_app. lia.
    + intros k md Hk. specialize (Hc k md Hk).
      unfold appendEntriesFor. cbn [AppendEntries.Entries]. subst node'.
      cbn [log set_pendingCommands set_log].
      rewrite drop_app_le by (unfold len in *; lia).
      apply last_snoc.
Qed.

(** A follower of A redirects the client to A; the leader A appends the
    command as its second entry and sends to B and C. *)
Lemma Command_handling_witness :
  dispatch Scenario.actB (MsgCommand (Command.mk "y=2")) (Scenario.followerB 2)
  = mkM (Done (Scenario.followerB 2))
        [Send (Some "A"%string)
           (MsgCommandResult (CommandResult.mk false (Some "A"%string)))]
  ∧ ∃ node' out,
      dispatch Scenario.actA (MsgCommand (Command.mk "y=2")) (Scenario.leaderA 1 1)
      = mkM (Done node') out ∧
      log node' = [Scenario.entry 1; LogEntry.mk "y=2" 1] ∧
      length out = 2%nat.
Proof.
  split.
  { apply (proj1 (Command_handling Scenario.actB (Command.mk "y=2")
                    (Scenario.followerB 2))).
    reflexivity. }
  destruct (proj2 (Command_handling Scenario.actA (Command.mk "y=2")
                     (Scenario.leaderA 1 1))) as [Hd _].
  - reflexivity.
  - intros k md H. by apply leaderA_table in H as [? _].
  - intros k md H. apply leaderA_table in H as [_ ->]. closed_Z.
  - closed_Z.
  - eexists _, _. split; [exact Hd|]. split; [reflexivity|].
    rewrite !length_fmap. vm_compute. reflexivity.
Defined.

(** X20. Heartbeats.  A [checkTimers] tick that finds the heartbeat timer
    fired re-arms it and schedules the next tick; a leader whose cursors
    are within its log then sends one [AppendEntries] to every peer and
    keeps its state, and a node that is not leader sends none. *)
Theorem heartbeat_tick act node :
  ctxReady act = Some HeartbeatTimer →
  (pidEquals (leader node) (Some (ctxPID act)) = false →
   dispatch act checkTimers node
   = mkM (Done node) [TimerReset HeartbeatTimer; SendWithDelay (ctxPID act) checkTimers])
  ∧ (pidEquals (leader node) (Some (ctxPID act)) = true →
     tableConsistent node → cursorsInLog node → len (log node) <= maxInt →
     dispatch act checkTimers node
     = mkM (Done node)
           ([TimerReset HeartbeatTimer]
            ++ ((λ md, Send (Some (pid md)) (MsgAppendEntries (appendEntriesFor act node md)))
                <$> (snd <$> map_to_list (nodes node)))
            ++ [SendWithDelay (ctxPID act) checkTimers])).
Proof.
  intros Hr. cbn [dispatch]. unfold handleCheckTimers. rewrite Hr. split.
  - by intros ->.
  - intros -> Ht Hc Hlen. rewrite sendAppendEntriesAll_in_log by done.
    unfold mbind, M_bind, bind. cbn [result effects emit ret app].
    by rewrite !app_nil_r.
Qed.

(** B, a follower, only re-arms the timer; the leader A also sends to B
    and C. *)
Lemma heartbeat_tick_witness :
  dispatch (mkContext "B"%string None (Some HeartbeatTimer)) checkTimers
    (Scenario.followerB 2)
  = mkM (Done (Scenario.followerB 2))
        [TimerReset HeartbeatTimer; SendWithDelay "B"%string checkTimers]
  ∧ ∃ out,
      dispatch (mkContext "A"%string None (Some HeartbeatTimer)) checkTimers
        (Scenario.leaderA 1 1)
      = mkM (Done (Scenario.leaderA 1 1)) out ∧
      length out = 4%nat.
Proof.
  split.
  { apply (proj1 (heartbeat_tick (mkContext "B"%string None (Some HeartbeatTimer))
                    (Scenario.followerB 2) eq_refl)).
    reflexivity. }
  eexists. split.
  - apply (proj2 (heartbeat_tick (mkContext "A"%string None (Some HeartbeatTimer))
                    (Scenario.leaderA 1 1) eq_refl)).
    + reflexivity.
    + intros k md H. by apply leaderA_table in H as [? _].
    + intros k md H. apply leaderA_table in H as [_ ->]. closed_Z.
    + closed_Z.
  - rewrite !length_app, !length_fmap. vm_compute. reflexivity.
Defined.

(** ** Runs without [AppendEntries] *)

Lemma updateStateMachine_total act node :
  0 <= lastApplied node <= len (log node) →
  0 <= commitIndex node <= len (log node) →
  len (log node) <= maxInt →
  ∃ node', result (updateStateMachine act node) = Done node'.
Proof.
  intros Hla Hci Hlen. pose proof maxInt_lt_maxUint64 as Hmax.
  pose proof (len_drop (log node) (lastApplied node) ltac:(lia)) as Hdrop.
  assert (Hscan : ∃ mid,
    (if pidEquals (leader node) (Some (ctxPID act))
     then commitScan node (length (log node)) else ret node) = ret mid ∧
    lastApplied mid = lastApplied node ∧ log mid = log node ∧
    (mid = node ∨ commitIndex node < commitIndex mid <= len (log node))).
  { destruct (pidEquals _ _).
    - destruct (commitScan_spec node (length (log node))) as (mid & Hs & Hc);
        [lia | lia |].
      exists mid. split; [done|].
      destruct Hc as [(j & Hj & _ & _ & ->) | [_ ->]]; simpl; auto.
    - exists node. auto. }
  destruct Hscan as (mid & Hscan & Hf1 & Hf2 & Hmid).
  unfold updateStateMachine. rewrite Hscan, bind_ret_l.
  apply applyLoop_total; rewrite ?Hf1, ?Hf2; destruct Hmid as [-> | ?]; lia.
Qed.

Lemma wellFormed_after_advance act mid node' :
  result (updateStateMachine act mid) = Done node' →
  wellFormed mid → len (log mid) <= maxInt →
  wellFormed node' ∧ log node' = log mid.
Proof.
  intros Hd (Ht & Hc & Hla & Hci) Hlen. pose proof maxInt_lt_maxUint64 as Hmax.
  destruct (updateStateMachine_spec _ _ _ Hd ltac:(lia) ltac:(lia) ltac:(lia))
    as (_ & _ & _ & _ & Hlog & _ & Hn & Hcommit & Happ & _).
  split; [|done]. unfold wellFormed, tableConsistent, cursorsInLog.
  rewrite Hn, Hlog.
  split; [exact Ht|]. split; [exact Hc|].
  destruct Hcommit as [Hsame | (_ & ? & _)]; lia.
Qed.

Lemma insert_tableOK node key md (tbl := <[key := md]> (nodes node)) :
  tableConsistent node → cursorsInLog node →
  PID_String (pid md) = key → 1 <= nextIndex md <= len (log node) + 1 →
  tableConsistent (set_nodes tbl node) ∧ cursorsInLog (set_nodes tbl node).
Proof.
  intros Ht Hc Hk Hn. subst tbl.
  split; intros k md'; cbn [nodes log set_nodes]; intros Hl;
    apply lookup_insert_Some in Hl as [[<- <-] | [_ Hl]]; eauto.
Qed.

Lemma dispatch_wellFormed act msg node :
  wellFormed node → len (log node) < maxInt → notAppendEntries msg →
  ∃ mid, result (dispatch act msg node) = Done mid ∧
         tableConsistent mid ∧ cursorsInLog mid.
Proof.
  intros (Ht & Hc & Hla & Hci) Hlen Hmsg. pose proof maxInt_lt_maxUint64 as Hmax.
  pose proof (len_nonneg (log node)) as Hnn.
  destruct msg as [ | | | t | | | t | t | t | t | t | t | ]; cbn [dispatch];
    try (by exists node).
  - (* Initialized *)
    eexists. split; [done|]. split; intros k md; cbn [nodes set_pendingCommands set_nodes];
      by rewrite lookup_empty.
  - (* ActiveNodes *)
    eexists. split; [done|]. unfold handleActiveNodes.
    unfold lastLogIndexAndTerm.
    split; intros k md; cbn [nodes log set_nodes fst];
      rewrite foldl_addNode, lookup_empty; case_decide; intros [= <-]; cbn [pid nextIndex];
      [done | rewrite wrap64_small; lia].
  - (* Command *)
    unfold handleCommand. destruct (pidEquals _ _); [|by exists node].
    set (node' := set_pendingCommands _ _).
    assert (Hc' : cursorsInLog node').
    { intros k md Hk. specialize (Hc k md Hk). subst node'.
      cbn [log set_pendingCommands set_log]. rewrite len_app. lia. }
    exists node'. split; [|done].
    unfold sendAppendEntriesAll.
    erewrite result_bind_Done_l; [done|].
    apply sendAppendEntriesEach_Done; [done|].
    subst node'. cbn [log set_pendingCommands set_log]. rewrite len_app. lia.
  - (* AppendEntries *)
    by destruct (Hmsg t).
  - (* AppendEntriesResult *)
    pose proof (handleExternalTerm_frame (AppendEntriesResult.Term t) node) as Hf.
    cbn zeta in Hf. destruct Hf as (_ & Hlog & _ & _ & _ & Hn & _).
    set (n1 := handleExternalTerm _ node) in *.
    assert (Ht1 : tableConsistent n1) by (unfold tableConsistent; by rewrite Hn).
    assert (Hc1 : cursorsInLog n1) by (unfold cursorsInLog; by rewrite Hn, Hlog).
    assert (Hlen1 : len (log n1) = len (log node)) by (by rewrite Hlog).
    unfold handleAppendEntriesResult.
    destruct (nodes n1 !! actormq_PID_String (AppendEntriesResult.PID t)) as [md|] eqn:Hmd;
      [|by exists n1].
    pose proof (Ht1 _ _ Hmd) as Hkey. pose proof (Hc1 _ _ Hmd) as Hcur.
    destruct (AppendEntriesResult.Success t).
    + eexists. split; [done|].
      apply insert_tableOK; [done | done | done |].
      unfold lastLogIndexAndTerm. cbn [nextIndex fst]. rewrite wrap64_small; lia.
    + set (md' := if nextIndex md >? 1 then _ else md).
      assert (Hmd' : PID_String (pid md') = actormq_PID_String (AppendEntriesResult.PID t)
                     ∧ 1 <= nextIndex md' <= len (log n1) + 1).
      { subst md'. destruct (nextIndex md >? 1) eqn:E; [|done].
        cbn [pid nextIndex]. split; [done|]. rewrite wrap64_small; zlia. }
      destruct Hmd' as [Hk' Hn'].
      destruct (insert_tableOK n1 (actormq_PID_String (AppendEntriesResult.PID t)) md'
                  Ht1 Hc1 Hk' Hn') as [Ht2 Hc2].
      eexists. split; [|split; [exact Ht2 | exact Hc2]].
      erewrite result_bind_Done_l; [done|].
      apply sendAppendEntries_Done; [done|]. cbn [log set_nodes]. lia.
  - (* RequestVote *)
    pose proof (handleExternalTerm_frame (RequestVote.Term t) node) as Hf.
    cbn zeta in Hf. destruct Hf as (_ & Hlog & _ & Hla1 & _ & Hn & _).
    set (n1 := handleExternalTerm _ node) in *.
    assert (Ht1 : tableConsistent n1) by (unfold tableConsistent; by rewrite Hn).
    assert (Hc1 : cursorsInLog n1) by (unfold cursorsInLog; by rewrite Hn, Hlog).
    assert (Hlen1 : len (log n1) = len (log node)) by (by rewrite Hlog).
    assert (Hbody : ∃ n2 b, result (handleRequestVoteBody act t n1) = Done (n2, b)).
    { unfold handleRequestVoteBody.
      destruct (_ <? _); [by eexists _, _|].
      destruct (_ || _); [|by eexists _, _].
      destruct (_ >=? _); [|by eexists _, _].
      destruct (lastApplied n1 =? 0) eqn:E0; [by eexists _, _|].
      destruct (index_in_range (log n1) (wrap64 (lastApplied n1 - 1))) as [e [He _]].
      { rewrite wrap64_small; zlia. }
      rewrite He. rewrite bind_ret_l.
      destruct (_ >=? _); by eexists _, _. }
    destruct Hbody as (n2 & b & Hbody).
    assert (Hd : result (handleRequestVote act t n1) = Done n2).
    { unfold handleRequestVote.
      rewrite (result_bind_Done_l _ _ (n2, b)); [done|]. by rewrite result_defer. }
    exists n2. split; [done|].
    destruct (handleRequestVote_spec _ _ _ _ Hd) as [-> | ->]; done.
  - (* RequestVoteResult *)
    pose proof (handleExternalTerm_frame (RequestVoteResult.Term t) node) as Hf.
    cbn zeta in Hf. destruct Hf as (_ & Hlog & _ & _ & _ & Hn & _).
    set (n1 := handleExternalTerm _ node) in *.
    assert (Ht1 : tableConsistent n1) by (unfold tableConsistent; by rewrite Hn).
    assert (Hc1 : cursorsInLog n1) by (unfold cursorsInLog; by rewrite Hn, Hlog).
    assert (Hlen1 : len (log n1) = len (log node)) by (by rewrite Hlog).
    unfold handleRequestVoteResult.
    destruct (_ && _); [|by exists n1].
    cbn [votes nodes set_votes]. destruct (votesOverHalf _ _); [|by eexists].
    exists (promote act n1).
    assert (Hp : cursorsInLog (promote act n1))
      by (apply promote_cursorsInLog; lia).
    split; [|split; [|done]].
    + erewrite result_bind_Done_l; [done|].
      apply sendAppendEntriesEach_Done; [done|]. cbn [log set_nodes set_leader set_votes]. lia.
    + intros k md. unfold promote. cbn [nodes set_nodes]. rewrite lookup_fmap.
      destruct (nodes n1 !! k) as [md0|] eqn:E; [|done].
      intros [= <-]. cbn [resetCursor pid]. eauto.
  - (* checkTimers *)
    unfold handleCheckTimers. destruct (ctxReady act) as [[]|].
    + (* election timer *)
      cbn [negb]. destruct (negb _).
      * unfold mbind, M_bind, bind. cbn [result effects emit].
        rewrite startElection_spec. cbn [result ret].
        eexists. split; [done|]. done.
      * by exists node.
    + destruct (pidEquals _ _); [|by exists node].
      exists node. split; [|done].
      unfold mbind, M_bind, bind. cbn [result effects emit].
      unfold sendAppendEntriesAll.
      rewrite sendAppendEntriesEach_Done; [done | done | lia].
    + by exists node.
Qed.

Lemma Receive_wellFormed act msg node :
  wellFormed node → len (log node) < maxInt → notAppendEntries msg →
  ∃ node', result (Receive act msg node) = Done node' ∧ wellFormed node'
           ∧ len (log node') <= len (log node) + 1.
Proof.
  intros Hw Hlen Hmsg.
  destruct (dispatch_wellFormed act msg node Hw Hlen Hmsg) as (mid & Hd & Ht & Hc).
  destruct Hw as (_ & _ & Hla & Hci).
  destruct (dispatch_lastApplied _ _ _ _ Hd) as [Hla' _].
  destruct (dispatch_log_commitIndex _ _ _ _ Hd Hmsg) as [Hci' Hlog].
  assert (Hlen' : len (log node) <= len (log mid) <= len (log node) + 1).
  { destruct Hlog as [-> | [e ->]]; rewrite ?len_app; lia. }
  assert (Hw' : wellFormed mid).
  { unfold wellFormed. rewrite Hla', Hci'. split; [done|]. split; [done|]. lia. }
  destruct (updateStateMachine_total act mid) as [node' Hu]; [lia..|].
  exists node'.
  destruct (wellFormed_after_advance _ _ _ Hu Hw' ltac:(lia)) as [Hw2 Hl2].
  split; [|split; [done | rewrite Hl2; lia]].
  apply Receive_Done. eauto.
Qed.

(** X21. A run without [AppendEntries] never panics.  From a state whose
    peer table is keyed by the peers' names and whose cursors,
    [lastApplied] and [commitIndex] are within the log, every sequence of
    messages other than [AppendEntries], delivered in any contexts, is
    handled to the end, provided the log has room for one entry per
    message; and the state it leaves is again of this kind. *)
Theorem run_without_AppendEntries_completes steps node :
  wellFormed node →
  len (log node) + Z.of_nat (length steps) <= maxInt →
  Forall (λ step : Context * message, notAppendEntries step.2) steps →
  ∃ node', handleAll steps node = Done node' ∧ wellFormed node'.
Proof.
  unfold handleAll. revert node.
  induction steps as [|[act msg] steps IH]; intros node Hw Hlen Hall.
  - by exists node.
  - apply Forall_cons in Hall as [Hmsg Hall]. rewrite length_cons in Hlen.
    destruct (Receive_wellFormed act msg node Hw ltac:(lia) Hmsg)
      as (mid & Hr & Hw' & Hl').
    cbn [foldl deliver fst snd]. rewrite Hr.
    apply IH; [done | lia | done].
Qed.

(** A fresh node A is initialised, started, told of B and C, and its
    election timer fires: the run completes. *)
Lemma run_without_AppendEntries_completes_witness :
  ∃ node',
    handleAll
      [(Scenario.actA, Initialized); (Scenario.actA, Started);
       (Scenario.actA, MsgActiveNodes (ActiveNodes.mk ["A"; "B"; "C"]%string));
       (mkContext "A"%string None (Some ElectionTimer), checkTimers)]
      (newNode Scenario.cfg)
    = Done node' ∧ wellFormed node'.
Proof.
  apply (run_without_AppendEntries_completes
           [(Scenario.actA, Initialized); (Scenario.actA, Started);
            (Scenario.actA, MsgActiveNodes (ActiveNodes.mk ["A"; "B"; "C"]%string));
            (mkContext "A"%string None (Some ElectionTimer), checkTimers)]
           (newNode Scenario.cfg)).
  - repeat split; try (intros k md; cbn [nodes newNode]; by rewrite lookup_empty);
      closed_Z.
  - closed_Z.
  - repeat constructor; intros m; discriminate.
Defined.

(** ** The first broadcast of a new leader *)

(** X22. The vote that makes a node leader.  When a granted vote of the
    current term lifts the tally of a node that is not leader above half of
    its peers, the node makes itself leader, points every cursor behind its
    last entry, and sends each peer exactly one [AppendEntries] that carries
    no entries, names the last index and term of its own log as the previous
    entry, and announces its [commitIndex]. *)
Theorem promotion_broadcast act msg node :
  RequestVoteResult.VoteGranted msg = true →
  RequestVoteResult.Term msg = currentTerm node →
  pidEquals (leader node) (Some (ctxPID act)) = false →
  votesOverHalf (wrap64 (votes node + 1)) (size (nodes node)) = true →
  tableConsistent node → len (log node) <= maxInt →
  ∃ out,
    dispatch act (MsgRequestVoteResult msg) node = mkM (Done (promote act node)) out ∧
    out ≡ₚ (λ md, Send (Some (pid md))
                    (MsgAppendEntries
                       (AppendEntries.mk (currentTerm node) (ctxPID act)
                          (lastLogIndexAndTerm node).1 (lastLogIndexAndTerm node).2
                          [] (commitIndex node))))
           <$> (snd <$> map_to_list (nodes node)).
Proof.
  intros Hg Hterm Hl Hover Ht Hlen. pose proof maxInt_lt_maxUint64 as Hmax.
  pose proof (len_nonneg (log node)) as Hnn.
  assert (He : handleExternalTerm (RequestVoteResult.Term msg) node = node).
  { unfold handleExternalTerm. by rewrite Hterm, Z.gtb_ltb, Z.ltb_irrefl. }
  assert (Hstep : handleRequestVoteResult act msg node
                  = (sendAppendEntriesAll act (promote act node);;
                     ret (promote act node))).
  { unfold handleRequestVoteResult. rewrite Hg, Hterm, Z.eqb_refl, Hl.
    cbn [andb negb votes set_votes nodes]. by rewrite Hover. }
  assert (Ht' : tableConsistent (promote act node)).
  { intros k md. unfold promote. cbn [nodes set_nodes]. rewrite lookup_fmap.
    destruct (nodes node !! k) as [md0|] eqn:E; [|done].
    intros [= <-]. cbn [resetCursor pid]. eauto. }
  cbn [dispatch]. rewrite He, Hstep.
  rewrite sendAppendEntriesAll_in_log; [| done | by apply promote_cursorsInLog | done].
  eexists. split.
  { unfold mbind, M_bind, bind. cbn [result effects ret]. by rewrite app_nil_r. }
  unfold promote at 2. cbn [nodes set_nodes].
  rewrite map_to_list_fmap, <- !list_fmap_compose.
  match goal with |- ?a ≡ₚ ?b => replace a with b; [done|] end.
  apply list_fmap_ext. intros i [k md] _. cbn [compose prod_map snd fst id].
  unfold appendEntriesFor, resetCursor, lastLogIndexAndTerm.
  cbn [pid nextIndex fst snd currentTerm commitIndex log promote set_nodes set_leader set_votes].
  rewrite wrap64_small by lia.
  replace (len (log node) + 1 - 1) with (len (log node)) by lia.
  replace (len (log node) + 1 - 2) with (len (log node) - 1) by lia.
  rewrite drop_ge by (unfold len; lia). done.
Qed.

(** Candidate A of five nodes, holding two votes, receives the third. *)
Lemma promotion_broadcast_witness :
  ∃ node1 out,
    result (Receive Scenario.actA (MsgRequestVoteResult Scenario.grant)
              Scenario.candidateA5) = Done node1 ∧
    dispatch Scenario.actA (MsgRequestVoteResult Scenario.grant) node1
    = mkM (Done (promote Scenario.actA node1)) out ∧
    length out = 4%nat.
Proof.
  exists (set_votes 2 Scenario.candidateA5).
  destruct (promotion_broadcast Scenario.actA Scenario.grant
              (set_votes 2 Scenario.candidateA5))
    as (out & Hd & Hout); try (vm_compute; reflexivity).
  - intros k md Hk. apply elem_of_map_to_list in Hk. revert Hk.
    vm_compute map_to_list. rewrite !elem_of_cons, elem_of_nil.
    intros [[= -> ->] | [[= -> ->] | [[= -> ->] | [[= -> ->] | []]]]]; reflexivity.
  - closed_Z.
  - exists out. split; [vm_compute; reflexivity|]. split; [exact Hd|].
    rewrite Hout. by rewrite !length_fmap.
Defined.
